(** * Ludo rules engine (ludo_game.py): shallow embedding and verified properties

    The engine of [ludo_game.py] is embedded as follows.

    - [PlayerColor], [GameState.t], [EventType.t] are the three Python enums.
    - [Piece], [Player], [LudoGame] are records with the fields of the Python
      classes.  The fields of [LudoGame] that [__init__] sets once and nothing
      ever assigns again ([board_size], [home_stretch_positions],
      [safe_positions]) are constants.
    - [players] is a Python [dict]: an association list in insertion order
      with the dict's operations ([dict_get], [dict_set], [dict_del]).
    - Python object references to pieces are modelled by the pair
      (player_color, piece_id) that every [Piece] carries from its
      constructor: [Player.__init__] creates piece [i] of colour [c] at index
      [i] of [players[c].pieces] and nothing rebinds either field, so this pair
      is the piece's location in the store.  [Piece] has no [__eq__]: the
      source's [!=] on pieces is identity, here [same_piece].
    - A method of [LudoGame] that only reads the game is a function of the
      game into [outcome]: it returns or raises ([KeyError], [IndexError]).
      A method that assigns or emits is a computation in [M]: it also yields
      the game as it left it and the events it emitted in order (what
      [_emit_event] hands to every listener).
    - [random.randint(1, 6)] is an input of [roll_dice]: a [Face]. *)

From stdpp Require Import base decidable option numbers list.


Local Open Scope Z_scope.

(** ** Enumerations *)

Inductive PlayerColor := RED | GREEN | YELLOW | BLUE.

#[global] Instance PlayerColor_eq_dec : EqDecision PlayerColor.
Proof. solve_decision. Defined.

Module GameState.
Inductive t := WAITING_FOR_PLAYERS | ROLLING_DICE | MOVING_PIECE | GAME_OVER.
#[global] Instance eq_dec : EqDecision t.
Proof. solve_decision. Defined.
End GameState.

Module EventType.
Inductive t :=
| GAME_STARTED | DICE_ROLLED | PIECE_MOVED | PLAYER_TURN_CHANGED
| GAME_OVER | INVALID_MOVE | PIECE_CAPTURED | PIECE_HOME.
#[global] Instance eq_dec : EqDecision t.
Proof. solve_decision. Defined.
End EventType.

(** ** Events *)

(** [str(piece)] is "<Colour> Piece <id>": determined by, and determining,
    the colour and the id, which is what the payload keeps here. *)
Definition PieceStr : Type := PlayerColor * Z.

(** The [data] dictionary of an event, one constructor per shape the engine
    builds. *)
Inductive EventData :=
| data_players (players : list PlayerColor)
| data_dice (dice_value : Z)
| data_moved (piece_id old_position new_position dice_value : Z)
| data_turn (player_color : PlayerColor)
| data_winner (winner : PlayerColor)
| data_invalid (piece_id dice_value : Z)
| data_captured (captured_piece capturing_piece : PieceStr)
| data_home (piece_id : Z) (player_color : PlayerColor).

Record GameEvent := mkEvent {
  event_type : EventType.t;
  data : EventData;
  event_color : option PlayerColor
}.

(** ** Pieces and players *)

Record Piece := mkPiece {
  player_color : PlayerColor;
  piece_id : Z;
  position : Z;
  is_home : bool;
  is_safe : bool
}.

(** [Piece.__init__] *)
Definition new_piece (c : PlayerColor) (i : Z) : Piece :=
  mkPiece c i (-1) false false.

(** [Piece.reset] *)
Definition piece_reset (p : Piece) : Piece :=
  mkPiece (player_color p) (piece_id p) (-1) false false.

Definition str_piece (p : Piece) : PieceStr := (player_color p, piece_id p).

(** Identity of two piece objects. *)
Definition same_piece (p q : Piece) : bool :=
  bool_decide (player_color p = player_color q) && (piece_id p =? piece_id q).

Record Player := mkPlayer {
  color : PlayerColor;
  pieces : list Piece;
  home_count : Z;
  start_position : Z;
  home_position : Z
}.

Definition _get_start_position (c : PlayerColor) : Z :=
  match c with RED => 0 | GREEN => 13 | YELLOW => 26 | BLUE => 39 end.

Definition _get_home_position (c : PlayerColor) : Z :=
  match c with RED => 50 | GREEN => 63 | YELLOW => 76 | BLUE => 89 end.

(** [Player.__init__] *)
Definition new_player (c : PlayerColor) : Player :=
  mkPlayer c (map (new_piece c) [0; 1; 2; 3]) 0
           (_get_start_position c) (_get_home_position c).

Definition get_pieces_in_home (p : Player) : list Piece :=
  filter (fun x => position x = -1) (pieces p).

Definition get_pieces_on_board (p : Player) : list Piece :=
  filter (fun x => 0 <= position x ∧ is_home x = false) (pieces p).

Definition get_pieces_in_final_home (p : Player) : list Piece :=
  filter (fun x => is_home x = true) (pieces p).

Definition has_won (p : Player) : bool :=
  bool_decide (length (get_pieces_in_final_home p) = 4%nat).

Definition set_pieces (ps : list Piece) (p : Player) : Player :=
  mkPlayer (color p) ps (home_count p) (start_position p) (home_position p).

Definition set_home_count (n : Z) (p : Player) : Player :=
  mkPlayer (color p) (pieces p) n (start_position p) (home_position p).

(** ** The players dictionary *)

(** A dictionary keyed by colours, in insertion order. *)
Abbreviation dict V := (list (PlayerColor * V)).

Section Dict.
Context {V : Type}.
Implicit Type d : dict V.

Fixpoint dict_get (k : PlayerColor) (d : dict V) : option V :=
  match d with
  | [] => None
  | (k', v) :: d' => if decide (k' = k) then Some v else dict_get k d'
  end.

Definition dict_mem (k : PlayerColor) (d : dict V) : bool :=
  bool_decide (is_Some (dict_get k d)).

(** [d[k] = v]: in place when the key exists, appended otherwise. *)
Fixpoint dict_set (k : PlayerColor) (v : V) (d : dict V) : dict V :=
  match d with
  | [] => [(k, v)]
  | (k', v') :: d' =>
      if decide (k' = k) then (k', v) :: d' else (k', v') :: dict_set k v d'
  end.

(** [del d[k]] *)
Definition dict_del (k : PlayerColor) (d : dict V) : dict V :=
  filter (λ kv, kv.1 ≠ k) d.

Definition dict_keys (d : dict V) : list PlayerColor := map fst d.
Definition dict_values (d : dict V) : list V := map snd d.
End Dict.

(** ** The game *)

Record LudoGame := mkGame {
  players : dict Player;
  current_player : option PlayerColor;
  game_state : GameState.t;
  dice_value : Z
}.

Definition board_size : Z := 52.

Definition home_stretch_positions (c : PlayerColor) : list Z :=
  match c with
  | RED => seqZ 50 6
  | GREEN => seqZ 63 6
  | YELLOW => seqZ 76 6
  | BLUE => seqZ 89 6
  end.

Definition safe_positions : list Z := [0; 8; 13; 21; 26; 34; 39; 47].

(** [LudoGame.__init__] *)
Definition new_game : LudoGame :=
  mkGame [] None GameState.WAITING_FOR_PLAYERS 0.

Definition set_players (d : dict Player) (g : LudoGame) : LudoGame :=
  mkGame d (current_player g) (game_state g) (dice_value g).
Definition set_current_player (c : option PlayerColor) (g : LudoGame) : LudoGame :=
  mkGame (players g) c (game_state g) (dice_value g).
Definition set_game_state (s : GameState.t) (g : LudoGame) : LudoGame :=
  mkGame (players g) (current_player g) s (dice_value g).
Definition set_dice_value (v : Z) (g : LudoGame) : LudoGame :=
  mkGame (players g) (current_player g) (game_state g) v.

(** ** Outcomes of method calls *)

Inductive exn := KeyError | IndexError.

(** [Diverged] is a loop that used up the fuel its model was given; no
    method below ever ends so ([skip_winners_returns]). *)
Inductive outcome (A : Type) :=
| Returned (a : A)
| Raised (e : exn)
| Diverged.
Arguments Returned {A} a.
Arguments Raised {A} e.
Arguments Diverged {A}.

Definition obind {A B} (o : outcome A) (f : A → outcome B) : outcome B :=
  match o with
  | Returned a => f a
  | Raised e => Raised e
  | Diverged => Diverged
  end.

Notation "'read' x := y ; z" := (obind y (λ x, z))
  (at level 10, x name, y at level 100, z at level 200, only parsing).

(** [d[k]]: raises [KeyError] on a missing key. *)
Definition dict_at {V} (d : dict V) (k : PlayerColor) : outcome V :=
  match dict_get k d with
  | Some v => Returned v
  | None => Raised KeyError
  end.

(** [l[i]] for an index already known to be non-negative. *)
Definition list_at {A} (l : list A) (i : Z) : outcome A :=
  match l !! Z.to_nat i with
  | Some x => Returned x
  | None => Raised IndexError
  end.

(** ** The monad of the methods that assign or emit *)

(** A method run from game [g] ends with an outcome, the game as the method
    left it, and the events it emitted, oldest first. *)
Definition M (A : Type) : Type := LudoGame → outcome A * LudoGame * list GameEvent.

Definition ret {A} (a : A) : M A := λ g, (Returned a, g, []).

Definition bind {A B} (m : M A) (f : A → M B) : M B := λ g,
  match m g with
  | (Returned a, g1, ev1) =>
      match f a g1 with
      | (o, g2, ev2) => (o, g2, ev1 ++ ev2)
      end
  | (Raised e, g1, ev1) => (Raised e, g1, ev1)
  | (Diverged, g1, ev1) => (Diverged, g1, ev1)
  end.

Declare Scope engine_scope.
Delimit Scope engine_scope with engine.
Bind Scope engine_scope with M.
Notation "x ← y ; z" := (bind y (λ x, z))
  (at level 20, y at level 100, z at level 200, only parsing) : engine_scope.
Notation "x ;; z" := (bind x (λ _, z))
  (at level 100, z at level 200, only parsing, right associativity) : engine_scope.
Local Open Scope engine_scope.

Definition get : M LudoGame := λ g, (Returned g, g, []).
Definition modify (f : LudoGame → LudoGame) : M unit := λ g, (Returned tt, f g, []).
Definition diverge {A} : M A := λ g, (Diverged, g, []).

(** A call of a read-only method. *)
Definition query {A} (f : LudoGame → outcome A) : M A := λ g, (f g, g, []).

(** [_emit_event] *)
Definition _emit_event (e : GameEvent) : M unit := λ g, (Returned tt, g, [e]).

Definition add_event (t : EventType.t) (d : EventData) (c : option PlayerColor) : M unit :=
  _emit_event (mkEvent t d c).

(** Assignment to attributes of the player object of colour [c]. *)
Definition alter_player (f : Player → Player) (c : PlayerColor) (d : dict Player) : dict Player :=
  match dict_get c d with
  | Some p => dict_set c (f p) d
  | None => d
  end.

Definition update_player (c : PlayerColor) (f : Player → Player) : M unit :=
  modify (λ g, set_players (alter_player f c (players g)) g).

(** Assignment to attributes of the piece object [r] refers to. *)
Definition alter_piece (f : Piece → Piece) (r : PieceStr) : dict Player → dict Player :=
  alter_player (λ p, set_pieces (alter f (Z.to_nat r.2) (pieces p)) p) r.1.

Definition update_piece (r : PieceStr) (f : Piece → Piece) : M unit :=
  modify (λ g, set_players (alter_piece f r (players g)) g).

Definition set_position (v : Z) (p : Piece) : Piece :=
  mkPiece (player_color p) (piece_id p) v (is_home p) (is_safe p).
Definition set_is_home (v : bool) (p : Piece) : Piece :=
  mkPiece (player_color p) (piece_id p) (position p) v (is_safe p).
Definition set_is_safe (v : bool) (p : Piece) : Piece :=
  mkPiece (player_color p) (piece_id p) (position p) (is_home p) v.

(** ** Read-only methods of [LudoGame] *)

Definition _should_enter_home_stretch (g : LudoGame) (piece : Piece) (new_position : Z)
  : outcome bool :=
  if new_position <? board_size then Returned false else
  read player := dict_at (players g) (player_color piece);
  let start_pos := start_position player in
  if (position piece <? start_pos) && (new_position >=? start_pos) then Returned false else
  Returned true.

Definition _calculate_new_position (g : LudoGame) (piece : Piece) (dice : Z) : outcome Z :=
  if is_home piece then Returned (position piece) else
  if position piece =? -1 then
    if dice =? 6 then
      read player := dict_at (players g) (player_color piece);
      Returned (start_position player)
    else Returned (-1)
  else
  let new_pos := position piece + dice in
  read enter := _should_enter_home_stretch g piece new_pos;
  if enter then
    let home_stretch_pos := new_pos - board_size in
    read player := dict_at (players g) (player_color piece);
    Returned (home_position player + home_stretch_pos)
  else
  let new_pos := if new_pos >=? board_size then new_pos - board_size else new_pos in
  Returned new_pos.

Definition _is_in_final_home (g : LudoGame) (piece : Piece) : outcome bool :=
  read player := dict_at (players g) (player_color piece);
  if position piece <? home_position player then Returned false else
  let home_stretch := home_stretch_positions (player_color piece) in
  Returned (bool_decide (position piece ∈ home_stretch)).

(** The test of the loop of [_is_valid_move]. *)
Definition blocks (piece : Piece) (new_position : Z) (other_piece : Piece) : bool :=
  negb (same_piece other_piece piece)
  && (position other_piece =? new_position)
  && negb (is_home other_piece).

Definition _is_valid_move (g : LudoGame) (piece : Piece) (new_position : Z) : outcome bool :=
  if is_home piece then Returned false else
  if position piece =? -1 then Returned (dice_value g =? 6) else
  read player := dict_at (players g) (player_color piece);
  Returned (negb (existsb (blocks piece new_position) (pieces player))).

(** The test of the loops of [_check_capture]. *)
Definition capturable (moving_piece : Piece) (pos : Z) (piece : Piece) : bool :=
  negb (same_piece piece moving_piece)
  && (position piece =? pos)
  && negb (is_home piece)
  && bool_decide (player_color piece ≠ player_color moving_piece).

Definition all_pieces (g : LudoGame) : list Piece :=
  flat_map pieces (dict_values (players g)).

Definition _check_capture (g : LudoGame) (moving_piece : Piece) (pos : Z) : option Piece :=
  if bool_decide (pos ∈ safe_positions) then None else
  find (capturable moving_piece pos) (all_pieces g).

(** The [for] loop of [get_valid_moves] over the pieces still to visit. *)
Fixpoint valid_moves_loop (g : LudoGame) (ps : list Piece) : outcome (list (Piece * Z)) :=
  match ps with
  | [] => Returned []
  | piece :: rest =>
      read new_position := _calculate_new_position g piece (dice_value g);
      read valid := _is_valid_move g piece new_position;
      read valid_moves := valid_moves_loop g rest;
      Returned (if valid then (piece, new_position) :: valid_moves else valid_moves)
  end.

Definition get_valid_moves (g : LudoGame) (pc : PlayerColor) : outcome (list (Piece * Z)) :=
  if bool_decide (current_player g ≠ Some pc)
     || bool_decide (game_state g ≠ GameState.MOVING_PIECE) then Returned [] else
  read player := dict_at (players g) pc;
  valid_moves_loop g (pieces player).

(** The dictionary [get_game_state] builds. *)
Record PieceView := mkPieceView {
  view_piece_id : Z;
  view_position : Z;
  view_is_home : bool;
  view_is_safe : bool
}.

Record PlayerView := mkPlayerView {
  view_home_count : Z;
  view_has_won : bool;
  view_pieces : list PieceView
}.

Record Snapshot := mkSnapshot {
  view_game_state : GameState.t;
  view_current_player : option PlayerColor;
  view_dice_value : Z;
  view_players : dict PlayerView
}.

Definition piece_view (p : Piece) : PieceView :=
  mkPieceView (piece_id p) (position p) (is_home p) (is_safe p).

Definition player_view (p : Player) : PlayerView :=
  mkPlayerView (home_count p) (has_won p) (map piece_view (pieces p)).

Definition get_game_state (g : LudoGame) : Snapshot :=
  mkSnapshot (game_state g) (current_player g) (dice_value g)
    (map (λ kv, (kv.1, player_view kv.2)) (players g)).

(** ** Methods of [LudoGame] that assign or emit *)

Definition _start_game : M unit :=
  g ← get;
  if bool_decide (length (players g) ≠ 4%nat) then ret tt else
  modify (set_game_state GameState.ROLLING_DICE);;
  modify (set_current_player (Some RED));;
  g ← get;
  add_event EventType.GAME_STARTED (data_players (dict_keys (players g))) (current_player g).

Definition add_player (c : PlayerColor) : M bool :=
  g ← get;
  if dict_mem c (players g) then ret false else
  modify (λ g, set_players (dict_set c (new_player c) (players g)) g);;
  g ← get;
  (if bool_decide (length (players g) = 4%nat) then _start_game else ret tt);;
  ret true.

Definition remove_player (c : PlayerColor) : M bool :=
  g ← get;
  if negb (dict_mem c (players g)) then ret false else
  modify (λ g, set_players (dict_del c (players g)) g);;
  ret true.

(** The six values [random.randint(1, 6)] can return. *)
Inductive Face := F1 | F2 | F3 | F4 | F5 | F6.

Definition randint_1_6 (f : Face) : Z :=
  match f with F1 => 1 | F2 => 2 | F3 => 3 | F4 => 4 | F5 => 5 | F6 => 6 end.

Definition roll_dice (r : Face) : M Z :=
  g ← get;
  if bool_decide (game_state g ≠ GameState.ROLLING_DICE) then ret 0 else
  modify (set_dice_value (randint_1_6 r));;
  modify (set_game_state GameState.MOVING_PIECE);;
  g ← get;
  add_event EventType.DICE_ROLLED (data_dice (dice_value g)) (current_player g);;
  ret (dice_value g).

Definition player_order : list PlayerColor := [RED; GREEN; YELLOW; BLUE].

(** [player_order.index(c)] *)
Definition player_order_index (c : PlayerColor) : Z :=
  match c with RED => 0 | GREEN => 1 | YELLOW => 2 | BLUE => 3 end.

(** The [while] loop of [_next_turn]; the result is [next_index] at its exit. *)
Fixpoint skip_winners (fuel : nat) (g : LudoGame) (current_index next_index : Z) : outcome Z :=
  match fuel with
  | O => Diverged
  | S fuel' =>
      if bool_decide (next_index ≠ current_index) then
        read next_player := list_at player_order next_index;
        match dict_get next_player (players g) with
        | Some p =>
            if negb (has_won p) then Returned next_index
            else skip_winners fuel' g current_index ((next_index + 1) `mod` 4)
        | None => skip_winners fuel' g current_index ((next_index + 1) `mod` 4)
        end
      else Returned next_index
  end.

Definition _next_turn : M unit :=
  g ← get;
  match current_player g with
  | None => ret tt
  | Some cur =>
      let current_index := player_order_index cur in
      let next_index := (current_index + 1) `mod` 4 in
      next_index ← query (λ g, skip_winners 4 g current_index next_index);
      next ← query (λ _, list_at player_order next_index);
      modify (set_current_player (Some next));;
      modify (set_game_state GameState.ROLLING_DICE);;
      add_event EventType.PLAYER_TURN_CHANGED (data_turn next) (Some next)
  end.

Definition _end_game (winner : PlayerColor) : M unit :=
  modify (set_game_state GameState.GAME_OVER);;
  add_event EventType.GAME_OVER (data_winner winner) (Some winner).

(** [move_piece] from its comment "Execute the move" to its end: [piece] is
    [player.pieces[piece_id]] as the checks above read it. *)
Definition execute_move (pc : PlayerColor) (id : Z) (piece : Piece) (new_position : Z)
  : M bool :=
  let old_position := position piece in
  update_piece (pc, id) (set_position new_position);;
  let piece := set_position new_position piece in
  home ← query (λ g, _is_in_final_home g piece);
  (if home then
     update_piece (pc, id) (set_is_home true);;
     update_player pc (λ p, set_home_count (home_count p + 1) p);;
     add_event EventType.PIECE_HOME (data_home id pc) (Some pc)
   else ret tt);;
  let piece := if home then set_is_home true piece else piece in
  captured ← query (λ g, Returned (_check_capture g piece new_position));
  match captured with
  | Some captured_piece =>
      update_piece (str_piece captured_piece) piece_reset;;
      add_event EventType.PIECE_CAPTURED
        (data_captured (str_piece captured_piece) (str_piece piece)) (Some pc)
  | None => ret tt
  end;;
  update_piece (pc, id) (set_is_safe (bool_decide (new_position ∈ safe_positions)));;
  g ← get;
  add_event EventType.PIECE_MOVED
    (data_moved id old_position new_position (dice_value g)) (Some pc);;
  player ← query (λ g, dict_at (players g) pc);
  if has_won player then _end_game pc;; ret true else
  _next_turn;;
  ret true.

Definition move_piece (pc : PlayerColor) (id : Z) : M bool :=
  g ← get;
  if bool_decide (current_player g ≠ Some pc)
     || bool_decide (game_state g ≠ GameState.MOVING_PIECE) then ret false else
  player ← query (λ g, dict_at (players g) pc);
  if (id <? 0) || (id >=? 4) then ret false else
  piece ← query (λ _, list_at (pieces player) id);
  new_position ← query (λ g, _calculate_new_position g piece (dice_value g));
  valid ← query (λ g, _is_valid_move g piece new_position);
  if negb valid then
    add_event EventType.INVALID_MOVE (data_invalid id (dice_value g)) (Some pc);;
    ret false
  else
  execute_move pc id piece new_position.

Definition reset_player (p : Player) : Player :=
  set_home_count 0 (set_pieces (map piece_reset (pieces p)) p).

Definition reset_game : M unit :=
  modify (λ g, set_players (map (λ kv, (kv.1, reset_player kv.2)) (players g)) g);;
  modify (set_current_player None);;
  modify (set_game_state GameState.WAITING_FOR_PLAYERS);;
  modify (set_dice_value 0);;
  g ← get;
  if bool_decide (length (players g) = 4%nat) then _start_game else ret tt.

(** ** Runs of public operations *)

(** A call of a public method.  [add_event_listener] registers an observer
    of the event sequence and touches nothing else. *)
Inductive Call :=
| call_add_player (c : PlayerColor)
| call_remove_player (c : PlayerColor)
| call_add_event_listener
| call_roll_dice (r : Face)
| call_get_valid_moves (c : PlayerColor)
| call_move_piece (c : PlayerColor) (id : Z)
| call_get_game_state
| call_reset_game.

(** What a call hands back to its caller. *)
Inductive Value :=
| v_bool (b : bool)
| v_int (n : Z)
| v_moves (l : list (Piece * Z))
| v_snapshot (s : Snapshot)
| v_none.

Definition fmapM {A B} (f : A → B) (m : M A) : M B := x ← m; ret (f x).

Definition exec (c : Call) : M Value :=
  match c with
  | call_add_player c => fmapM v_bool (add_player c)
  | call_remove_player c => fmapM v_bool (remove_player c)
  | call_add_event_listener => ret v_none
  | call_roll_dice r => fmapM v_int (roll_dice r)
  | call_get_valid_moves c => fmapM v_moves (query (λ g, get_valid_moves g c))
  | call_move_piece c id => fmapM v_bool (move_piece c id)
  | call_get_game_state => fmapM v_snapshot (query (λ g, Returned (get_game_state g)))
  | call_reset_game => fmapM (λ _, v_none) reset_game
  end.

(** One step of a run: the call, its outcome and the events it emitted. *)
Record Step := mkStep {
  step_call : Call;
  step_outcome : outcome Value;
  step_events : list GameEvent
}.

(** The game after the calls [cs] made in order from [g], with the steps
    taken.  A call that raises leaves the game as it was at the raise and the
    caller goes on with the next call. *)
Fixpoint run (cs : list Call) (g : LudoGame) : LudoGame * list Step :=
  match cs with
  | [] => (g, [])
  | c :: cs' =>
      match exec c g with
      | (o, g1, ev) =>
          match run cs' g1 with
          | (g2, steps) => (g2, mkStep c o ev :: steps)
          end
      end
  end.

Definition final (cs : list Call) : LudoGame := (run cs new_game).1.
Definition trace (cs : list Call) : list Step := (run cs new_game).2.
Definition events (steps : list Step) : list GameEvent := flat_map step_events steps.

(** ** Concrete games used by the examples below *)

(** The four colours join in the order of the repository's tests; the fourth
    call starts the game. *)
Definition four_players : list Call :=
  [call_add_player RED; call_add_player GREEN; call_add_player YELLOW; call_add_player BLUE].

(** The event a rejected move emits. *)
Definition invalid_move_event (g : LudoGame) (pc : PlayerColor) (id : Z) : GameEvent :=
  mkEvent EventType.INVALID_MOVE (data_invalid id (dice_value g)) (Some pc).

(** A piece standing on the track: [piece.position = p], not finished. *)
Definition piece_on_track (c : PlayerColor) (i p : Z) : Piece := mkPiece c i p false false.

(** ** Well-formed games *)

(** What the constructors establish and every public method keeps: a piece
    sits at its own index of its own colour's player, a finished piece is in
    its colour's home stretch and any other piece at base or on the track. *)
Definition piece_ok (c : PlayerColor) (i : nat) (piece : Piece) : Prop :=
  player_color piece = c
  ∧ piece_id piece = Z.of_nat i
  ∧ if is_home piece then position piece ∈ home_stretch_positions c
    else -1 ≤ position piece < board_size.

Definition count_home (ps : list Piece) : Z :=
  Z.of_nat (length (filter (λ x, is_home x = true) ps)).

Definition player_ok (c : PlayerColor) (p : Player) : Prop :=
  color p = c
  ∧ start_position p = _get_start_position c
  ∧ home_position p = _get_home_position c
  ∧ length (pieces p) = 4%nat
  ∧ (∀ i piece, pieces p !! i = Some piece → piece_ok c i piece)
  ∧ home_count p = count_home (pieces p).

Definition wf_players (d : dict Player) : Prop :=
  NoDup (dict_keys d) ∧ ∀ c p, dict_get c d = Some p → player_ok c p.

Definition wf (g : LudoGame) : Prop :=
  wf_players (players g) ∧ 0 ≤ dice_value g ≤ 6.

(** ** The effect of [execute_move] on the players, step by step *)

(** After the position is written and, if the piece landed home, the flag
    and the count. *)
Definition landed (pc : PlayerColor) (id n : Z) (home : bool) (d : dict Player)
  : dict Player :=
  let d1 := alter_piece (set_position n) (pc, id) d in
  if home then
    alter_player (λ p, set_home_count (home_count p + 1) p) pc
      (alter_piece (set_is_home true) (pc, id) d1)
  else d1.

(** The moving piece as [_check_capture] sees it. *)
Definition landed_piece (n : Z) (home : bool) (piece : Piece) : Piece :=
  if home then set_is_home true (set_position n piece) else set_position n piece.

(** After the captured piece, if any, is reset. *)
Definition captured_players (captured : option Piece) (d : dict Player) : dict Player :=
  match captured with
  | Some captured_piece => alter_piece piece_reset (str_piece captured_piece) d
  | None => d
  end.

(** After the safety flag of the moving piece is written. *)
Definition settled (pc : PlayerColor) (id n : Z) (d : dict Player) : dict Player :=
  alter_piece (set_is_safe (bool_decide (n ∈ safe_positions))) (pc, id) d.

Definition home_events (pc : PlayerColor) (id : Z) (home : bool) : list GameEvent :=
  if home then [mkEvent EventType.PIECE_HOME (data_home id pc) (Some pc)] else [].

Definition capture_events (pc : PlayerColor) (moving : Piece) (captured : option Piece)
  : list GameEvent :=
  match captured with
  | Some captured_piece =>
      [mkEvent EventType.PIECE_CAPTURED
         (data_captured (str_piece captured_piece) (str_piece moving)) (Some pc)]
  | None => []
  end.

Definition moved_event (g : LudoGame) (pc : PlayerColor) (id old n : Z) : GameEvent :=
  mkEvent EventType.PIECE_MOVED (data_moved id old n (dice_value g)) (Some pc).

Definition game_over_event (winner : PlayerColor) : GameEvent :=
  mkEvent EventType.GAME_OVER (data_winner winner) (Some winner).

Definition turn_event (next : PlayerColor) : GameEvent :=
  mkEvent EventType.PLAYER_TURN_CHANGED (data_turn next) (Some next).

(** The moving piece after [execute_move] has written its three fields. *)
Definition moved_piece (n : Z) (home : bool) (piece : Piece) : Piece :=
  set_is_safe (bool_decide (n ∈ safe_positions)) (landed_piece n home piece).

(** The player of the moving piece after the move. *)
Definition moved_player (i : nat) (n : Z) (home : bool) (p : Player) : Player :=
  mkPlayer (color p) (alter (moved_piece n home) i (pieces p))
    (if home then home_count p + 1 else home_count p)
    (start_position p) (home_position p).

Definition game_started_event (g : LudoGame) : GameEvent :=
  mkEvent EventType.GAME_STARTED (data_players (dict_keys (players g))) (Some RED).

(** The game once [_start_game] has found four players. *)
Definition started (g : LudoGame) : LudoGame :=
  set_current_player (Some RED) (set_game_state GameState.ROLLING_DICE g).

(** The game as [reset_game] leaves it before it looks at the player count. *)
Definition cleared (g : LudoGame) : LudoGame :=
  mkGame (map (λ kv, (kv.1, reset_player kv.2)) (players g))
    None GameState.WAITING_FOR_PLAYERS 0.

(** ** Quantities and notions the properties are stated with *)

(** [sum(player.home_count for player in players.values())] *)
Definition sum_home_count (g : LudoGame) : Z :=
  foldr Z.add 0 (map home_count (dict_values (players g))).

(** The terminal home cell of a colour: the cell its six-cell home stretch
    leads to, the last of [home_stretch_positions]. *)
Definition terminal_home_cell (c : PlayerColor) : option Z :=
  last (home_stretch_positions c).

Definition emitted (t : EventType.t) (ev : list GameEvent) : Prop :=
  ∃ e, e ∈ ev ∧ event_type e = t.

(** ** Concrete runs used by the examples below *)

(** A roll that comes up [r] followed by the move of piece [i]. *)
Definition turn (r : Face) (c : PlayerColor) (i : Z) : list Call :=
  [call_roll_dice r; call_move_piece c i].

(** One turn of each colour, each moving its piece 0. *)
Definition round (r1 r2 r3 r4 : Face) : list Call :=
  turn r1 RED 0 ++ turn r2 GREEN 0 ++ turn r3 YELLOW 0 ++ turn r4 BLUE 0.

(** Nine rounds of a four-player game: every colour leaves base with a 6,
    then RED rolls only sixes and reaches cell 48 while the others advance
    by one or two cells; nobody is captured.  RED is to roll next. *)
Definition red_to_48 : list Call :=
  four_players ++ round F6 F6 F6 F6 ++ round F6 F1 F2 F1
  ++ concat (replicate 7 (round F6 F1 F1 F1)).

(** Piece [i] of a colour taken from base to its finish with ten rolls:
    a 6 to leave base, eight sixes along the track, a 2 from cell 48. *)
Definition lap (c : PlayerColor) (i : Z) : list Call :=
  turn F6 c i ++ concat (replicate 8 (turn F6 c i)) ++ turn F2 c i.

(** RED, left alone after the start, has taken three pieces home, stands
    with the fourth on cell 48 and has just rolled a 2. *)
Definition red_about_to_win : list Call :=
  four_players
  ++ [call_remove_player GREEN; call_remove_player YELLOW; call_remove_player BLUE]
  ++ lap RED 0 ++ lap RED 1 ++ lap RED 2
  ++ turn F6 RED 3 ++ concat (replicate 8 (turn F6 RED 3)) ++ [call_roll_dice F2].

(** The same game with RED's last move made: the game is over. *)
Definition red_wins_alone : list Call :=
  red_about_to_win ++ [call_move_piece RED 3].

(** Three rounds after which RED's piece 0 stands on cell 12 and three of
    GREEN's pieces stand on GREEN's start cell 13, a safe cell.  RED is to
    roll next. *)
Definition red_next_to_green_start : list Call :=
  four_players ++ round F6 F6 F6 F6
  ++ turn F6 RED 0 ++ turn F6 GREEN 1 ++ turn F1 YELLOW 0 ++ turn F1 BLUE 0
  ++ turn F6 RED 0 ++ turn F6 GREEN 2 ++ turn F1 YELLOW 0 ++ turn F1 BLUE 0.

(** ** The spec's rule for a legal move *)



(** The colour of the [k]-th turn of a game nobody has finished yet. *)
Definition seat (k : nat) : PlayerColor :=
  match (k mod 4)%nat with
  | 0%nat => RED
  | 1%nat => GREEN
  | 2%nat => YELLOW
  | _ => BLUE
  end.

(** The rolls and piece choices of a whole four-player game, turn by turn:
    RED takes its pieces home one after the other (nine sixes and a 2 each);
    the others roll and choose so that every one of their moves is legal. *)
Definition full_game_turns : list (Face * Z) :=
  [(F6, 0); (F6, 0); (F6, 0); (F6, 0);  (F6, 0); (F1, 0); (F1, 0); (F1, 0);
   (F6, 0); (F1, 0); (F1, 0); (F1, 0);  (F6, 0); (F1, 0); (F1, 0); (F1, 0);
   (F6, 0); (F1, 0); (F1, 0); (F1, 0);  (F6, 0); (F1, 0); (F6, 0); (F1, 0);
   (F6, 0); (F1, 0); (F1, 0); (F1, 0);  (F6, 0); (F1, 0); (F1, 0); (F1, 0);
   (F6, 0); (F1, 0); (F1, 0); (F1, 0);  (F2, 0); (F1, 0); (F1, 0); (F1, 0);
   (F6, 1); (F1, 0); (F1, 0); (F1, 0);  (F6, 1); (F1, 0); (F1, 0); (F1, 0);
   (F6, 1); (F1, 0); (F1, 0); (F1, 0);  (F6, 1); (F1, 0); (F1, 0); (F1, 0);
   (F6, 1); (F1, 0); (F1, 0); (F6, 1);  (F6, 1); (F1, 0); (F1, 0); (F1, 1);
   (F6, 1); (F1, 0); (F6, 0); (F1, 1);  (F6, 1); (F1, 0); (F1, 0); (F2, 1);
   (F6, 1); (F1, 0); (F1, 0); (F1, 1);  (F2, 1); (F1, 0); (F1, 0); (F1, 1);
   (F6, 2); (F1, 0); (F1, 0); (F1, 1);  (F6, 2); (F1, 0); (F1, 0); (F1, 1);
   (F6, 2); (F1, 0); (F1, 0); (F1, 1);  (F6, 2); (F1, 0); (F1, 0); (F1, 1);
   (F6, 2); (F1, 0); (F1, 0); (F1, 1);  (F6, 2); (F1, 0); (F1, 0); (F1, 1);
   (F6, 2); (F1, 0); (F2, 0); (F1, 1);  (F6, 2); (F1, 0); (F1, 0); (F6, 2);
   (F6, 2); (F1, 0); (F1, 0); (F1, 2);  (F2, 2); (F1, 0); (F2, 0); (F3, 2);
   (F6, 3); (F2, 0); (F1, 0); (F2, 2);  (F6, 3); (F2, 0); (F1, 0); (F2, 2);
   (F6, 3); (F1, 0); (F1, 0); (F1, 2);  (F6, 3); (F2, 0); (F1, 0); (F2, 2);
   (F6, 3); (F2, 0); (F1, 0); (F2, 2);  (F6, 3); (F1, 0); (F1, 0); (F6, 3);
   (F6, 3); (F6, 1); (F1, 0); (F1, 3);  (F6, 3); (F1, 1); (F1, 0); (F1, 3);
   (F6, 3); (F1, 1); (F1, 0); (F1, 3);  (F2, 3)].

(** A whole four-player game, from the four joins to RED's last move. *)
Definition full_game : list Call :=
  four_players ++ concat (imap (λ k o, turn o.1 (seat k) o.2) full_game_turns).

(** ** Snapshots and event counts *)

(** Python's [==] on two dictionaries that [get_game_state] built: the same
    scalars and the same entry under every colour, whatever the order of
    insertion. *)
Definition snapshot_eq (s1 s2 : Snapshot) : Prop :=
  view_game_state s1 = view_game_state s2
  ∧ view_current_player s1 = view_current_player s2
  ∧ view_dice_value s1 = view_dice_value s2
  ∧ ∀ c, dict_get c (view_players s1) = dict_get c (view_players s2).

(** How many events of type [t] a list holds. *)
Definition count_events (t : EventType.t) (ev : list GameEvent) : nat :=
  length (filter (λ e, event_type e = t) ev).

(** The game stands still: it is over, or waits for players. *)
Definition halted (g : LudoGame) : Prop :=
  game_state g = GameState.GAME_OVER ∨ game_state g = GameState.WAITING_FOR_PLAYERS.

(** A step in which no game ends, no move succeeds and no roll yields a
    value. *)
Definition quiet_step (s : Step) : Prop :=
  ¬ emitted EventType.GAME_OVER (step_events s)
  ∧ (∀ c id, step_call s = call_move_piece c id → step_outcome s = Returned (v_bool false))
  ∧ (∀ r, step_call s = call_roll_dice r → step_outcome s = Returned (v_int 0)).

Definition outcomes (steps : list Step) : list (outcome Value) := map step_outcome steps.

(** * Further properties of the engine and of its callers *)

(** ** Further invariants of the games that public operations reach *)

(** Phase, current player and dice value go together. *)
Definition phase_ok (g : LudoGame) : Prop :=
  (current_player g = None ↔ game_state g = GameState.WAITING_FOR_PLAYERS)
  ∧ (game_state g = GameState.WAITING_FOR_PLAYERS → dice_value g = 0)
  ∧ (game_state g = GameState.MOVING_PIECE → 1 ≤ dice_value g ≤ 6).

(** The flag [is_safe] of a piece says whether it stands on a safe cell, and
    a piece of colour [c] that is not finished is at base or on the track
    between the start cell of [c] and cell 51. *)
Definition piece_placed (c : PlayerColor) (piece : Piece) : Prop :=
  is_safe piece = bool_decide (position piece ∈ safe_positions)
  ∧ (is_home piece = false →
       position piece = -1 ∨ _get_start_position c ≤ position piece < board_size).

Definition placed (g : LudoGame) : Prop :=
  ∀ c p i piece,
    dict_get c (players g) = Some p → pieces p !! i = Some piece → piece_placed c piece.

(** Two unfinished pieces never share a track cell that is not safe. *)
Definition uncrowded (g : LudoGame) : Prop :=
  ∀ c1 p1 i1 x1 c2 p2 i2 x2,
    dict_get c1 (players g) = Some p1 → pieces p1 !! i1 = Some x1 →
    dict_get c2 (players g) = Some p2 → pieces p2 !! i2 = Some x2 →
    is_home x1 = false → is_home x2 = false →
    position x1 = position x2 → 0 ≤ position x1 → position x1 ∉ safe_positions →
    c1 = c2 ∧ i1 = i2.

Definition inv (g : LudoGame) : Prop :=
  wf g ∧ phase_ok g ∧ placed g ∧ uncrowded g.

(** A piece as its constructor and [reset] leave it. *)
Definition at_base (x : Piece) : Prop :=
  position x = -1 ∧ is_home x = false ∧ is_safe x = false.

(** ** Players of the concrete games used by the examples *)

(** RED's player at the end of [red_to_48]. *)
Definition red_at_48 : Player :=
  mkPlayer RED [piece_on_track RED 0 48; new_piece RED 1; new_piece RED 2; new_piece RED 3]
    0 0 50.

(** GREEN's player at the end of [red_to_48]: its piece 0 stands on the safe
    cell 21. *)
Definition green_at_21 : Player :=
  mkPlayer GREEN [mkPiece GREEN 0 21 false true; new_piece GREEN 1; new_piece GREEN 2;
                  new_piece GREEN 3] 0 13 63.

(** ** Calls that play or observe *)

(** The calls that neither change who takes part nor reset the game. *)
Definition plays (c : Call) : bool :=
  match c with
  | call_add_player _ | call_remove_player _ | call_reset_game => false
  | _ => true
  end.

(** The current player is no longer among the players while a move is
    awaited: [remove_player] took it out after its roll. *)
Definition mover_missing (g : LudoGame) (pc : PlayerColor) : Prop :=
  current_player g = Some pc ∧ game_state g = GameState.MOVING_PIECE
  ∧ dict_mem pc (players g) = false.

(** ** The order of turns *)

(** The colours that follow [c] in [player_order], going round. *)
Definition followers (c : PlayerColor) : list PlayerColor :=
  match c with
  | RED => [GREEN; YELLOW; BLUE]
  | GREEN => [YELLOW; BLUE; RED]
  | YELLOW => [BLUE; RED; GREEN]
  | BLUE => [RED; GREEN; YELLOW]
  end.

(** A colour the loop of [_next_turn] stops at: a player that has not won. *)
Definition in_play (g : LudoGame) (c : PlayerColor) : bool :=
  match dict_get c (players g) with
  | Some p => negb (has_won p)
  | None => false
  end.

(** The first follower of [c] that is in play, and [c] itself when there is
    none. *)
Definition next_player (g : LudoGame) (c : PlayerColor) : PlayerColor :=
  default c (head (filter (λ k, in_play g k = true) (followers c))).

(** Three rounds after which RED's piece 0 stands on cell 12 and GREEN's
    piece 0 on cell 14, which is not safe; RED has just rolled a 2. *)
Definition red_meets_green : list Call :=
  four_players ++ round F6 F6 F6 F6 ++ round F6 F1 F1 F1
  ++ turn F6 RED 0 ++ turn F6 GREEN 1 ++ turn F1 YELLOW 0 ++ turn F1 BLUE 0
  ++ [call_roll_dice F2].

(** ** Games reached with [_next_turn] *)

(** The callers of the engine ([cli_example.py], [ai_player.py]) pass a turn
    by calling [_next_turn] themselves.  An operation is a public call or
    that call. *)
Inductive Op :=
| op_call (c : Call)
| op_next_turn.

Definition step_op (g : LudoGame) (o : Op) : LudoGame :=
  match o with
  | op_call c => (exec c g).1.2
  | op_next_turn => (_next_turn g).1.2
  end.

(** The game after the operations [ops], made in order on a new game. *)
Definition reached (ops : list Op) : LudoGame := foldl step_op new_game ops.

(** ** [cli_example.py] *)

(** [print] appends a line to the standard output.  The lines
    [_auto_play_turn] and [play_game] print themselves are kept with the data
    they interpolate; a method hands back the lines it printed, oldest first. 
    The lines the event handler prints during the engine's calls are a
    function of the events, which the engine's model yields already. *)
Inductive Line :=
| line_rolled (c : PlayerColor) (dice : Z)
| line_moved (c : PlayerColor) (piece_id : Z)
| line_failed (c : PlayerColor) (piece_id : Z)
| line_skipping (c : PlayerColor)
| line_starting
| line_press_enter
| line_finished
| line_stopped (turn_count : Z).

(** [random.choice(seq)] with the index it draws: [seq[k]] for some [k]
    below [len(seq)], [IndexError] on an empty sequence. *)
Definition random_choice {A} (k : nat) (seq : list A) : outcome A :=
  match seq with
  | [] => Raised IndexError
  | _ => list_at seq (Z.of_nat (k mod length seq))
  end.

(** [CLIGame.__init__]: a new game, the event handler registered, the four
    colours added. *)
Definition cli_init : list Call :=
  [call_add_event_listener; call_add_player RED; call_add_player GREEN;
   call_add_player YELLOW; call_add_player BLUE].

(** [CLIGame._auto_play_turn], with the face the dice shows and the index
    [random.choice] draws. *)
Definition _auto_play_turn (r : Face) (k : nat) (player_color : PlayerColor)
  : M (list Line) :=
  g ← get;
  out1 ← (if bool_decide (game_state g = GameState.ROLLING_DICE) then
            dice ← roll_dice r;
            ret [line_rolled player_color dice]
          else ret []);
  g ← get;
  if bool_decide (game_state g = GameState.MOVING_PIECE) then
    valid_moves ← query (λ g, get_valid_moves g player_color);
    match valid_moves with
    | _ :: _ =>
        chosen ← query (λ _, random_choice k valid_moves);
        success ← move_piece player_color (piece_id chosen.1);
        ret (out1 ++ [if success : bool then line_moved player_color (piece_id chosen.1)
                      else line_failed player_color (piece_id chosen.1)])
    | [] =>
        _next_turn;;
        ret (out1 ++ [line_skipping player_color])
    end
  else ret out1.

(** The [while] loop of [CLIGame.play_game] with [auto_play] true, so that
    nothing is read from the input: [draws i] is what the dice and
    [random.choice] yield in the turn counted [i]. *)
Fixpoint play_loop (fuel : nat) (draws : Z → Face * nat) (max_turns turn_count : Z)
  : M (Z * list Line) :=
  match fuel with
  | O => diverge
  | S fuel' =>
      g ← get;
      if bool_decide (game_state g ≠ GameState.GAME_OVER) && (turn_count <? max_turns) then
        match current_player g with
        | Some c =>
            out ← _auto_play_turn (draws turn_count).1 (draws turn_count).2 c;
            rest ← play_loop fuel' draws max_turns (turn_count + 1);
            ret (rest.1, out ++ rest.2)
        | None => play_loop fuel' draws max_turns turn_count
        end
      else ret (turn_count, [])
  end.

(** [CLIGame.play_game(auto_play=True, max_turns)]. *)
Definition play_game (fuel : nat) (draws : Z → Face * nat) (max_turns : Z)
  : M (list Line) :=
  res ← play_loop fuel draws max_turns 0;
  g ← get;
  ret ([line_starting; line_press_enter] ++ res.2
       ++ [if bool_decide (game_state g = GameState.GAME_OVER) then line_finished
           else line_stopped res.1]).

(** ** [ai_player.py]: numbers and loops *)

From Stdlib Require Floats.SpecFloat.

(** Python's [float] is the binary64 format of IEEE 754 with rounding to
    nearest, ties to even: 53 bits of precision, exponents below 1024. *)
Definition float : Type := SpecFloat.spec_float.
Definition float_prec : Z := 53.
Definition float_emax : Z := 1024.

(** The conversion of an [int] that Python makes when an [int] meets a
    [float] in an arithmetic operation (an [int] too large for a [float]
    raises [OverflowError] in Python and is an infinity here; no number of
    the scores comes near). *)
Definition float_of_int (n : Z) : float :=
  SpecFloat.binary_normalize float_prec float_emax n 0 false.

Definition float_add : float → float → float := SpecFloat.SFadd float_prec float_emax.
Definition float_sub : float → float → float := SpecFloat.SFsub float_prec float_emax.
Definition float_mul : float → float → float := SpecFloat.SFmul float_prec float_emax.
Definition float_div : float → float → float := SpecFloat.SFdiv float_prec float_emax.
Definition float_lt : float → float → bool := SpecFloat.SFltb.

(** The literals [0.0] and [0.5]. *)
Definition float_zero : float := SpecFloat.S754_zero false.
Definition float_half : float :=
  SpecFloat.binary_normalize float_prec float_emax 1 (-1) false.

(** [a / b] on two [int]s (exact for operands below 2^53, where both
    conversions are). *)
Definition int_truediv (a b : Z) : float := float_div (float_of_int a) (float_of_int b).

(** A [for] loop that updates an accumulator. *)
Fixpoint for_each {A B} (l : list A) (body : B → A → outcome B) (acc : B) : outcome B :=
  match l with
  | [] => Returned acc
  | x :: l' => read acc' := body acc x; for_each l' body acc'
  end.

(** A [for] loop that is left with [True] at the first element its body
    accepts, and ends with [False]. *)
Fixpoint for_any {A} (l : list A) (body : A → outcome bool) : outcome bool :=
  match l with
  | [] => Returned false
  | x :: l' => read found := body x; if found then Returned true else for_any l' body
  end.

(** [range(1, 7)] *)
Definition dice_range : list Z := seqZ 1 6.

(** ** [ai_player.py]: the player *)

Inductive AIDifficulty := EASY | MEDIUM | HARD.

(** An [AIPlayer]: [ai_game] says whether [set_game] has attached it to the
    game. *)
Record AIPlayer := mkAI {
  ai_color : PlayerColor;
  ai_difficulty : AIDifficulty;
  ai_game : bool
}.

(** What the random generator yields during one [make_move]: the face of the
    dice, whether [random.random() < 0.7], and the index [random.choice] or
    [random.choices] draws. *)
Record Draw := mkDraw {
  draw_face : Face;
  draw_coin : bool;
  draw_index : nat
}.

Definition _calculate_distance_to_home_stretch (ai : AIPlayer) (g : LudoGame)
    (piece : Piece) (pos : Z) : outcome Z :=
  if negb (ai_game ai) || is_home piece || (pos =? -1) then Returned 0 else
  read player := dict_at (players g) (ai_color ai);
  let start_pos := start_position player in
  if pos >=? start_pos then Returned (board_size - pos + start_pos)
  else Returned (start_pos - pos).

(** The innermost loop of [_is_vulnerable_position] and of
    [_count_threats_to_piece]: can [piece] reach [target] with one roll? *)
Definition reaches (g : LudoGame) (piece : Piece) (target : Z) : outcome bool :=
  for_any dice_range (λ dice,
    read new_pos := _calculate_new_position g piece dice;
    Returned (new_pos =? target)).

Definition _is_vulnerable_position (ai : AIPlayer) (g : LudoGame) (pos : Z) : outcome bool :=
  if negb (ai_game ai) || bool_decide (pos ∈ safe_positions) || (pos =? -1)
  then Returned false else
  for_any (players g) (λ kv,
    if bool_decide (kv.1 = ai_color ai) then Returned false else
    for_any (pieces kv.2) (λ piece,
      if (position piece =? -1) || is_home piece then Returned false else
      reaches g piece pos)).

Definition _is_entering_home_stretch (ai : AIPlayer) (g : LudoGame) (piece : Piece)
    (new_position : Z) : outcome bool :=
  if negb (ai_game ai) then Returned false else
  read player := dict_at (players g) (ai_color ai);
  let home_stretch := home_stretch_positions (ai_color ai) in
  Returned (bool_decide (new_position ∈ home_stretch)
            && (position piece <? home_position player)).

(** The pieces of the players of another colour, in the order the two loops
    of [_check_capture_at_position] visit them. *)
Definition opposing_pieces (ai : AIPlayer) (g : LudoGame) : list Piece :=
  flat_map (λ kv, pieces kv.2) (filter (λ kv, kv.1 ≠ ai_color ai) (players g)).

Definition _check_capture_at_position (ai : AIPlayer) (g : LudoGame) (pos : Z)
  : option Piece :=
  if negb (ai_game ai) || bool_decide (pos ∈ safe_positions) then None else
  find (λ piece, (position piece =? pos) && negb (is_home piece)) (opposing_pieces ai g).

Definition _get_piece_progress (ai : AIPlayer) (g : LudoGame) (piece : Piece)
  : outcome float :=
  if negb (ai_game ai) then Returned float_zero else
  if position piece =? -1 then Returned float_zero else
  if is_home piece then Returned (float_of_int 100) else
  read player := dict_at (players g) (player_color piece);
  let start_pos := start_position player in
  let progress :=
    if position piece >=? start_pos then position piece - start_pos
    else board_size - start_pos + position piece in
  Returned (float_mul (int_truediv progress board_size) (float_of_int 100)).

Definition _calculate_blocking_value (ai : AIPlayer) (g : LudoGame) (pos : Z)
  : outcome float :=
  if negb (ai_game ai) then Returned float_zero else
  for_each (players g) (λ blocking_value kv,
    if bool_decide (kv.1 = ai_color ai) then Returned blocking_value else
    for_each (pieces kv.2) (λ blocking_value piece,
      if (position piece =? -1) || is_home piece then Returned blocking_value else
      let distance_to_position := Z.abs (position piece - pos) `mod` board_size in
      if distance_to_position <=? 6 then
        read piece_progress := _get_piece_progress ai g piece;
        Returned (float_add blocking_value
                    (float_mul (float_div piece_progress (float_of_int 100))
                       (float_of_int (7 - distance_to_position))))
      else Returned blocking_value) blocking_value) float_zero.

Definition _calculate_group_bonus (ai : AIPlayer) (g : LudoGame) (pos : Z)
  : outcome float :=
  if negb (ai_game ai) then Returned float_zero else
  read player := dict_at (players g) (ai_color ai);
  read my_pieces_nearby :=
    for_each (pieces player) (λ my_pieces_nearby piece,
      if (position piece =? -1) || is_home piece then Returned my_pieces_nearby else
      let distance := Z.abs (position piece - pos) `mod` board_size in
      Returned (if distance <=? 3 then my_pieces_nearby + 1 else my_pieces_nearby)) 0;
  Returned (if my_pieces_nearby >? 0 then float_mul (float_of_int my_pieces_nearby) float_half
            else float_zero).

Definition _count_threats_to_piece (ai : AIPlayer) (g : LudoGame) (piece : Piece)
  : outcome Z :=
  if negb (ai_game ai) || bool_decide (position piece ∈ safe_positions)
     || (position piece =? -1) || is_home piece then Returned 0 else
  for_each (players g) (λ threats kv,
    if bool_decide (kv.1 = ai_color ai) then Returned threats else
    for_each (pieces kv.2) (λ threats opponent_piece,
      if (position opponent_piece =? -1) || is_home opponent_piece then Returned threats else
      read hit := reaches g opponent_piece (position piece);
      Returned (if hit then threats + 1 else threats)) threats) 0.

(** The game while [_calculate_capture_prevention] has [piece.position] set
    to [new_position]; the method restores the position before it goes on. *)
Definition simulated (g : LudoGame) (piece : Piece) (new_position : Z) : LudoGame :=
  set_players (alter_piece (set_position new_position) (str_piece piece) (players g)) g.

(** The method writes [piece.position] and restores it around the second
    count of every round of its loop, so that a round ends with the game as
    it began; it is a function of the game for that reason.  (Only a raise
    of the second count would leave the written position in place;
    [capture_prevention_returns] shows that nothing raises in a well-formed
    game.) *)
Definition _calculate_capture_prevention (ai : AIPlayer) (g : LudoGame) (piece : Piece)
    (new_position : Z) : outcome float :=
  if negb (ai_game ai) then Returned float_zero else
  read player := dict_at (players g) (ai_color ai);
  for_each (pieces player) (λ prevention_value my_piece,
    if same_piece my_piece piece || (position my_piece =? -1) || is_home my_piece
    then Returned prevention_value else
    read current_threats := _count_threats_to_piece ai g my_piece;
    read new_threats := _count_threats_to_piece ai (simulated g piece new_position) my_piece;
    Returned (if new_threats <? current_threats
              then float_add prevention_value
                     (float_of_int ((current_threats - new_threats) * 10))
              else prevention_value)) float_zero.

Definition _calculate_home_stretch_timing (ai : AIPlayer) (g : LudoGame) (piece : Piece)
  : outcome float :=
  if negb (ai_game ai) then Returned float_half else
  read player := dict_at (players g) (ai_color ai);
  read pieces_behind :=
    for_each (pieces player) (λ pieces_behind other_piece,
      Returned (if position other_piece =? -1 then pieces_behind + 1 else pieces_behind)) 0;
  Returned (if pieces_behind <=? 1 then float_of_int 1 else float_half).

Definition _calculate_move_score_medium (ai : AIPlayer) (g : LudoGame) (piece : Piece)
    (new_position : Z) : outcome float :=
  if negb (ai_game ai) then Returned float_zero else
  let score := float_zero in
  let score := if position piece =? -1 then float_add score (float_of_int 50) else score in
  read score :=
    (if position piece >=? 0 then
       read player := dict_at (players g) (ai_color ai);
       read distance_to_home :=
         _calculate_distance_to_home_stretch ai g piece new_position;
       Returned (float_add score (float_of_int ((52 - distance_to_home) * 2)))
     else Returned score);
  read vulnerable := _is_vulnerable_position ai g new_position;
  let score := if vulnerable then float_sub score (float_of_int 30) else score in
  read entering := _is_entering_home_stretch ai g piece new_position;
  let score := if entering then float_add score (float_of_int 40) else score in
  let captured_piece := _check_capture_at_position ai g new_position in
  let score := match captured_piece with
               | Some _ => float_add score (float_of_int 25)
               | None => score
               end in
  Returned score.

Definition _calculate_move_score_hard (ai : AIPlayer) (g : LudoGame) (piece : Piece)
    (new_position : Z) : outcome float :=
  if negb (ai_game ai) then Returned float_zero else
  read score := _calculate_move_score_medium ai g piece new_position;
  read blocking_value := _calculate_blocking_value ai g new_position;
  let score := float_add score (float_mul blocking_value (float_of_int 15)) in
  let score := if bool_decide (new_position ∈ safe_positions)
               then float_add score (float_of_int 20) else score in
  read group_bonus := _calculate_group_bonus ai g new_position;
  let score := float_add score (float_mul group_bonus (float_of_int 10)) in
  read prevention_bonus := _calculate_capture_prevention ai g piece new_position;
  let score := float_add score (float_mul prevention_bonus (float_of_int 25)) in
  read entering := _is_entering_home_stretch ai g piece new_position;
  read score :=
    (if entering then
       read timing_bonus := _calculate_home_stretch_timing ai g piece;
       Returned (float_add score (float_mul timing_bonus (float_of_int 20)))
     else Returned score);
  let score :=
    match _check_capture_at_position ai g new_position with
    | Some _ =>
        let safety_multiplier :=
          if bool_decide (new_position ∈ safe_positions) then float_of_int 2
          else float_of_int 1 in
        float_add score (float_mul (float_of_int 30) safety_multiplier)
    | None => score
    end in
  Returned score.

(** The loop of [_medium_move] and [_hard_move] that scores every move. *)
Definition score_moves (score : Piece → Z → outcome float) (valid_moves : list (Piece * Z))
  : outcome (list (Piece * float)) :=
  for_each valid_moves (λ move_scores m,
    read s := score m.1 m.2;
    Returned (move_scores ++ [(m.1, s)])) [].

(** [move_scores.sort(key=lambda x: x[1], reverse=True)]: a stable sort,
    highest score first, moves of equal score in the order they had.  It is
    written as the insertion sort, with which every stable sort agrees when
    the keys are totally ordered. *)
Fixpoint insert_by_score (x : Piece * float) (l : list (Piece * float))
  : list (Piece * float) :=
  match l with
  | [] => [x]
  | y :: l' => if float_lt x.2 y.2 then y :: insert_by_score x l' else x :: l
  end.

Definition sort_by_score (l : list (Piece * float)) : list (Piece * float) :=
  foldr insert_by_score [] l.

(** [random.choices(population, weights=weights)[0]] with the index it
    draws: the weights, all positive here, shape the distribution only. *)
Definition random_choices_first {A} (k : nat) (population : list A) (weights : list Z)
  : outcome A :=
  random_choice k population.

Definition _easy_move (dr : Draw) (valid_moves : list (Piece * Z)) : outcome Piece :=
  let home_moves := filter (λ m, position m.1 = -1) valid_moves in
  if negb (bool_decide (home_moves = [])) && draw_coin dr then
    read m := random_choice (draw_index dr) home_moves; Returned m.1
  else
    read m := random_choice (draw_index dr) valid_moves; Returned m.1.

Definition _medium_move (ai : AIPlayer) (dr : Draw) (g : LudoGame)
    (valid_moves : list (Piece * Z)) : outcome Piece :=
  read move_scores := score_moves (_calculate_move_score_medium ai g) valid_moves;
  let move_scores := sort_by_score move_scores in
  let top_moves := take (Nat.min 3 (length move_scores)) move_scores in
  let weights := take (length top_moves) [3; 2; 1] in
  random_choices_first (draw_index dr) (map fst top_moves) weights.

Definition _hard_move (ai : AIPlayer) (g : LudoGame) (valid_moves : list (Piece * Z))
  : outcome Piece :=
  read move_scores := score_moves (_calculate_move_score_hard ai g) valid_moves;
  let move_scores := sort_by_score move_scores in
  read best := list_at move_scores 0;
  Returned best.1.

Definition _choose_move (ai : AIPlayer) (dr : Draw) (g : LudoGame)
    (valid_moves : list (Piece * Z)) : outcome (option Piece) :=
  match valid_moves with
  | [] => Returned None
  | _ =>
      read chosen :=
        match ai_difficulty ai with
        | EASY => _easy_move dr valid_moves
        | MEDIUM => _medium_move ai dr g valid_moves
        | HARD => _hard_move ai g valid_moves
        end;
      Returned (Some chosen)
  end.

Definition make_move (ai : AIPlayer) (dr : Draw) : M bool :=
  g ← get;
  if negb (ai_game ai) || bool_decide (current_player g ≠ Some (ai_color ai))
  then ret false else
  (if bool_decide (game_state g = GameState.ROLLING_DICE)
   then roll_dice (draw_face dr);; ret tt else ret tt);;
  g ← get;
  if bool_decide (game_state g = GameState.MOVING_PIECE) then
    valid_moves ← query (λ g, get_valid_moves g (ai_color ai));
    match valid_moves with
    | [] => _next_turn;; ret true
    | _ =>
        chosen_piece ← query (λ g, _choose_move ai dr g valid_moves);
        match chosen_piece with
        | Some piece => move_piece (ai_color ai) (piece_id piece)
        | None => ret false
        end
    end
  else ret false.

(** ** [ai_player.py]: the manager *)

(** [AIGameManager.ai_players] *)
Definition add_ai_player (c : PlayerColor) (d : AIDifficulty) (ai_players : dict AIPlayer)
  : dict AIPlayer :=
  dict_set c (mkAI c d true) ai_players.

Definition is_ai_player (c : PlayerColor) (ai_players : dict AIPlayer) : bool :=
  dict_mem c ai_players.

Definition get_ai_difficulty (c : PlayerColor) (ai_players : dict AIPlayer)
  : option AIDifficulty :=
  ai_difficulty <$> dict_get c ai_players.

Definition make_ai_move (ai_players : dict AIPlayer) (dr : Draw) : M bool :=
  g ← get;
  match current_player g with
  | Some c =>
      match dict_get c ai_players with
      | Some ai => make_move ai dr
      | None => ret false
      end
  | None => ret false
  end.

(** The manager's dictionary after [add_ai_player] has been called on a new
    manager for each entry of [regs], in order. *)
Definition registered (regs : list (PlayerColor * AIDifficulty)) : dict AIPlayer :=
  foldl (λ ai_players r, add_ai_player r.1 r.2 ai_players) [] regs.


(** * Verification *)

(** ** The players dictionary *)

Section DictFacts.
Context {V : Type}.
Implicit Types (d : dict V) (k c : PlayerColor) (v : V).

Lemma dict_get_elem d k v : dict_get k d = Some v → (k, v) ∈ d.
Proof.
  induction d as [|[k' v'] d IH]; simpl; [done|].
  destruct (decide (k' = k)) as [->|]; intros H.
  - injection H as ->. left.
  - right. auto.
Qed.

Lemma dict_get_None d k : dict_get k d = None ↔ k ∉ dict_keys d.
Proof.
  unfold dict_keys. induction d as [|[k' v'] d IH]; simpl.
  - split; [intros _; apply not_elem_of_nil | done].
  - rewrite not_elem_of_cons. destruct (decide (k' = k)) as [->|Hne].
    + split; [done | intros [? _]; done].
    + rewrite IH. split; [intros ?; split; [congruence | done] | intros [_ ?]; done].
Qed.

Lemma dict_elem_get d k v : NoDup (dict_keys d) → (k, v) ∈ d → dict_get k d = Some v.
Proof.
  unfold dict_keys. induction d as [|[k' v'] d IH]; simpl; intros Hnd Hin.
  - by apply elem_of_nil in Hin.
  - apply NoDup_cons in Hnd as [Hk Hnd]. apply elem_of_cons in Hin as [[= -> ->]|Hin].
    + by rewrite decide_True.
    + destruct (decide (k' = k)) as [->|]; [|auto].
      destruct Hk. change k with (k, v).1. by apply list_elem_of_fmap_2.
Qed.

Lemma dict_mem_true d k : dict_mem k d = true ↔ ∃ v, dict_get k d = Some v.
Proof. unfold dict_mem. rewrite bool_decide_eq_true. done. Qed.

Lemma dict_mem_false d k : dict_mem k d = false ↔ dict_get k d = None.
Proof. unfold dict_mem. rewrite bool_decide_eq_false, eq_None_not_Some. done. Qed.

Lemma dict_get_set d k c v :
  dict_get k (dict_set c v d) = if decide (c = k) then Some v else dict_get k d.
Proof.
  induction d as [|[k' v'] d IH]; simpl.
  - done.
  - destruct (decide (k' = c)) as [->|Hne]; simpl.
    + destruct (decide (c = k)); done.
    + rewrite IH. destruct (decide (k' = k)) as [->|]; [|done].
      by rewrite decide_False.
Qed.

Lemma dict_keys_set_old d c v v' :
  dict_get c d = Some v' → dict_keys (dict_set c v d) = dict_keys d.
Proof.
  unfold dict_keys. induction d as [|[k' w] d IH]; simpl; [done|].
  destruct (decide (k' = c)); simpl; [done|]. intros H. by rewrite IH.
Qed.

Lemma dict_set_new d c v : dict_get c d = None → dict_set c v d = d ++ [(c, v)].
Proof.
  induction d as [|[k' w] d IH]; simpl; [done|].
  destruct (decide (k' = c)); [done|]. intros H. by rewrite IH.
Qed.

Lemma dict_get_del d k c :
  dict_get k (dict_del c d) = if decide (c = k) then None else dict_get k d.
Proof.
  unfold dict_del. induction d as [|[k' w] d IH].
  - simpl. by destruct (decide (c = k)).
  - rewrite filter_cons. cbn [fst dict_get]. destruct (decide (k' ≠ c)) as [Hne|Heq].
    + cbn [dict_get]. rewrite IH. destruct (decide (k' = k)) as [->|]; [|done].
      by rewrite decide_False.
    + apply dec_stable in Heq as ->. rewrite IH. by destruct (decide (c = k)).
Qed.

Lemma dict_del_absent d c : dict_get c d = None → dict_del c d = d.
Proof.
  unfold dict_del. induction d as [|[k' w] d IH]; [done|]. cbn [dict_get].
  destruct (decide (k' = c)); [done|]. intros H.
  rewrite filter_cons, decide_True by done. by rewrite IH.
Qed.

Lemma dict_keys_del d c : dict_keys (dict_del c d) = filter (λ k, k ≠ c) (dict_keys d).
Proof.
  unfold dict_del, dict_keys. induction d as [|[k' w] d IH]; [done|].
  cbn [map fst]. rewrite !filter_cons. cbn [fst].
  destruct (decide (k' ≠ c)); cbn [map fst]; by rewrite IH.
Qed.

Lemma dict_keys_length d : length (dict_keys d) = length d.
Proof. unfold dict_keys. apply length_map. Qed.
End DictFacts.

Lemma color_cases (c : PlayerColor) : c ∈ [RED; GREEN; YELLOW; BLUE].
Proof. destruct c; repeat constructor. Qed.

Lemma NoDup_colors_length (l : list PlayerColor) : NoDup l → (length l ≤ 4)%nat.
Proof.
  intros Hnd. change 4%nat with (length [RED; GREEN; YELLOW; BLUE]).
  apply submseteq_length, NoDup_submseteq; [done|]. intros c _. apply color_cases.
Qed.

Lemma dict_get_alter_player f c k (d : dict Player) :
  dict_get k (alter_player f c d) = if decide (c = k) then f <$> dict_get k d else dict_get k d.
Proof.
  unfold alter_player. destruct (dict_get c d) as [p|] eqn:E.
  - rewrite dict_get_set. destruct (decide (c = k)) as [<-|]; [by rewrite E | done].
  - destruct (decide (c = k)) as [<-|]; [by rewrite E | done].
Qed.

Lemma dict_keys_alter_player f c (d : dict Player) :
  dict_keys (alter_player f c d) = dict_keys d.
Proof.
  unfold alter_player. destruct (dict_get c d) as [p|] eqn:E; [|done].
  by eapply dict_keys_set_old.
Qed.

(** ** The monad *)

Lemma bind_Returned_inv {A B} (m : M A) (f : A → M B) g b g' ev :
  bind m f g = (Returned b, g', ev) →
  ∃ a g1 ev1 ev2,
    m g = (Returned a, g1, ev1) ∧ f a g1 = (Returned b, g', ev2) ∧ ev = ev1 ++ ev2.
Proof.
  unfold bind. destruct (m g) as [[[a|e|] g1] ev1]; [|done..].
  destruct (f a g1) as [[o g2] ev2] eqn:E. intros [= -> -> <-]. eauto 10.
Qed.

Lemma bind_run {A B} (m : M A) (f : A → M B) g a g1 ev1 o g2 ev2 :
  m g = (Returned a, g1, ev1) → f a g1 = (o, g2, ev2) →
  bind m f g = (o, g2, ev1 ++ ev2).
Proof. unfold bind. by intros -> ->. Qed.

Lemma bind_query {A B} (q : LudoGame → outcome A) (f : A → M B) g a :
  q g = Returned a → bind (query q) f g = f a g.
Proof. unfold bind, query. intros ->. by destruct (f a g) as [[??]?]. Qed.

Lemma bind_query_raised {A B} (q : LudoGame → outcome A) (f : A → M B) g e :
  q g = Raised e → bind (query q) f g = (Raised e, g, []).
Proof. unfold bind, query. by intros ->. Qed.

Lemma bind_get {B} (f : LudoGame → M B) g : bind get f g = f g g.
Proof. unfold bind, get. by destruct (f g g) as [[??]?]. Qed.

Lemma bind_modify {B} (h : LudoGame → LudoGame) (f : unit → M B) g :
  bind (modify h) f g = f tt (h g).
Proof. unfold bind, modify. by destruct (f tt (h g)) as [[??]?]. Qed.

(** ** remove_player *)

Lemma remove_player_run c g :
  remove_player c g
  = if dict_mem c (players g)
    then (Returned true, set_players (dict_del c (players g)) g, [])
    else (Returned false, g, []).
Proof.
  unfold remove_player. rewrite bind_get.
  destruct (dict_mem c (players g)); cbn [negb]; [by rewrite bind_modify | done].
Qed.

(** C10: in every game, whatever its phase, [remove_player c] returns
    whether [c] was a player, deletes exactly that player, and leaves the
    phase, the current player and the dice value as they were; it emits
    nothing and consults no phase. *)
Theorem remove_player_ignores_phase (g : LudoGame) (c : PlayerColor) :
  ∃ g',
    remove_player c g = (Returned (dict_mem c (players g)), g', [])
    ∧ players g' = dict_del c (players g)
    ∧ dict_mem c (players g') = false
    ∧ (∀ k, k ≠ c → dict_get k (players g') = dict_get k (players g))
    ∧ game_state g' = game_state g
    ∧ current_player g' = current_player g
    ∧ dice_value g' = dice_value g
    ∧ (dict_mem c (players g) = false → g' = g)
    ∧ ∀ s, (remove_player c (set_game_state s g)).1.1 = (remove_player c g).1.1.
Proof.
  exists (set_players (dict_del c (players g)) g).
  assert (Hdel : dict_mem c (dict_del c (players g)) = false).
  { apply dict_mem_false. rewrite dict_get_del. by rewrite decide_True. }
  assert (Hother : ∀ k, k ≠ c →
            dict_get k (dict_del c (players g)) = dict_get k (players g)).
  { intros k Hk. rewrite dict_get_del. by rewrite decide_False. }
  unfold remove_player. rewrite bind_get.
  split_and!; try done.
  - destruct (dict_mem c (players g)) eqn:E; cbn [negb].
    + by rewrite bind_modify.
    + apply dict_mem_false in E. rewrite (dict_del_absent _ _ E). by destruct g.
  - intros E. apply dict_mem_false in E. rewrite (dict_del_absent _ _ E). by destruct g.
  - intros s. rewrite !bind_get. cbn [players set_game_state].
    destruct (dict_mem c (players g)); cbn [negb]; [by rewrite !bind_modify | done].
Qed.

(** ** move_piece: rejected attempts *)

Lemma end_game_run c g :
  _end_game c g
  = (Returned tt, set_game_state GameState.GAME_OVER g,
     [mkEvent EventType.GAME_OVER (data_winner c) (Some c)]).
Proof. done. Qed.

Lemma bind_not_false {A} (m : M A) (f : A → M bool) g g' ev :
  (∀ a g1 g2 ev2, f a g1 ≠ (Returned false, g2, ev2)) →
  bind m f g ≠ (Returned false, g', ev).
Proof.
  intros Hf H. apply bind_Returned_inv in H as (a & g1 & ev1 & ev2 & _ & H & _).
  by eapply Hf.
Qed.

Lemma execute_move_not_false pc id piece n g g' ev :
  execute_move pc id piece n g ≠ (Returned false, g', ev).
Proof.
  unfold execute_move.
  repeat (apply bind_not_false; intros).
  match goal with |- context [has_won ?p] => destruct (has_won p) end;
    repeat (apply bind_not_false; intros); done.
Qed.

Lemma move_piece_wrong_turn g pc id :
  current_player g ≠ Some pc ∨ game_state g ≠ GameState.MOVING_PIECE →
  move_piece pc id g = (Returned false, g, []).
Proof.
  intros H. unfold move_piece. rewrite bind_get.
  destruct H as [H|H]; [rewrite (bool_decide_eq_true_2 _ H) | ].
  - done.
  - rewrite (bool_decide_eq_true_2 (game_state g ≠ _) H), orb_true_r. done.
Qed.

Lemma move_piece_guarded g pc id :
  current_player g = Some pc → game_state g = GameState.MOVING_PIECE →
  move_piece pc id g
  = bind (query (λ g, dict_at (players g) pc))
      (λ player,
         if (id <? 0) || (id >=? 4) then ret false else
         piece ← query (λ _, list_at (pieces player) id);
         new_position ← query (λ g, _calculate_new_position g piece (dice_value g));
         valid ← query (λ g, _is_valid_move g piece new_position);
         if negb valid then
           add_event EventType.INVALID_MOVE (data_invalid id (dice_value g)) (Some pc);;
           ret false
         else execute_move pc id piece new_position) g.
Proof.
  intros H1 H2. unfold move_piece. rewrite bind_get.
  rewrite bool_decide_eq_false_2, bool_decide_eq_false_2; [done|..]; intros H; by apply H.
Qed.

Lemma move_piece_out_of_range g pc id player :
  current_player g = Some pc → game_state g = GameState.MOVING_PIECE →
  dict_get pc (players g) = Some player → id < 0 ∨ 4 ≤ id →
  move_piece pc id g = (Returned false, g, []).
Proof.
  intros H1 H2 Hp Hid. rewrite move_piece_guarded by done.
  rewrite (bind_query _ _ _ player) by (unfold dict_at; by rewrite Hp).
  destruct ((id <? 0) || (id >=? 4)) eqn:E; [done|]. lia.
Qed.

Lemma move_piece_valid_cases g pc id player piece n valid :
  current_player g = Some pc → game_state g = GameState.MOVING_PIECE →
  dict_get pc (players g) = Some player → 0 ≤ id < 4 →
  pieces player !! Z.to_nat id = Some piece →
  _calculate_new_position g piece (dice_value g) = Returned n →
  _is_valid_move g piece n = Returned valid →
  move_piece pc id g
  = if valid then execute_move pc id piece n g
    else (Returned false, g, [invalid_move_event g pc id]).
Proof.
  intros H1 H2 Hp Hid Hpiece Hn Hv. rewrite move_piece_guarded by done.
  rewrite (bind_query _ _ _ player) by (unfold dict_at; by rewrite Hp).
  destruct ((id <? 0) || (id >=? 4)) eqn:E; [lia|].
  rewrite (bind_query _ _ _ piece) by (unfold list_at; by rewrite Hpiece).
  rewrite (bind_query _ _ _ n) by done.
  rewrite (bind_query _ _ _ valid) by done.
  by destruct valid.
Qed.

Lemma move_piece_false_inv g pc id g' ev :
  move_piece pc id g = (Returned false, g', ev) →
  g' = g
  ∧ (ev = []
     ∨ ev = [invalid_move_event g pc id]
       ∧ current_player g = Some pc ∧ game_state g = GameState.MOVING_PIECE
       ∧ ∃ player piece n,
           dict_get pc (players g) = Some player ∧ 0 ≤ id < 4
           ∧ pieces player !! Z.to_nat id = Some piece
           ∧ _calculate_new_position g piece (dice_value g) = Returned n
           ∧ _is_valid_move g piece n = Returned false).
Proof.
  intros H.
  destruct (decide (current_player g = Some pc)) as [H1|H1];
    [|rewrite move_piece_wrong_turn in H by auto; injection H as <- <-; auto].
  destruct (decide (game_state g = GameState.MOVING_PIECE)) as [H2|H2];
    [|rewrite move_piece_wrong_turn in H by auto; injection H as <- <-; auto].
  destruct (dict_get pc (players g)) as [player|] eqn:Hp; cycle 1.
  { rewrite move_piece_guarded in H by done.
    rewrite (bind_query_raised _ _ _ KeyError) in H; [done|]. unfold dict_at. by rewrite Hp. }
  destruct (decide (0 ≤ id < 4)) as [Hid|Hid];
    [|rewrite (move_piece_out_of_range _ _ _ player) in H by (done || lia);
      injection H as <- <-; auto].
  rewrite move_piece_guarded in H by done.
  rewrite (bind_query _ _ _ player) in H by (unfold dict_at; by rewrite Hp).
  destruct ((id <? 0) || (id >=? 4)) eqn:E; [lia|].
  destruct (pieces player !! Z.to_nat id) as [piece|] eqn:Hpiece; cycle 1.
  { rewrite (bind_query_raised _ _ _ IndexError) in H; [done|]. unfold list_at. by rewrite Hpiece. }
  rewrite (bind_query _ _ _ piece) in H by (unfold list_at; by rewrite Hpiece).
  destruct (_calculate_new_position g piece (dice_value g)) as [n|e|] eqn:Hn;
    [|unfold bind, query in H; by rewrite Hn in H..].
  rewrite (bind_query _ _ _ n) in H by done.
  destruct (_is_valid_move g piece n) as [valid|e|] eqn:Hv;
    [|unfold bind, query in H; by rewrite Hv in H..].
  rewrite (bind_query _ _ _ valid) in H by done.
  destruct valid; simpl in H.
  - by apply execute_move_not_false in H.
  - injection H as <- <-. split; [done|]. right. eauto 15.
Qed.



(** ** Destination computation *)

Lemma should_enter_home_stretch_eq g piece player new_position :
  dict_get (player_color piece) (players g) = Some player →
  _should_enter_home_stretch g piece new_position
  = Returned (negb (new_position <? board_size)
              && negb ((position piece <? start_position player)
                       && (new_position >=? start_position player))).
Proof.
  intros Hp. unfold _should_enter_home_stretch, dict_at. rewrite Hp. simpl.
  destruct (new_position <? board_size); [done|].
  by destruct ((position piece <? start_position player)
               && (new_position >=? start_position player)).
Qed.

Lemma calculate_new_position_track g piece player dice :
  dict_get (player_color piece) (players g) = Some player →
  is_home piece = false → position piece ≠ -1 →
  _calculate_new_position g piece dice
  = Returned
      (let new_pos := position piece + dice in
       if new_pos <? board_size then new_pos
       else if (position piece <? start_position player)
               && (new_pos >=? start_position player)
            then new_pos - board_size
            else home_position player + (new_pos - board_size)).
Proof.
  intros Hp Hh Hb. unfold _calculate_new_position. rewrite Hh.
  destruct (position piece =? -1) eqn:E; [lia|].
  rewrite (should_enter_home_stretch_eq _ _ player) by done. cbn [obind].
  unfold dict_at. rewrite Hp. cbn zeta.
  destruct (position piece + dice <? board_size) eqn:E1; cbn [negb andb].
  - destruct (position piece + dice >=? board_size) eqn:E2; [lia | done].
  - destruct ((position piece <? start_position player)
              && (position piece + dice >=? start_position player)); cbn [negb obind].
    + destruct (position piece + dice >=? board_size) eqn:E2; [done | lia].
    + done.
Qed.

(** C5: for a piece on the track, [_calculate_new_position] adds the dice
    value; below the track length the sum is the destination; from the track
    length on, the piece enters its colour's home stretch at
    [home_position + (sum - 52)] unless it stood before its start cell (the
    source's test for a completed circle), in which case the destination
    wraps to [(position + dice) mod 52].  In particular RED's piece at 49
    with dice 1 goes to 50, the first cell of RED's home stretch, and not to
    [1 mod 52]. *)
Theorem calculate_new_position_wraps_or_enters :
  (∀ g piece player dice,
     dict_get (player_color piece) (players g) = Some player →
     is_home piece = false → 0 ≤ position piece → 0 ≤ dice →
     position piece + dice < 2 * board_size →
     let new_pos := position piece + dice in
     let lapped := (position piece <? start_position player)
                   && (new_pos >=? start_position player) in
     _calculate_new_position g piece dice
     = Returned (if negb (new_pos <? board_size) && negb lapped
                 then home_position player + (new_pos - board_size)
                 else new_pos `mod` board_size))
  ∧ (let g := final four_players in
     let piece := piece_on_track RED 0 49 in
     _calculate_new_position g piece 1 = Returned 50
     ∧ head (home_stretch_positions RED) = Some 50
     ∧ 50 ≠ 1 `mod` board_size).
Proof.
  split.
  - intros g piece player dice Hp Hh Hpos Hd Hlt new_pos lapped.
    rewrite (calculate_new_position_track _ _ player) by (done || lia).
    subst new_pos lapped. cbn zeta. unfold board_size in *. f_equal.
    destruct (position piece + dice <? 52) eqn:E; cbn [negb andb].
    + apply Z.ltb_lt in E. symmetry. apply Z.mod_small. lia.
    + apply Z.ltb_ge in E.
      destruct ((position piece <? start_position player)
                && (position piece + dice >=? start_position player));
        cbn [negb]; [|done].
      rewrite <- (Z.mod_add (position piece + dice) (-1) 52) by done.
      symmetry. apply Z.mod_small. lia.
  - vm_compute. repeat split. discriminate.
Qed.

(** ** The start-of-game scenario *)

(** C3 (as amended): once the four colours have joined, in any order, and
    RED's first roll is a 6, [get_valid_moves RED] lists all four of RED's
    pieces, in index order 0..3, each with RED's start cell 0 as its
    destination. *)
Theorem first_six_frees_every_piece (cs : list PlayerColor) :
  NoDup cs → length cs = 4%nat →
  let g := final (map call_add_player cs ++ [call_roll_dice F6]) in
  current_player g = Some RED
  ∧ game_state g = GameState.MOVING_PIECE
  ∧ get_valid_moves g RED
    = Returned [(new_piece RED 0, 0); (new_piece RED 1, 0);
                (new_piece RED 2, 0); (new_piece RED 3, 0)].
Proof.
  intros Hnd Hlen.
  destruct cs as [|c1 [|c2 [|c3 [|c4 [|]]]]]; try discriminate Hlen.
  apply (bool_decide_eq_true_2 _) in Hnd.
  destruct c1, c2, c3, c4; vm_compute in Hnd; try discriminate Hnd;
    vm_compute; repeat split.
Qed.

Lemma first_six_frees_every_piece_witness :
  let g := final (four_players ++ [call_roll_dice F6]) in
  current_player g = Some RED
  ∧ game_state g = GameState.MOVING_PIECE
  ∧ get_valid_moves g RED
    = Returned [(new_piece RED 0, 0); (new_piece RED 1, 0);
                (new_piece RED 2, 0); (new_piece RED 3, 0)].
Proof.
  apply (first_six_frees_every_piece [RED; GREEN; YELLOW; BLUE]).
  - by apply (bool_decide_unpack _).
  - reflexivity.
Defined.

(** C3 (as stated) fails: in that scenario [get_valid_moves RED] has four
    entries, not one. *)
Lemma first_six_offers_four_moves :
  ∃ moves,
    get_valid_moves (final (four_players ++ [call_roll_dice F6])) RED = Returned moves
    ∧ length moves = 4%nat
    ∧ moves ≠ [(new_piece RED 0, 0)].
Proof. eexists. split; [vm_compute; reflexivity|]. split; [reflexivity | discriminate]. Qed.

(** ** _next_turn *)

Ltac eval_closed :=
  repeat match goal with
    | |- context [(?a + 1) `mod` 4] =>
        let v := eval vm_compute in ((a + 1) `mod` 4) in
        change ((a + 1) `mod` 4) with v
    | |- context [bool_decide (?a ≠ ?b)] =>
        let v := eval vm_compute in (bool_decide (a ≠ b)) in
        change (bool_decide (a ≠ b)) with v
    | |- context [list_at player_order ?k] =>
        let v := eval vm_compute in (list_at player_order k) in
        change (list_at player_order k) with v
    end.

(** The loop of [_next_turn] ends within the four iterations its model is
    given, at an index of [player_order]. *)
Lemma skip_winners_returns g cur :
  ∃ next,
    obind (skip_winners 4 g (player_order_index cur)
             ((player_order_index cur + 1) `mod` 4))
      (list_at player_order) = Returned next.
Proof.
  destruct cur; cbn [player_order_index];
    repeat (cbn [skip_winners obind]; eval_closed; cbn [skip_winners obind];
            try match goal with
              | |- context [dict_get ?c (players g)] =>
                  destruct (dict_get c (players g)) as [?p|]
              end;
            try match goal with
              | |- context [has_won ?p] => destruct (has_won p); cbn [negb]
              end);
    eexists; reflexivity.
Qed.

Lemma next_turn_run g cur :
  current_player g = Some cur →
  ∃ next,
    _next_turn g
    = (Returned tt,
       set_game_state GameState.ROLLING_DICE (set_current_player (Some next) g),
       [turn_event next]).
Proof.
  intros Hcur. unfold _next_turn. rewrite bind_get, Hcur.
  destruct (skip_winners_returns g cur) as [next Hnext]. exists next.
  destruct (skip_winners 4 g _ _) as [k| |] eqn:E; try discriminate Hnext.
  cbn [obind] in Hnext.
  rewrite (bind_query _ _ _ k) by done.
  rewrite (bind_query _ _ _ next) by done.
  reflexivity.
Qed.

Lemma next_turn_none g : current_player g = None → _next_turn g = (Returned tt, g, []).
Proof. intros H. unfold _next_turn. by rewrite bind_get, H. Qed.

(** ** execute_move, symbolically *)

Lemma is_in_final_home_eq g piece player :
  dict_get (player_color piece) (players g) = Some player →
  _is_in_final_home g piece
  = Returned (negb (position piece <? home_position player)
              && bool_decide (position piece ∈ home_stretch_positions (player_color piece))).
Proof.
  intros Hp. unfold _is_in_final_home, dict_at. rewrite Hp. cbn [obind].
  by destruct (position piece <? home_position player).
Qed.

Lemma dict_get_alter_piece f r k (d : dict Player) :
  dict_get k (alter_piece f r d)
  = if decide (r.1 = k)
    then (λ p, set_pieces (alter f (Z.to_nat r.2) (pieces p)) p) <$> dict_get k d
    else dict_get k d.
Proof. unfold alter_piece. apply dict_get_alter_player. Qed.

Ltac run_execute_move_prefix Hfinal Hcap Hp4 :=
  unfold execute_move;
  eapply bind_run; [reflexivity|]; cbv beta;
  eapply bind_run; [unfold query; rewrite Hfinal; reflexivity|]; cbv beta;
  eapply bind_run;
  [ lazymatch goal with
    | |- (if ?home then _ else _) ?g1 = _ =>
        lazymatch type of Hcap with
        | _ = _check_capture (set_players (landed ?pc ?id ?n _ ?d) ?g) _ _ =>
            instantiate (1 := home_events pc id home);
            instantiate (1 := set_players (landed pc id n home d) g);
            instantiate (1 := tt);
            unfold landed; destruct home; reflexivity
        end
    end | ]; cbv beta;
  eapply bind_run; [reflexivity|]; cbv beta;
  lazymatch type of Hcap with
  | ?captured = _check_capture (set_players (landed ?pc ?id ?n ?home ?d) ?g) ?piece2 _ =>
      change (if home then set_is_home true (set_position n _) else set_position n _)
        with piece2;
      rewrite <- Hcap;
      eapply bind_run;
      [ instantiate (1 := capture_events pc piece2 captured);
        instantiate (1 := set_players (captured_players captured (landed pc id n home d)) g);
        instantiate (1 := tt);
        destruct captured; reflexivity | ]
  end; cbv beta;
  eapply bind_run; [reflexivity|]; cbv beta;
  eapply bind_run; [reflexivity|]; cbv beta;
  eapply bind_run; [reflexivity|]; cbv beta;
  eapply bind_run; [unfold query, dict_at; cbn [players set_players update_piece modify];
                    lazymatch type of Hp4 with
                    | dict_get ?pc ?d4 = _ =>
                        change (dict_get pc _) with (dict_get pc d4); rewrite Hp4
                    end; reflexivity|];
  cbv beta.

Ltac finish_run :=
  cbn [app]; unfold moved_event, set_game_state, set_current_player, set_players;
  cbn [players current_player game_state dice_value]; reflexivity.

Lemma execute_move_run pc id piece n g player :
  current_player g = Some pc →
  dict_get pc (players g) = Some player →
  player_color piece = pc →
  ∃ player4 gfinal evturn,
    let home := negb (n <? home_position player)
                && bool_decide (n ∈ home_stretch_positions pc) in
    let d2 := landed pc id n home (players g) in
    let piece2 := landed_piece n home piece in
    let captured := _check_capture (set_players d2 g) piece2 n in
    let d4 := settled pc id n (captured_players captured d2) in
    dict_get pc d4 = Some player4
    ∧ execute_move pc id piece n g
      = (Returned true, gfinal,
         home_events pc id home ++ capture_events pc piece2 captured
         ++ [moved_event g pc id (position piece) n] ++ evturn)
    ∧ players gfinal = d4
    ∧ dice_value gfinal = dice_value g
    ∧ (if has_won player4
       then game_state gfinal = GameState.GAME_OVER
            ∧ current_player gfinal = Some pc ∧ evturn = [game_over_event pc]
       else game_state gfinal = GameState.ROLLING_DICE
            ∧ ∃ next, current_player gfinal = Some next ∧ evturn = [turn_event next]).
Proof.
  intros Hcur Hp Hpc. cbv zeta.
  remember (negb (n <? home_position player)
            && bool_decide (n ∈ home_stretch_positions pc)) as home eqn:Hhome.
  remember (_check_capture (set_players (landed pc id n home (players g)) g)
              (landed_piece n home piece) n) as captured eqn:Hcap.
  set (d4 := settled pc id n (captured_players captured (landed pc id n home (players g)))).
  assert (Hp4 : ∃ player4, dict_get pc d4 = Some player4).
  { subst d4. unfold settled, captured_players, landed.
    destruct captured, home;
      repeat (rewrite ?dict_get_alter_piece, ?dict_get_alter_player; cbn [fst]);
      repeat case_decide; rewrite ?Hp; cbn [fmap option_fmap option_map]; eauto. }
  destruct Hp4 as [player4 Hp4]. exists player4.
  assert (Hfinal : _is_in_final_home
            (set_players (alter_piece (set_position n) (pc, id) (players g)) g)
            (set_position n piece) = Returned home).
  { erewrite is_in_final_home_eq; cycle 1.
    - cbn [players set_players player_color set_position]. rewrite Hpc.
      rewrite dict_get_alter_piece. cbn [fst]. rewrite decide_True by done.
      rewrite Hp. reflexivity.
    - cbn [position set_position home_position set_pieces player_color]. by rewrite Hpc, Hhome. }
  destruct (next_turn_run (set_players d4 g) pc Hcur) as [next Hnext].
  destruct (has_won player4) eqn:Hwon.
  - eassert (Hrun : execute_move pc id piece n g = (Returned true, _, _)).
    { run_execute_move_prefix Hfinal Hcap Hp4. rewrite Hwon.
      eapply bind_run; [apply end_game_run | reflexivity]. }
    rewrite Hrun. clear Hrun.
    exists (set_game_state GameState.GAME_OVER (set_players d4 g)), [game_over_event pc].
    split_and!; [done | finish_run | reflexivity | reflexivity
                | reflexivity | exact Hcur | reflexivity].
  - eassert (Hrun : execute_move pc id piece n g = (Returned true, _, _)).
    { run_execute_move_prefix Hfinal Hcap Hp4. rewrite Hwon.
      eapply bind_run; [|reflexivity].
      match goal with
      | |- _next_turn ?G = _ => change G with (set_players d4 g)
      end.
      apply Hnext. }
    rewrite Hrun. clear Hrun.
    exists (set_game_state GameState.ROLLING_DICE
              (set_current_player (Some next) (set_players d4 g))), [turn_event next].
    split_and!; [done | finish_run | reflexivity | reflexivity | reflexivity | ].
    by exists next.
Qed.

(** ** Well-formedness: pieces and players *)

Lemma in_home_stretch c n :
  n ∈ home_stretch_positions c ↔ _get_home_position c ≤ n < _get_home_position c + 6.
Proof. destruct c; cbn [home_stretch_positions _get_home_position]; apply elem_of_seqZ. Qed.

Lemma count_home_nonneg ps : 0 ≤ count_home ps ≤ Z.of_nat (length ps).
Proof.
  unfold count_home. split; [lia|]. apply inj_le, length_filter.
Qed.

Lemma count_home_cons x ps :
  count_home (x :: ps) = (if is_home x then 1 else 0) + count_home ps.
Proof.
  unfold count_home. rewrite filter_cons.
  destruct (is_home x) eqn:E.
  - rewrite decide_True by done. cbn [length]. lia.
  - rewrite decide_False by (by intros ?). lia.
Qed.

Lemma count_home_alter f i ps x :
  ps !! i = Some x →
  count_home (alter f i ps)
  = count_home ps - (if is_home x then 1 else 0) + (if is_home (f x) then 1 else 0).
Proof.
  revert i. induction ps as [|y ps IH]; intros [|i] Hi; try done.
  - injection Hi as ->. cbn [alter list_alter]. rewrite !count_home_cons. lia.
  - cbn [alter list_alter]. rewrite !count_home_cons.
    change (list_alter f i ps) with (alter f i ps). rewrite (IH i Hi). lia.
Qed.

Lemma count_home_reset ps : count_home (map piece_reset ps) = 0.
Proof.
  induction ps as [|x ps IH]; [done|]. cbn [map]. by rewrite count_home_cons, IH.
Qed.

Lemma has_won_count p : has_won p = true ↔ count_home (pieces p) = 4.
Proof.
  unfold has_won, get_pieces_in_final_home, count_home.
  rewrite bool_decide_eq_true. lia.
Qed.

Lemma new_player_ok c : player_ok c (new_player c).
Proof.
  unfold player_ok, new_player. cbn [color start_position home_position pieces home_count].
  split_and!; try done.
  intros i piece H.
  destruct i as [|[|[|[|i]]]]; cbn in H; try done; injection H as <-;
    unfold piece_ok, new_piece, board_size; cbn; split_and!; done || lia.
Qed.

Lemma piece_reset_ok c i piece : piece_ok c i piece → piece_ok c i (piece_reset piece).
Proof.
  unfold piece_ok, piece_reset, board_size. cbn. intros (? & ? & _). split_and!; done || lia.
Qed.

Lemma reset_player_ok c p : player_ok c p → player_ok c (reset_player p).
Proof.
  unfold player_ok, reset_player. cbn [color start_position home_position pieces home_count
    set_home_count set_pieces].
  intros (Hc1 & Hc2 & Hc3 & Hlen & Hps & _). split_and!; try done.
  - by rewrite length_map.
  - intros i piece H. change (map piece_reset (pieces p)) with (piece_reset <$> pieces p) in H.
    rewrite list_lookup_fmap in H. destruct (pieces p !! i) as [q|] eqn:E; [|done].
    injection H as <-. apply piece_reset_ok. by apply Hps.
  - by rewrite count_home_reset.
Qed.

(** Resetting a piece that is not home keeps its player well formed. *)
Lemma capture_player_ok c p j cp :
  player_ok c p → pieces p !! j = Some cp → is_home cp = false →
  player_ok c (set_pieces (alter piece_reset j (pieces p)) p).
Proof.
  unfold player_ok. cbn [color start_position home_position pieces home_count set_pieces].
  intros (Hc1 & Hc2 & Hc3 & Hlen & Hps & Hcount) Hj Hh. split_and!; try done.
  - by rewrite length_alter.
  - intros i piece H. rewrite list_lookup_alter in H. case_decide as Hij.
    + subst i. rewrite Hj in H. injection H as <-. apply piece_reset_ok. by apply Hps.
    + by apply Hps.
  - rewrite (count_home_alter _ _ _ cp) by done. rewrite Hh. cbn. lia.
Qed.

Lemma moved_player_ok c p i n (home : bool) piece :
  player_ok c p → pieces p !! i = Some piece → is_home piece = false →
  (if home then n ∈ home_stretch_positions c else -1 ≤ n < board_size) →
  player_ok c (moved_player i n home p).
Proof.
  unfold player_ok, moved_player.
  cbn [color start_position home_position pieces home_count].
  intros (Hc1 & Hc2 & Hc3 & Hlen & Hps & Hcount) Hi Hh Hn. split_and!; try done.
  - by rewrite length_alter.
  - intros j q H. rewrite list_lookup_alter in H. case_decide as Hij; [|by apply Hps].
    subst j. rewrite Hi in H. injection H as <-.
    destruct (Hps _ _ Hi) as (Hc & Hid & _).
    unfold piece_ok, moved_piece, landed_piece.
    destruct home; cbn; rewrite ?Hh; split_and!; done || lia.
  - rewrite (count_home_alter _ _ _ piece) by done. rewrite Hh, Hcount.
    unfold moved_piece, landed_piece. destruct home; cbn; rewrite ?Hh; lia.
Qed.

(** ** Well-formedness: the players after a move *)

Lemma dict_keys_alter_piece f r (d : dict Player) :
  dict_keys (alter_piece f r d) = dict_keys d.
Proof. unfold alter_piece. apply dict_keys_alter_player. Qed.

Lemma dict_keys_settled pc id n home captured (d : dict Player) :
  dict_keys (settled pc id n (captured_players captured (landed pc id n home d)))
  = dict_keys d.
Proof.
  unfold settled, captured_players, landed.
  destruct captured, home;
    by rewrite ?dict_keys_alter_piece, ?dict_keys_alter_player, ?dict_keys_alter_piece.
Qed.

Lemma dict_get_landed_mover pc id n home (d : dict Player) player :
  dict_get pc d = Some player →
  dict_get pc (landed pc id n home d)
  = Some (mkPlayer (color player)
            (alter (landed_piece n home) (Z.to_nat id) (pieces player))
            (if home then home_count player + 1 else home_count player)
            (start_position player) (home_position player)).
Proof.
  intros Hp. unfold landed. destruct home.
  - rewrite dict_get_alter_player, decide_True by done.
    rewrite !dict_get_alter_piece. cbn [fst snd]. rewrite !decide_True by done.
    rewrite Hp. cbn. unfold set_home_count, set_pieces. cbn. do 2 f_equal.
    rewrite list_alter_alter_eq. reflexivity.
  - rewrite dict_get_alter_piece. cbn [fst snd]. rewrite decide_True by done.
    rewrite Hp. reflexivity.
Qed.

Lemma dict_get_landed_other pc id n home (d : dict Player) k :
  k ≠ pc → dict_get k (landed pc id n home d) = dict_get k d.
Proof.
  intros Hk. unfold landed. destruct home;
    rewrite ?dict_get_alter_player, ?dict_get_alter_piece; cbn [fst];
    rewrite ?decide_False by done;
    rewrite ?dict_get_alter_player, ?dict_get_alter_piece; cbn [fst];
    by rewrite ?decide_False by done.
Qed.

Lemma dict_get_settled_mover pc id n home captured (d : dict Player) player :
  dict_get pc d = Some player →
  (∀ cp, captured = Some cp → player_color cp ≠ pc) →
  dict_get pc (settled pc id n (captured_players captured (landed pc id n home d)))
  = Some (moved_player (Z.to_nat id) n home player).
Proof.
  intros Hp Hcap. unfold settled. rewrite dict_get_alter_piece. cbn [fst snd].
  rewrite decide_True by done.
  assert (dict_get pc (captured_players captured (landed pc id n home d))
          = dict_get pc (landed pc id n home d)) as ->.
  { unfold captured_players. destruct captured as [cp|]; [|done].
    rewrite dict_get_alter_piece. cbn [fst str_piece].
    rewrite decide_False; [done|]. by apply Hcap. }
  rewrite (dict_get_landed_mover _ _ _ _ _ player) by done. cbn.
  unfold moved_player, set_pieces. cbn. do 2 f_equal.
  rewrite list_alter_alter_eq. reflexivity.
Qed.

Lemma dict_get_settled_other pc id n home captured (d : dict Player) k :
  k ≠ pc →
  dict_get k (settled pc id n (captured_players captured (landed pc id n home d)))
  = match captured with
    | Some cp =>
        if decide (player_color cp = k)
        then (λ p, set_pieces (alter piece_reset (Z.to_nat (piece_id cp)) (pieces p)) p)
               <$> dict_get k d
        else dict_get k d
    | None => dict_get k d
    end.
Proof.
  intros Hk. unfold settled. rewrite dict_get_alter_piece. cbn [fst snd].
  rewrite decide_False by done.
  unfold captured_players. destruct captured as [cp|].
  - rewrite dict_get_alter_piece. cbn [fst snd str_piece].
    by rewrite dict_get_landed_other.
  - by apply dict_get_landed_other.
Qed.

(** *** What [_check_capture] finds *)

Lemma check_capture_Some g moving n cp :
  _check_capture g moving n = Some cp →
  (n ∉ safe_positions) ∧ cp ∈ all_pieces g ∧ position cp = n
  ∧ is_home cp = false ∧ player_color cp ≠ player_color moving.
Proof.
  unfold _check_capture. case_bool_decide as Hsafe; [done|]. intros H.
  apply find_some in H as [Hin Hc]. apply list_elem_of_In in Hin.
  unfold capturable in Hc.
  apply andb_prop in Hc as [Hc H4]. apply andb_prop in Hc as [Hc H3].
  apply andb_prop in Hc as [_ H2].
  apply bool_decide_eq_true in H4. apply negb_true_iff in H3. apply Z.eqb_eq in H2.
  done.
Qed.

Lemma check_capture_safe g moving n : n ∈ safe_positions → _check_capture g moving n = None.
Proof. intros H. unfold _check_capture. by rewrite bool_decide_eq_true_2. Qed.

Lemma all_pieces_elem g x :
  x ∈ all_pieces g → ∃ k p j, (k, p) ∈ players g ∧ pieces p !! j = Some x.
Proof.
  unfold all_pieces, dict_values. intros H.
  apply list_elem_of_In, in_flat_map in H as (p & Hp & Hx).
  apply in_map_iff in Hp as ([k p'] & <- & Hkp).
  apply list_elem_of_In, list_elem_of_lookup in Hx as [j Hj].
  exists k, p', j. split; [by apply list_elem_of_In | done].
Qed.

(** In a well-formed game a captured piece is a piece of another colour's
    player, found at its own index, and not home. *)
Lemma captured_location pc id n home (d : dict Player) g moving cp player :
  wf_players d → dict_get pc d = Some player → player_color moving = pc →
  _check_capture (set_players (landed pc id n home d) g) moving n = Some cp →
  player_color cp ≠ pc
  ∧ is_home cp = false
  ∧ (n ∉ safe_positions)
  ∧ ∃ p, dict_get (player_color cp) d = Some p
         ∧ pieces p !! Z.to_nat (piece_id cp) = Some cp.
Proof.
  intros [Hnd Hok] Hp Hm Hc.
  apply check_capture_Some in Hc as (Hsafe & Hin & _ & Hh & Hne). rewrite Hm in Hne.
  split_and!; try done.
  apply all_pieces_elem in Hin as (k & p & j & Hkp & Hj). cbn [players set_players] in Hkp.
  apply dict_elem_get in Hkp; cycle 1.
  { unfold landed. destruct home;
      by rewrite ?dict_keys_alter_player, ?dict_keys_alter_piece. }
  destruct (decide (k = pc)) as [->|Hk].
  - rewrite (dict_get_landed_mover _ _ _ _ _ player) in Hkp by done.
    injection Hkp as <-. cbn [pieces] in Hj.
    rewrite list_lookup_alter in Hj. case_decide as Hij.
    + destruct (pieces player !! Z.to_nat id) as [q|] eqn:Hq; cbn in Hj; [|done].
      injection Hj as <-.
      destruct (proj1 (proj2 (proj2 (proj2 (proj2 (Hok _ _ Hp))))) _ _ Hq) as (Hc & _).
      destruct Hne. unfold landed_piece. by destruct home.
    + destruct (proj1 (proj2 (proj2 (proj2 (proj2 (Hok _ _ Hp))))) _ _ Hj) as (Hc & _).
      by destruct Hne.
  - rewrite dict_get_landed_other in Hkp by done.
    destruct (proj1 (proj2 (proj2 (proj2 (proj2 (Hok _ _ Hkp))))) _ _ Hj) as (Hc & Hid & _).
    exists p. rewrite Hc, Hid, Nat2Z.id. done.
Qed.

Lemma wf_players_settled pc id n (home : bool) (d : dict Player) g moving player piece :
  wf_players d → dict_get pc d = Some player →
  pieces player !! Z.to_nat id = Some piece → is_home piece = false →
  player_color moving = pc →
  (if home then n ∈ home_stretch_positions pc else -1 ≤ n < board_size) →
  wf_players
    (settled pc id n
       (captured_players (_check_capture (set_players (landed pc id n home d) g) moving n)
          (landed pc id n home d))).
Proof.
  intros Hwf Hp Hpiece Hh Hm Hn.
  destruct (_check_capture _ moving n) as [cp|] eqn:Hcap.
  - destruct (captured_location _ _ _ _ _ _ _ _ _ Hwf Hp Hm Hcap)
      as (Hne & Hcph & _ & pcap & Hpcap & Hcpj).
    destruct Hwf as [Hnd Hok]. split; [by rewrite dict_keys_settled|].
    intros k p Hk. destruct (decide (k = pc)) as [->|Hkpc].
    + rewrite (dict_get_settled_mover _ _ _ _ _ _ player) in Hk;
        [|done|by intros ? [= <-]].
      injection Hk as <-. eapply moved_player_ok; eauto.
    + rewrite dict_get_settled_other in Hk by done. case_decide as Hkc.
      * subst k. rewrite Hpcap in Hk. injection Hk as <-.
        eapply capture_player_ok; eauto.
      * eauto.
  - destruct Hwf as [Hnd Hok]. split; [by rewrite dict_keys_settled|].
    intros k p Hk. destruct (decide (k = pc)) as [->|Hkpc].
    + rewrite (dict_get_settled_mover _ _ _ _ _ _ player) in Hk; [|done|done].
      injection Hk as <-. eapply moved_player_ok; eauto.
    + rewrite dict_get_settled_other in Hk by done. eauto.
Qed.

(** ** The other methods, symbolically *)

Lemma start_game_run g :
  _start_game g
  = if bool_decide (length (players g) = 4%nat)
    then (Returned tt, started g, [game_started_event g])
    else (Returned tt, g, []).
Proof.
  unfold _start_game. rewrite bind_get.
  case_bool_decide as H.
  - rewrite bool_decide_eq_false_2 by (by intros ?). reflexivity.
  - rewrite bool_decide_eq_true_2 by done. reflexivity.
Qed.

Lemma add_player_run c g :
  add_player c g
  = if dict_mem c (players g) then (Returned false, g, [])
    else
      let g1 := set_players (dict_set c (new_player c) (players g)) g in
      if bool_decide (length (players g1) = 4%nat)
      then (Returned true, started g1, [game_started_event g1])
      else (Returned true, g1, []).
Proof.
  unfold add_player. rewrite bind_get.
  destruct (dict_mem c (players g)); [done|].
  rewrite bind_modify, bind_get. cbv zeta.
  set (g1 := set_players _ g).
  case_bool_decide as H.
  - unfold bind. rewrite start_game_run, bool_decide_eq_true_2 by done. reflexivity.
  - reflexivity.
Qed.

Lemma roll_dice_run r g :
  roll_dice r g
  = if bool_decide (game_state g = GameState.ROLLING_DICE)
    then (Returned (randint_1_6 r),
          set_game_state GameState.MOVING_PIECE (set_dice_value (randint_1_6 r) g),
          [mkEvent EventType.DICE_ROLLED (data_dice (randint_1_6 r)) (current_player g)])
    else (Returned 0, g, []).
Proof.
  unfold roll_dice. rewrite bind_get.
  case_bool_decide as H.
  - rewrite bool_decide_eq_false_2 by (by intros ?). reflexivity.
  - rewrite bool_decide_eq_true_2 by done. reflexivity.
Qed.

Lemma reset_game_run g :
  reset_game g
  = if bool_decide (length (players g) = 4%nat)
    then (Returned tt, started (cleared g), [game_started_event (cleared g)])
    else (Returned tt, cleared g, []).
Proof.
  unfold reset_game. rewrite !bind_modify, bind_get.
  change (set_dice_value 0 _) with (cleared g).
  assert (Hlen : length (players (cleared g)) = length (players g)).
  { unfold cleared. cbn [players]. apply length_map. }
  rewrite Hlen. case_bool_decide as H.
  - rewrite start_game_run, Hlen. by rewrite bool_decide_eq_true_2.
  - reflexivity.
Qed.

Lemma fmapM_run {A B} (f : A → B) (m : M A) g :
  fmapM f m g
  = match m g with
    | (Returned a, g1, ev) => (Returned (f a), g1, ev)
    | (Raised e, g1, ev) => (Raised e, g1, ev)
    | (Diverged, g1, ev) => (Diverged, g1, ev)
    end.
Proof.
  unfold fmapM, bind, ret. destruct (m g) as [[[a|e|] g1] ev]; try done.
  by rewrite app_nil_r.
Qed.

(** ** move_piece: the two ways it can go *)

Lemma is_valid_move_true g piece n :
  _is_valid_move g piece n = Returned true →
  is_home piece = false ∧ (position piece = -1 → dice_value g = 6).
Proof.
  unfold _is_valid_move. destruct (is_home piece); [done|]. intros H. split; [done|].
  intros Hb. rewrite Hb in H. cbn in H. injection H as H. by apply Z.eqb_eq.
Qed.

Lemma move_piece_cases g pc id :
  (∃ o ev,
     move_piece pc id g = (o, g, ev) ∧ o ≠ Returned true
     ∧ (ev = [] ∨ ev = [invalid_move_event g pc id]))
  ∨ (∃ player piece n,
       current_player g = Some pc ∧ game_state g = GameState.MOVING_PIECE
       ∧ dict_get pc (players g) = Some player ∧ 0 ≤ id < 4
       ∧ pieces player !! Z.to_nat id = Some piece
       ∧ _calculate_new_position g piece (dice_value g) = Returned n
       ∧ _is_valid_move g piece n = Returned true
       ∧ move_piece pc id g = execute_move pc id piece n g).
Proof.
  destruct (decide (current_player g = Some pc)) as [H1|H1];
    [|left; exists (Returned false), []; rewrite move_piece_wrong_turn by auto; auto].
  destruct (decide (game_state g = GameState.MOVING_PIECE)) as [H2|H2];
    [|left; exists (Returned false), []; rewrite move_piece_wrong_turn by auto; auto].
  destruct (dict_get pc (players g)) as [player|] eqn:Hp; cycle 1.
  { left. exists (Raised KeyError), []. rewrite move_piece_guarded by done.
    rewrite (bind_query_raised _ _ _ KeyError); [auto|]. unfold dict_at. by rewrite Hp. }
  destruct (decide (0 ≤ id < 4)) as [Hid|Hid];
    [|left; exists (Returned false), [];
      rewrite (move_piece_out_of_range _ _ _ player) by (done || lia); auto].
  destruct (pieces player !! Z.to_nat id) as [piece|] eqn:Hpiece; cycle 1.
  { left. exists (Raised IndexError), []. rewrite move_piece_guarded by done.
    rewrite (bind_query _ _ _ player) by (unfold dict_at; by rewrite Hp).
    destruct ((id <? 0) || (id >=? 4)) eqn:E; [lia|].
    rewrite (bind_query_raised _ _ _ IndexError); [auto|]. unfold list_at. by rewrite Hpiece. }
  assert (Hpre :
            move_piece pc id g
            = bind (query (λ g, _calculate_new_position g piece (dice_value g)))
                (λ n, valid ← query (λ g, _is_valid_move g piece n);
                      if negb valid then
                        add_event EventType.INVALID_MOVE
                          (data_invalid id (dice_value g)) (Some pc);;
                        ret false
                      else execute_move pc id piece n) g).
  { rewrite move_piece_guarded by done.
    rewrite (bind_query _ _ _ player) by (unfold dict_at; by rewrite Hp).
    destruct ((id <? 0) || (id >=? 4)) eqn:E; [lia|].
    by rewrite (bind_query _ _ _ piece) by (unfold list_at; by rewrite Hpiece). }
  destruct (_calculate_new_position g piece (dice_value g)) as [n|e|] eqn:Hn.
  - destruct (_is_valid_move g piece n) as [[]|e|] eqn:Hv.
    + right. exists player, piece, n. split_and!; try done; try lia.
      by rewrite (move_piece_valid_cases _ _ _ player piece n true).
    + left. exists (Returned false), [invalid_move_event g pc id].
      rewrite (move_piece_valid_cases _ _ _ player piece n false) by done. auto.
    + left. exists (Raised e), []. rewrite Hpre.
      rewrite (bind_query _ _ _ n) by done.
      rewrite (bind_query_raised _ _ _ e) by done. auto.
    + left. exists Diverged, []. rewrite Hpre.
      rewrite (bind_query _ _ _ n) by done.
      unfold bind, query. rewrite Hv. auto.
  - left. exists (Raised e), []. rewrite Hpre.
    rewrite (bind_query_raised _ _ _ e) by done. auto.
  - left. exists Diverged, []. rewrite Hpre. unfold bind, query. rewrite Hn. auto.
Qed.

(** ** Well-formedness is kept by every call *)

Lemma destination_range g pc player piece i n :
  player_ok pc player → dict_get pc (players g) = Some player →
  piece_ok pc i piece → is_home piece = false → 0 ≤ dice_value g ≤ 6 →
  _calculate_new_position g piece (dice_value g) = Returned n →
  if negb (n <? home_position player) && bool_decide (n ∈ home_stretch_positions pc)
  then n ∈ home_stretch_positions pc
  else -1 ≤ n < board_size.
Proof.
  intros (_ & Hstart & Hhome & _) Hp (Hc & _ & Hpos) Hh Hdice Hn.
  rewrite Hh in Hpos. rewrite <- Hc in Hp.
  destruct (negb _ && _) eqn:E.
  - apply andb_prop in E as [_ E]. by apply bool_decide_eq_true in E.
  - assert (Hnot : n < home_position player ∨ ¬ (_get_home_position pc ≤ n < _get_home_position pc + 6)).
    { apply andb_false_iff in E as [E|E].
      - left. apply negb_false_iff in E. by apply Z.ltb_lt.
      - right. apply bool_decide_eq_false in E. by rewrite <- in_home_stretch. }
    clear E. unfold board_size in *.
    destruct (decide (position piece = -1)) as [Hb|Hb].
    + unfold _calculate_new_position in Hn. rewrite Hh, Hb in Hn. cbn in Hn.
      destruct (dice_value g =? 6).
      * unfold dict_at in Hn. rewrite Hp in Hn. cbn in Hn. injection Hn as <-.
        rewrite Hstart. destruct pc; cbn; lia.
      * injection Hn as <-. lia.
    + rewrite (calculate_new_position_track _ _ player) in Hn by done.
      injection Hn as <-. cbv zeta in *. unfold board_size in *.
      rewrite ?Hhome, ?Hstart in Hnot |- *.
      destruct (position piece + dice_value g <? 52) eqn:E1.
      * apply Z.ltb_lt in E1. clear Hnot. lia.
      * apply Z.ltb_ge in E1.
        destruct ((position piece <? _) && _) eqn:E2; [clear Hnot; lia|].
        exfalso. destruct pc; cbn [_get_home_position] in Hnot; lia.
Qed.

Lemma wf_same g g' :
  players g' = players g → dice_value g' = dice_value g → wf g → wf g'.
Proof. unfold wf. by intros -> ->. Qed.

Lemma wf_new_game : wf new_game.
Proof.
  split; [split|cbn; lia].
  - apply NoDup_nil_2.
  - intros c p H. discriminate H.
Qed.

Lemma wf_started g : wf g → wf (started g).
Proof. by apply wf_same. Qed.

Lemma wf_players_set c (d : dict Player) :
  wf_players d → dict_get c d = None → wf_players (dict_set c (new_player c) d).
Proof.
  intros [Hnd Hok] Hc. split.
  - rewrite (dict_set_new _ _ _ Hc). unfold dict_keys. rewrite map_app. cbn [map fst].
    apply NoDup_app. split_and!; [done| |apply NoDup_singleton].
    intros k Hk Hk'. apply list_elem_of_singleton in Hk' as ->.
    by apply dict_get_None in Hc.
  - intros k p. rewrite dict_get_set. case_decide as Hk.
    + subst k. intros [= <-]. apply new_player_ok.
    + apply Hok.
Qed.

Lemma wf_players_del c (d : dict Player) : wf_players d → wf_players (dict_del c d).
Proof.
  intros [Hnd Hok]. split.
  - rewrite dict_keys_del. by apply NoDup_filter.
  - intros k p. rewrite dict_get_del. case_decide; [done|]. apply Hok.
Qed.

Lemma dict_get_map (f : Player → Player) c (d : dict Player) :
  dict_get c (map (λ kv, (kv.1, f kv.2)) d) = f <$> dict_get c d.
Proof.
  induction d as [|[k p] d IH]; [done|]. cbn [map dict_get fst snd].
  by destruct (decide (k = c)).
Qed.

Lemma dict_keys_map (f : Player → Player) (d : dict Player) :
  dict_keys (map (λ kv, (kv.1, f kv.2)) d) = dict_keys d.
Proof. unfold dict_keys. rewrite map_map. done. Qed.

Lemma wf_cleared g : wf g → wf (cleared g).
Proof.
  intros [[Hnd Hok] _]. split; [split|cbn; lia]; cbn [players cleared].
  - by rewrite dict_keys_map.
  - intros c p. rewrite dict_get_map. destruct (dict_get c (players g)) as [q|] eqn:E; [|done].
    intros [= <-]. apply reset_player_ok. by apply Hok.
Qed.

Lemma wf_add_player c g : wf g → wf (add_player c g).1.2.
Proof.
  intros Hwf. rewrite add_player_run.
  destruct (dict_mem c (players g)) eqn:E; [done|]. cbv zeta.
  assert (wf (set_players (dict_set c (new_player c) (players g)) g)).
  { destruct Hwf as [Hp Hd]. split; [|done]. cbn [players set_players].
    apply wf_players_set; [done|]. by apply dict_mem_false. }
  case_bool_decide; [by apply wf_started | done].
Qed.

Lemma wf_remove_player c g : wf g → wf (remove_player c g).1.2.
Proof.
  intros Hwf. rewrite remove_player_run.
  destruct (dict_mem c (players g)); [|done].
  destruct Hwf as [Hpl Hdice]. split; [|done]. by apply wf_players_del.
Qed.

Lemma wf_roll_dice r g : wf g → wf (roll_dice r g).1.2.
Proof.
  intros Hwf. rewrite roll_dice_run. case_bool_decide; [|done].
  destruct Hwf as [Hpl _]. split; [done|]. cbn. destruct r; cbn; lia.
Qed.

Lemma wf_reset_game g : wf g → wf (reset_game g).1.2.
Proof.
  intros Hwf. rewrite reset_game_run.
  case_bool_decide; [apply wf_started|]; by apply wf_cleared.
Qed.

Lemma wf_execute_move g pc id player piece n :
  wf g → current_player g = Some pc → dict_get pc (players g) = Some player →
  pieces player !! Z.to_nat id = Some piece →
  _calculate_new_position g piece (dice_value g) = Returned n →
  _is_valid_move g piece n = Returned true →
  wf (execute_move pc id piece n g).1.2.
Proof.
  intros [Hpl Hdice] Hcur Hp Hpiece Hn Hv.
  pose proof (proj2 Hpl _ _ Hp) as Hok.
  pose proof (proj1 (proj2 (proj2 (proj2 (proj2 Hok)))) _ _ Hpiece) as Hpok.
  destruct (is_valid_move_true _ _ _ Hv) as [Hh _].
  destruct (execute_move_run pc id piece n g player Hcur Hp (proj1 Hpok))
    as (player4 & gfinal & evturn & _ & -> & Hplayers & Hd & _).
  cbn [fst snd]. split; [|by rewrite Hd]. rewrite Hplayers.
  eapply wf_players_settled; eauto.
  - unfold landed_piece. destruct (negb _ && _); apply Hpok.
  - eapply destination_range; eauto.
Qed.

Lemma wf_move_piece pc id g : wf g → wf (move_piece pc id g).1.2.
Proof.
  intros Hwf.
  destruct (move_piece_cases g pc id)
    as [(o & ev & -> & _)|(player & piece & n & Hcur & _ & Hp & _ & Hpiece & Hn & Hv & ->)].
  - done.
  - by eapply wf_execute_move.
Qed.

Lemma wf_exec c g : wf g → wf (exec c g).1.2.
Proof.
  intros Hwf. destruct c; cbn [exec]; rewrite ?fmapM_run.
  - pose proof (wf_add_player c g Hwf) as H.
    by destruct (add_player c g) as [[[?|?|] ?] ?].
  - pose proof (wf_remove_player c g Hwf) as H.
    by destruct (remove_player c g) as [[[?|?|] ?] ?].
  - done.
  - pose proof (wf_roll_dice r g Hwf) as H.
    by destruct (roll_dice r g) as [[[?|?|] ?] ?].
  - unfold query. by destruct (get_valid_moves g c).
  - pose proof (wf_move_piece c id g Hwf) as H.
    by destruct (move_piece c id g) as [[[?|?|] ?] ?].
  - done.
  - pose proof (wf_reset_game g Hwf) as H.
    by destruct (reset_game g) as [[[?|?|] ?] ?].
Qed.

Lemma run_cons c cs g :
  run (c :: cs) g
  = ((run cs (exec c g).1.2).1,
     mkStep c (exec c g).1.1 (exec c g).2 :: (run cs (exec c g).1.2).2).
Proof.
  cbn [run]. destruct (exec c g) as [[o g1] ev]. cbn [fst snd].
  by destruct (run cs g1).
Qed.

Lemma run_app cs1 cs2 g :
  run (cs1 ++ cs2) g
  = ((run cs2 (run cs1 g).1).1, (run cs1 g).2 ++ (run cs2 (run cs1 g).1).2).
Proof.
  revert g. induction cs1 as [|c cs1 IH]; intros g.
  - cbn. by destruct (run cs2 g).
  - cbn [app]. rewrite !run_cons, IH. reflexivity.
Qed.

Lemma wf_run cs g : wf g → wf (run cs g).1.
Proof.
  revert g. induction cs as [|c cs IH]; intros g Hwf; [done|].
  rewrite run_cons. cbn [fst]. apply IH. by apply wf_exec.
Qed.

Lemma wf_final cs : wf (final cs).
Proof. apply wf_run, wf_new_game. Qed.

(** ** Bounds on positions and finished counts *)

Lemma wf_position_cases g c p piece :
  wf g → (c, p) ∈ players g → piece ∈ pieces p →
  position piece = -1 ∨ 0 ≤ position piece < board_size
  ∨ position piece ∈ home_stretch_positions c.
Proof.
  intros [[Hnd Hok] _] Hcp Hpiece.
  apply dict_elem_get in Hcp; [|done]. apply list_elem_of_lookup in Hpiece as [i Hi].
  destruct (proj1 (proj2 (proj2 (proj2 (proj2 (Hok _ _ Hcp))))) _ _ Hi) as (_ & _ & H).
  destruct (is_home piece); [auto|]. unfold board_size in *. lia.
Qed.

Lemma wf_home_means_stretch g c p piece :
  wf g → (c, p) ∈ players g → piece ∈ pieces p → is_home piece = true →
  position piece ∈ home_stretch_positions c.
Proof.
  intros [[Hnd Hok] _] Hcp Hpiece Hh.
  apply dict_elem_get in Hcp; [|done]. apply list_elem_of_lookup in Hpiece as [i Hi].
  destruct (proj1 (proj2 (proj2 (proj2 (proj2 (Hok _ _ Hcp))))) _ _ Hi) as (_ & _ & H).
  by rewrite Hh in H.
Qed.

Lemma sum_home_count_bound (d : dict Player) :
  (∀ c p, (c, p) ∈ d → 0 ≤ home_count p ≤ 4) →
  0 ≤ foldr Z.add 0 (map home_count (dict_values d)) ≤ 4 * Z.of_nat (length d).
Proof.
  unfold dict_values. induction d as [|[c p] d IH]; intros H; [cbn; lia|].
  cbn [map foldr snd length].
  assert (0 ≤ home_count p ≤ 4) by (apply (H c); left).
  assert (0 ≤ foldr Z.add 0 (map home_count (map snd d)) ≤ 4 * Z.of_nat (length d)).
  { apply IH. intros c' p' Hin. apply (H c'). by right. }
  lia.
Qed.

Lemma wf_sum_home_count g : wf g → 0 ≤ sum_home_count g ≤ 16.
Proof.
  intros [[Hnd Hok] _]. unfold sum_home_count.
  pose proof (NoDup_colors_length _ Hnd) as Hlen. rewrite dict_keys_length in Hlen.
  assert (H : ∀ c p, (c, p) ∈ players g → 0 ≤ home_count p ≤ 4).
  { intros c p Hcp. apply dict_elem_get in Hcp; [|done].
    destruct (Hok _ _ Hcp) as (_ & _ & _ & Hl & _ & ->).
    pose proof (count_home_nonneg (pieces p)). lia. }
  pose proof (sum_home_count_bound _ H). lia.
Qed.

(** C6: after any sequence of public operations from a new game, the
    finished counts of all players sum to at most 16, and every piece stands
    at the base sentinel -1, on a track cell 0..51, or in the six-cell home
    stretch of its own colour.  Every prefix of a run is a run, so this holds
    after each operation. *)
Theorem positions_and_counts_stay_bounded (cs : list Call) :
  sum_home_count (final cs) ≤ 16
  ∧ ∀ c p piece,
      (c, p) ∈ players (final cs) → piece ∈ pieces p →
      position piece = -1
      ∨ 0 ≤ position piece < board_size
      ∨ position piece ∈ home_stretch_positions c.
Proof.
  pose proof (wf_final cs) as Hwf. split.
  - apply wf_sum_home_count, Hwf.
  - intros c p piece. by apply wf_position_cases.
Qed.

(** ** A successful move, in full *)

Lemma home_test_eq c p n :
  player_ok c p →
  negb (n <? home_position p) && bool_decide (n ∈ home_stretch_positions c)
  = bool_decide (n ∈ home_stretch_positions c).
Proof.
  intros (_ & _ & Hhome & _). case_bool_decide as H; [|by rewrite andb_false_r].
  apply in_home_stretch in H. rewrite andb_true_r, Hhome.
  apply negb_true_iff, Z.ltb_ge. lia.
Qed.

Lemma move_piece_success g pc id g' ev :
  wf g → move_piece pc id g = (Returned true, g', ev) →
  ∃ player piece n evturn,
    let home := bool_decide (n ∈ home_stretch_positions pc) in
    let moving := landed_piece n home piece in
    let captured :=
      _check_capture (set_players (landed pc id n home (players g)) g) moving n in
    current_player g = Some pc ∧ game_state g = GameState.MOVING_PIECE
    ∧ 0 ≤ id < 4
    ∧ dict_get pc (players g) = Some player
    ∧ pieces player !! Z.to_nat id = Some piece
    ∧ piece_ok pc (Z.to_nat id) piece
    ∧ is_home piece = false
    ∧ _calculate_new_position g piece (dice_value g) = Returned n
    ∧ players g' = settled pc id n (captured_players captured (landed pc id n home (players g)))
    ∧ dict_get pc (players g') = Some (moved_player (Z.to_nat id) n home player)
    ∧ dice_value g' = dice_value g
    ∧ ev = home_events pc id home ++ capture_events pc moving captured
           ++ [moved_event g pc id (position piece) n] ++ evturn
    ∧ (if has_won (moved_player (Z.to_nat id) n home player)
       then game_state g' = GameState.GAME_OVER
            ∧ current_player g' = Some pc ∧ evturn = [game_over_event pc]
       else game_state g' = GameState.ROLLING_DICE
            ∧ ∃ next, current_player g' = Some next ∧ evturn = [turn_event next]).
Proof.
  intros Hwf Hmove.
  destruct (move_piece_cases g pc id)
    as [(o & ev0 & Hm & Ho & _)
       |(player & piece & n & Hcur & Hst & Hp & Hid & Hpiece & Hn & Hv & Hm)].
  { rewrite Hm in Hmove. by injection Hmove as -> _ _. }
  rewrite Hm in Hmove. clear Hm.
  pose proof (proj2 (proj1 Hwf) _ _ Hp) as Hok.
  pose proof (proj1 (proj2 (proj2 (proj2 (proj2 Hok)))) _ _ Hpiece) as Hpok.
  destruct (is_valid_move_true _ _ _ Hv) as [Hh _].
  destruct (execute_move_run pc id piece n g player Hcur Hp (proj1 Hpok))
    as (player4 & gfinal & evturn & Hp4 & Hrun & Hplayers & Hd & Hturn).
  rewrite (home_test_eq _ _ _ Hok) in *.
  rewrite Hrun in Hmove. injection Hmove as <- <-.
  exists player, piece, n, evturn. cbv zeta.
  set (home := bool_decide (n ∈ home_stretch_positions pc)) in *.
  set (moving := landed_piece n home piece) in *.
  set (captured := _check_capture _ moving n) in *.
  assert (Hmover : dict_get pc (settled pc id n
                      (captured_players captured (landed pc id n home (players g))))
                   = Some (moved_player (Z.to_nat id) n home player)).
  { apply dict_get_settled_mover; [done|]. intros cp Hcp.
    apply check_capture_Some in Hcp as (_ & _ & _ & _ & Hne).
    intros Heq. apply Hne. rewrite Heq. unfold moving, landed_piece.
    destruct home; symmetry; apply Hpok. }
  rewrite Hmover in Hp4. injection Hp4 as <-.
  split_and!; try done; try lia. by rewrite Hplayers.
Qed.

Lemma moved_piece_lookup i n home p piece :
  pieces p !! i = Some piece →
  pieces (moved_player i n home p) !! i = Some (moved_piece n home piece).
Proof.
  intros H. unfold moved_player. cbn [pieces].
  by rewrite list_lookup_alter_eq, H.
Qed.

Lemma emitted_app t ev1 ev2 : emitted t (ev1 ++ ev2) ↔ emitted t ev1 ∨ emitted t ev2.
Proof.
  unfold emitted. split.
  - intros (e & He & Ht). apply elem_of_app in He as [He|He]; eauto.
  - intros [(e & He & Ht)|(e & He & Ht)]; exists e; rewrite elem_of_app; auto.
Qed.

Lemma emitted_nil t : ¬ emitted t [].
Proof. intros (e & He & _). by apply elem_of_nil in He. Qed.

Lemma emitted_singleton t e : emitted t [e] ↔ event_type e = t.
Proof.
  unfold emitted. split.
  - intros (e' & He & Ht). by apply list_elem_of_singleton in He as ->.
  - intros Ht. exists e. split; [by apply list_elem_of_singleton | done].
Qed.

Lemma emitted_home_events t pc id home :
  emitted t (home_events pc id home) ↔ home = true ∧ t = EventType.PIECE_HOME.
Proof.
  destruct home; cbn [home_events].
  - rewrite emitted_singleton. cbn. split; [by intros <- | by intros [_ ->]].
  - split; [by intros ?%emitted_nil | by intros [? _]].
Qed.

Lemma emitted_capture_events t pc moving captured :
  emitted t (capture_events pc moving captured)
  ↔ is_Some captured ∧ t = EventType.PIECE_CAPTURED.
Proof.
  destruct captured as [cp|]; cbn [capture_events].
  - rewrite emitted_singleton. cbn. split; [by intros <- | by intros [_ ->]].
  - split; [by intros ?%emitted_nil | by intros [[? ?] _]].
Qed.

(** The events of a successful move, by kind. *)
Lemma emitted_move_events t g pc id (home : bool) moving captured old n evturn :
  (evturn = [game_over_event pc] ∨ ∃ next, evturn = [turn_event next]) →
  emitted t (home_events pc id home ++ capture_events pc moving captured
             ++ [moved_event g pc id old n] ++ evturn)
  ↔ (home = true ∧ t = EventType.PIECE_HOME)
    ∨ (is_Some captured ∧ t = EventType.PIECE_CAPTURED)
    ∨ t = EventType.PIECE_MOVED
    ∨ (evturn = [game_over_event pc] ∧ t = EventType.GAME_OVER)
    ∨ ((∃ next, evturn = [turn_event next]) ∧ t = EventType.PLAYER_TURN_CHANGED).
Proof.
  intros Hturn. rewrite !emitted_app, emitted_home_events, emitted_capture_events.
  rewrite (emitted_singleton t (moved_event _ _ _ _ _)). cbn [moved_event event_type].
  assert (emitted t evturn
          ↔ (evturn = [game_over_event pc] ∧ t = EventType.GAME_OVER)
            ∨ ((∃ next, evturn = [turn_event next]) ∧ t = EventType.PLAYER_TURN_CHANGED)) as ->.
  { destruct Hturn as [->|[next ->]]; rewrite emitted_singleton; cbn.
    - split; [intros <-; auto | intros [[_ ->]|[[? [=]] _]]; done].
    - split; [intros <-; right; eauto | intros [[[=] _]|[_ ->]]; done]. }
  split; intros H; repeat (destruct H as [H|H]); auto 10.
Qed.

(** ** Finishing a piece *)

(** C2 (as amended): a successful move marks the moved piece as finished,
    adds one to its player's finished count and emits [PIECE_HOME] exactly
    when the destination is one of the six cells of the colour's home stretch
    (for RED these are 50..55, of which 50 and 51 are also track cells);
    otherwise flag and count stay as they were.  In every game reached by
    public operations, a finished piece stands in the home stretch of its
    colour. *)
Theorem finished_iff_in_home_stretch :
  (∀ cs pc id g' ev,
     move_piece pc id (final cs) = (Returned true, g', ev) →
     ∃ player piece n player' piece',
       dict_get pc (players (final cs)) = Some player
       ∧ pieces player !! Z.to_nat id = Some piece
       ∧ is_home piece = false
       ∧ _calculate_new_position (final cs) piece (dice_value (final cs)) = Returned n
       ∧ dict_get pc (players g') = Some player'
       ∧ pieces player' !! Z.to_nat id = Some piece'
       ∧ position piece' = n
       ∧ (is_home piece' = true ↔ n ∈ home_stretch_positions pc)
       ∧ home_count player'
         = (if bool_decide (n ∈ home_stretch_positions pc)
            then home_count player + 1 else home_count player)
       ∧ (emitted EventType.PIECE_HOME ev ↔ n ∈ home_stretch_positions pc))
  ∧ (∀ cs c p piece,
       (c, p) ∈ players (final cs) → piece ∈ pieces p → is_home piece = true →
       position piece ∈ home_stretch_positions c).
Proof.
  split.
  - intros cs pc id g' ev Hmove.
    destruct (move_piece_success _ _ _ _ _ (wf_final cs) Hmove)
      as (player & piece & n & evturn & _ & _ & _ & Hp & Hpiece & _ & Hh & Hn
          & _ & Hp' & _ & Hev & Hturn).
    cbv zeta in *.
    exists player, piece, n, (moved_player (Z.to_nat id) n
                                (bool_decide (n ∈ home_stretch_positions pc)) player),
      (moved_piece n (bool_decide (n ∈ home_stretch_positions pc)) piece).
    split_and!; try done.
    + by apply moved_piece_lookup.
    + unfold moved_piece, landed_piece. by case_bool_decide.
    + unfold moved_piece, landed_piece. case_bool_decide; cbn; [done|].
      rewrite Hh. split; [done | by intros ?].
    + rewrite Hev, emitted_move_events.
      * rewrite bool_decide_eq_true. split; [|auto].
        intros [[? _]|[[_ [=]]|[[=]|[[_ [=]]|[_ [=]]]]]]. done.
      * destruct (has_won _); [left | right]; [apply Hturn|].
        destruct Hturn as (_ & next & _ & ->). eauto.
  - intros cs c p piece. apply wf_home_means_stretch, wf_final.
Qed.

(** C2 (as stated) fails: RED's piece 0 moves from 48 to 50 with a roll of
    2 and is marked finished, counted and announced, although the terminal
    cell of RED's home stretch is 55. *)
Lemma finished_before_terminal_cell :
  ∃ g' ev player',
    move_piece RED 0 (final (red_to_48 ++ [call_roll_dice F2])) = (Returned true, g', ev)
    ∧ dict_get RED (players g') = Some player'
    ∧ pieces player' !! 0%nat = Some (mkPiece RED 0 50 true false)
    ∧ home_count player' = 1
    ∧ emitted EventType.PIECE_HOME ev
    ∧ terminal_home_cell RED = Some 55.
Proof.
  eexists _, _, _. split_and!.
  - vm_compute. reflexivity.
  - vm_compute. reflexivity.
  - reflexivity.
  - reflexivity.
  - eexists. split; [left | reflexivity].
  - reflexivity.
Qed.

(** ** Safe cells *)

(** C8: a move whose destination is one of the safe cells
    0, 8, 13, 21, 26, 34, 39, 47 emits no [PIECE_CAPTURED] and leaves every
    other colour's player, with all its pieces, exactly as it was, whatever
    stands on that cell. *)
Theorem safe_destination_never_captures (cs : list Call) (pc : PlayerColor) (id : Z)
    (player : Player) (piece : Piece) (n : Z) :
  dict_get pc (players (final cs)) = Some player →
  pieces player !! Z.to_nat id = Some piece →
  _calculate_new_position (final cs) piece (dice_value (final cs)) = Returned n →
  n ∈ safe_positions →
  ¬ emitted EventType.PIECE_CAPTURED (move_piece pc id (final cs)).2
  ∧ ∀ k, k ≠ pc →
      dict_get k (players (move_piece pc id (final cs)).1.2)
      = dict_get k (players (final cs)).
Proof.
  intros Hp Hpiece Hn Hsafe. set (g := final cs) in *.
  destruct (move_piece_cases g pc id)
    as [(o & ev & Hm & _ & Hev)
       |(player0 & piece0 & n0 & Hcur & _ & Hp0 & _ & Hpiece0 & Hn0 & _ & Hm)].
  - rewrite Hm. cbn [fst snd]. split; [|done].
    destruct Hev as [->| ->]; [apply emitted_nil|].
    rewrite emitted_singleton. done.
  - rewrite Hp in Hp0. injection Hp0 as <-. rewrite Hpiece in Hpiece0. injection Hpiece0 as <-.
    rewrite Hn in Hn0. injection Hn0 as <-.
    destruct (move_piece pc id g) as [[o g'] ev] eqn:Hmove. cbn [fst snd].
    assert (o = Returned true) as ->.
    { pose proof (proj2 (proj1 (wf_final cs)) _ _ Hp) as Hok.
      pose proof (proj1 (proj2 (proj2 (proj2 (proj2 Hok)))) _ _ Hpiece) as Hpok.
      destruct (execute_move_run pc id piece n g player Hcur Hp (proj1 Hpok))
        as (? & ? & ? & _ & Hrun & _).
      rewrite Hrun in Hm. by injection Hm as -> _ _. }
    destruct (move_piece_success _ _ _ _ _ (wf_final cs) Hmove)
      as (player1 & piece1 & n1 & evturn & _ & _ & _ & Hp1 & Hpiece1 & _ & _ & Hn1
          & Hplayers & _ & _ & Hev & Hturn).
    fold g in Hp1, Hn1, Hplayers, Hev.
    rewrite Hp in Hp1. injection Hp1 as <-. rewrite Hpiece in Hpiece1. injection Hpiece1 as <-.
    rewrite Hn in Hn1. injection Hn1 as <-. cbv zeta in *.
    rewrite (check_capture_safe _ _ _ Hsafe) in Hplayers, Hev.
    split.
    + rewrite Hev, emitted_move_events.
      * intros [[_ [=]]|[[[? [=]] _]|[[=]|[[_ [=]]|[_ [=]]]]]].
      * destruct (has_won _); [left | right]; [apply Hturn|].
        destruct Hturn as (_ & next & _ & ->). eauto.
    + intros k Hk. rewrite Hplayers. by rewrite dict_get_settled_other.
Qed.

(** RED's piece 0 moves from 12 to 13, GREEN's start cell, where three of
    GREEN's pieces stand: nothing is captured and GREEN is untouched. *)
Lemma safe_destination_never_captures_witness :
  let cs := red_next_to_green_start ++ [call_roll_dice F1] in
  ¬ emitted EventType.PIECE_CAPTURED (move_piece RED 0 (final cs)).2
  ∧ ∀ k, k ≠ RED →
      dict_get k (players (move_piece RED 0 (final cs)).1.2)
      = dict_get k (players (final cs)).
Proof.
  apply (safe_destination_never_captures
           (red_next_to_green_start ++ [call_roll_dice F1]) RED 0
           (mkPlayer RED [piece_on_track RED 0 12; new_piece RED 1;
                          new_piece RED 2; new_piece RED 3] 0 0 50)
           (piece_on_track RED 0 12) 13).
  - vm_compute. reflexivity.
  - reflexivity.
  - vm_compute. reflexivity.
  - unfold safe_positions. do 2 right. left.
Defined.

(** ** Legal moves *)

Lemma valid_moves_loop_spec g ps :
  (∀ piece, piece ∈ ps →
     ∃ n b, _calculate_new_position g piece (dice_value g) = Returned n
            ∧ _is_valid_move g piece n = Returned b) →
  ∃ moves,
    valid_moves_loop g ps = Returned moves
    ∧ sublist (map fst moves) ps
    ∧ ∀ piece n,
        (piece, n) ∈ moves
        ↔ piece ∈ ps
          ∧ _calculate_new_position g piece (dice_value g) = Returned n
          ∧ _is_valid_move g piece n = Returned true.
Proof.
  induction ps as [|piece ps IH]; intros Hall.
  - exists []. split_and!; [done | constructor |].
    intros piece n. split; [by intros ?%elem_of_nil | by intros [?%elem_of_nil _]].
  - destruct (Hall piece) as (n & b & Hn & Hb); [left|].
    destruct IH as (moves & Hloop & Hsub & Hmem).
    { intros p Hp. apply Hall. by right. }
    exists (if b then (piece, n) :: moves else moves). split_and!.
    + cbn [valid_moves_loop]. rewrite Hn. cbn [obind]. rewrite Hb. cbn [obind].
      by rewrite Hloop.
    + destruct b; [by apply sublist_skip | by apply sublist_cons].
    + intros p m. destruct b.
      * rewrite elem_of_cons, Hmem, elem_of_cons. split.
        -- intros [[= -> ->]|(? & ? & ?)]; auto.
        -- intros ([->|Hin] & Hm & Hv); [left|right; auto].
           rewrite Hn in Hm. by injection Hm as ->.
      * rewrite Hmem, elem_of_cons. split; [intros (? & ? & ?); auto|].
        intros ([->|Hin] & Hm & Hv); [|auto].
        rewrite Hn in Hm. injection Hm as ->. rewrite Hb in Hv. done.
Qed.

Lemma calculate_new_position_returns g pc player piece i :
  dict_get pc (players g) = Some player → piece_ok pc i piece →
  ∃ n, _calculate_new_position g piece (dice_value g) = Returned n.
Proof.
  intros Hp (Hc & _). rewrite <- Hc in Hp.
  destruct (is_home piece) eqn:Hh.
  { unfold _calculate_new_position. rewrite Hh. eauto. }
  destruct (decide (position piece = -1)) as [Hb|Hb].
  - unfold _calculate_new_position, dict_at. rewrite Hh, Hb, Hp. cbn.
    destruct (dice_value g =? 6); eauto.
  - rewrite (calculate_new_position_track _ _ player) by done. eauto.
Qed.

Lemma is_valid_move_returns g pc player piece i n :
  dict_get pc (players g) = Some player → piece_ok pc i piece →
  ∃ b, _is_valid_move g piece n = Returned b.
Proof.
  intros Hp (Hc & _). rewrite <- Hc in Hp.
  unfold _is_valid_move, dict_at. rewrite Hp.
  destruct (is_home piece); [eauto|]. destruct (position piece =? -1); eauto.
Qed.






(** ** reset_game *)

Lemma reset_player_new c p : player_ok c p → reset_player p = new_player c.
Proof.
  intros (Hc & Hs & Hh & Hlen & Hps & _).
  unfold reset_player, new_player, set_home_count, set_pieces. cbn.
  rewrite Hc, Hs, Hh. f_equal.
  destruct (pieces p) as [|p0 [|p1 [|p2 [|p3 [|]]]]]; try discriminate Hlen.
  destruct (Hps 0%nat p0 eq_refl) as (H0 & H0' & _).
  destruct (Hps 1%nat p1 eq_refl) as (H1 & H1' & _).
  destruct (Hps 2%nat p2 eq_refl) as (H2 & H2' & _).
  destruct (Hps 3%nat p3 eq_refl) as (H3 & H3' & _).
  cbn [map]. unfold piece_reset, new_piece.
  by rewrite H0, H0', H1, H1', H2, H2', H3, H3'.
Qed.

Lemma cleared_players g :
  wf g → players (cleared g) = map (λ k, (k, new_player k)) (dict_keys (players g)).
Proof.
  intros [[Hnd Hok] _]. unfold cleared, dict_keys. cbn [players]. rewrite map_map.
  apply map_ext_in. intros [k p] Hin. cbn [fst snd]. f_equal.
  apply reset_player_new, Hok, dict_elem_get; [done|]. by apply list_elem_of_In.
Qed.

Lemma four_colours_all (ks : list PlayerColor) c :
  NoDup ks → length ks = 4%nat → c ∈ ks.
Proof.
  intros Hnd Hlen.
  destruct ks as [|c1 [|c2 [|c3 [|c4 [|]]]]]; try discriminate Hlen.
  apply (bool_decide_eq_true_2 _) in Hnd. apply (bool_decide_unpack _).
  destruct c1, c2, c3, c4; vm_compute in Hnd; try discriminate Hnd;
    destruct c; vm_compute; exact I.
Qed.

Lemma dict_get_tabulate {V} (f : PlayerColor → V) (ks : list PlayerColor) c :
  c ∈ ks → dict_get c (map (λ k, (k, f k)) ks) = Some (f c).
Proof.
  induction ks as [|k ks IH]; [by intros ?%elem_of_nil|].
  intros Hin. cbn [map dict_get]. destruct (decide (k = c)) as [->|Hne]; [done|].
  apply elem_of_cons in Hin as [->|Hin]; [done | auto].
Qed.

Lemma fresh_game (order : list PlayerColor) :
  NoDup order → length order = 4%nat →
  final (map call_add_player order)
  = started (mkGame (map (λ k, (k, new_player k)) order) None
               GameState.WAITING_FOR_PLAYERS 0).
Proof.
  intros Hnd Hlen.
  destruct order as [|c1 [|c2 [|c3 [|c4 [|]]]]]; try discriminate Hlen.
  apply (bool_decide_eq_true_2 _) in Hnd.
  destruct c1, c2, c3, c4; vm_compute in Hnd; try discriminate Hnd;
    vm_compute; reflexivity.
Qed.

Lemma new_player_view c :
  player_view (new_player c)
  = mkPlayerView 0 false
      [mkPieceView 0 (-1) false false; mkPieceView 1 (-1) false false;
       mkPieceView 2 (-1) false false; mkPieceView 3 (-1) false false].
Proof. destruct c; reflexivity. Qed.

(** C9: [reset_game] on a game with exactly four players leaves a game
    whose snapshot equals that of a new game to which the four colours were
    just added, in whatever order (Python's [==] on the two dictionaries;
    the very same dictionary when the order is the same): phase
    [ROLLING_DICE], current player RED, dice value 0, and for every player
    finished count 0, no win, and every piece at base with both flags
    off. *)
Theorem reset_reproduces_the_start (cs : list Call) (order : list PlayerColor) :
  length (players (final cs)) = 4%nat →
  NoDup order → length order = 4%nat →
  let after := (reset_game (final cs)).1.2 in
  let fresh := final (map call_add_player order) in
  snapshot_eq (get_game_state after) (get_game_state fresh)
  ∧ (order = dict_keys (players (final cs)) →
       get_game_state after = get_game_state fresh)
  ∧ view_game_state (get_game_state after) = GameState.ROLLING_DICE
  ∧ view_current_player (get_game_state after) = Some RED
  ∧ view_dice_value (get_game_state after) = 0
  ∧ ∀ c v,
      (c, v) ∈ view_players (get_game_state after) →
      v = mkPlayerView 0 false
            [mkPieceView 0 (-1) false false; mkPieceView 1 (-1) false false;
             mkPieceView 2 (-1) false false; mkPieceView 3 (-1) false false].
Proof.
  intros Hlen Hnd Hlen' after fresh.
  pose proof (wf_final cs) as Hwf. set (g := final cs) in *.
  assert (Hafter : after = started (cleared g)).
  { unfold after. rewrite reset_game_run. by rewrite bool_decide_eq_true_2. }
  assert (Hview : ∀ ks,
            get_game_state (started (mkGame (map (λ k, (k, new_player k)) ks) None
                                       GameState.WAITING_FOR_PLAYERS 0))
            = mkSnapshot GameState.ROLLING_DICE (Some RED) 0
                (map (λ k, (k, player_view (new_player k))) ks)).
  { intros ks. unfold get_game_state, started. cbn. by rewrite map_map. }
  assert (Hcleared : started (cleared g)
                     = started (mkGame (map (λ k, (k, new_player k)) (dict_keys (players g)))
                                  None GameState.WAITING_FOR_PLAYERS 0)).
  { unfold started, set_current_player, set_game_state. cbn.
    by rewrite <- (cleared_players g Hwf). }
  unfold fresh. rewrite (fresh_game order Hnd Hlen'), Hafter, Hcleared, !Hview.
  pose proof (proj1 (proj1 Hwf)) as Hndk.
  assert (Hlenk : length (dict_keys (players g)) = 4%nat) by by rewrite dict_keys_length.
  split_and!; try done.
  - split_and!; try done. intros c. cbn [view_players].
    rewrite (dict_get_tabulate (λ k, player_view (new_player k))) by by apply four_colours_all.
    by rewrite (dict_get_tabulate (λ k, player_view (new_player k)))
      by by apply four_colours_all.
  - by intros ->.
  - intros c v Hin. cbn [view_players] in Hin.
    apply list_elem_of_In, in_map_iff in Hin as (k & [= <- <-] & _).
    apply new_player_view.
Qed.

(** The game of [red_to_48], in its tenth round, is reset. *)
Lemma reset_reproduces_the_start_witness :
  let after := (reset_game (final red_to_48)).1.2 in
  let fresh := final (map call_add_player [RED; GREEN; YELLOW; BLUE]) in
  snapshot_eq (get_game_state after) (get_game_state fresh)
  ∧ ([RED; GREEN; YELLOW; BLUE] = dict_keys (players (final red_to_48)) →
       get_game_state after = get_game_state fresh)
  ∧ view_game_state (get_game_state after) = GameState.ROLLING_DICE
  ∧ view_current_player (get_game_state after) = Some RED
  ∧ view_dice_value (get_game_state after) = 0
  ∧ ∀ c v,
      (c, v) ∈ view_players (get_game_state after) →
      v = mkPlayerView 0 false
            [mkPieceView 0 (-1) false false; mkPieceView 1 (-1) false false;
             mkPieceView 2 (-1) false false; mkPieceView 3 (-1) false false].
Proof.
  apply (reset_reproduces_the_start red_to_48 [RED; GREEN; YELLOW; BLUE]).
  - vm_compute. reflexivity.
  - by apply (bool_decide_unpack _).
  - reflexivity.
Defined.

(** ** The end of a game *)

Lemma count_home_lt ps i piece :
  ps !! i = Some piece → is_home piece = false → count_home ps < Z.of_nat (length ps).
Proof.
  intros Hi Hh.
  pose proof (count_home_alter (set_is_home true) i ps piece Hi) as H.
  pose proof (count_home_nonneg (alter (set_is_home true) i ps)) as [_ Hle].
  rewrite length_alter in Hle. rewrite Hh in H. cbn in H. lia.
Qed.

Lemma move_piece_outcomes g pc id :
  wf g →
  (∃ o ev, move_piece pc id g = (o, g, ev) ∧ o ≠ Returned true
           ∧ (ev = [] ∨ ev = [invalid_move_event g pc id]))
  ∨ (∃ g' ev, move_piece pc id g = (Returned true, g', ev)).
Proof.
  intros Hwf.
  destruct (move_piece_cases g pc id)
    as [?|(player & piece & n & Hcur & _ & Hp & _ & Hpiece & _ & _ & Hm)]; [by left|].
  right. rewrite Hm.
  pose proof (proj2 (proj1 Hwf) _ _ Hp) as Hok.
  pose proof (proj1 (proj2 (proj2 (proj2 (proj2 Hok)))) _ _ Hpiece) as Hpok.
  destruct (execute_move_run pc id piece n g player Hcur Hp (proj1 Hpok))
    as (? & gfinal & ? & _ & -> & _). eauto.
Qed.

(** A move that emits [GAME_OVER] has just taken the mover's fourth piece
    home. *)
Lemma game_over_move g pc id o g' ev :
  wf g → move_piece pc id g = (o, g', ev) → emitted EventType.GAME_OVER ev →
  ∃ player player',
    o = Returned true
    ∧ count_events EventType.GAME_OVER ev = 1%nat
    ∧ emitted EventType.PIECE_HOME ev
    ∧ dict_get pc (players g) = Some player ∧ home_count player = 3
    ∧ dict_get pc (players g') = Some player' ∧ home_count player' = 4
    ∧ has_won player' = true
    ∧ game_state g' = GameState.GAME_OVER.
Proof.
  intros Hwf Hmove Hover.
  destruct (move_piece_outcomes g pc id Hwf) as [(o0 & ev0 & Hm & _ & Hev)|(g0 & ev0 & Hm)].
  { rewrite Hm in Hmove. injection Hmove as <- <- <-.
    destruct Hev as [->| ->]; [by apply emitted_nil in Hover|].
    apply emitted_singleton in Hover. discriminate Hover. }
  rewrite Hm in Hmove. injection Hmove as <- <- <-.
  destruct (move_piece_success _ _ _ _ _ Hwf Hm)
    as (player & piece & n & evturn & _ & _ & _ & Hp & Hpiece & Hpok & Hh & _
        & _ & Hp' & _ & Hev & Hturn).
  cbv zeta in *.
  set (home := bool_decide (n ∈ home_stretch_positions pc)) in *.
  pose proof (proj2 (proj1 Hwf) _ _ Hp) as Hok.
  assert (Hwon : has_won (moved_player (Z.to_nat id) n home player) = true).
  { destruct (has_won _); [done|]. destruct Hturn as (_ & next & _ & ->).
    rewrite Hev, emitted_move_events in Hover by eauto.
    destruct Hover as [[_ [=]]|[[_ [=]]|[[=]|[[[=] _]|[_ [=]]]]]]. }
  rewrite Hwon in Hturn. destruct Hturn as (Hst & _ & ->).
  pose proof (proj1 (has_won_count _) Hwon) as Hcount.
  unfold moved_player in Hcount. cbn [pieces] in Hcount.
  rewrite (count_home_alter _ _ _ piece Hpiece), Hh in Hcount.
  pose proof (count_home_lt _ _ _ Hpiece Hh) as Hlt.
  destruct Hok as (_ & _ & _ & Hlen & _ & Hhc). rewrite Hlen in Hlt.
  assert (Hhome : home = true).
  { destruct home; [done|]. unfold moved_piece, landed_piece in Hcount.
    cbn in Hcount. rewrite Hh in Hcount. lia. }
  rewrite Hhome in *. unfold moved_piece, landed_piece in Hcount. cbn in Hcount.
  exists player, (moved_player (Z.to_nat id) n true player).
  split_and!; try done.
  - rewrite Hev. destruct (_check_capture _ _ n); reflexivity.
  - rewrite Hev. apply emitted_app. left. by apply emitted_home_events.
  - lia.
  - unfold moved_player. cbn [home_count]. lia.
Qed.

Lemma exec_emits_game_over c g :
  emitted EventType.GAME_OVER (exec c g).2 → ∃ pc id, c = call_move_piece pc id.
Proof.
  destruct c as [c|c| |r|c|c id| |]; cbn [exec]; rewrite ?fmapM_run; intros H.
  - rewrite add_player_run in H. destruct (dict_mem c (players g)); cbv zeta in H;
      [by apply emitted_nil in H|].
    case_bool_decide; cbn in H; [|by apply emitted_nil in H].
    apply emitted_singleton in H. discriminate H.
  - rewrite remove_player_run in H.
    destruct (dict_mem c (players g)); by apply emitted_nil in H.
  - by apply emitted_nil in H.
  - rewrite roll_dice_run in H. case_bool_decide; cbn in H; [|by apply emitted_nil in H].
    apply emitted_singleton in H. discriminate H.
  - unfold query in H. destruct (get_valid_moves g c); by apply emitted_nil in H.
  - eauto.
  - by apply emitted_nil in H.
  - rewrite reset_game_run in H. case_bool_decide; cbn in H; [|by apply emitted_nil in H].
    apply emitted_singleton in H. discriminate H.
Qed.

(** In a game that stands still a call that does not start a game changes
    nothing that matters to play, and the game goes on standing still. *)
Lemma exec_halted c g :
  halted g → ¬ emitted EventType.GAME_STARTED (exec c g).2 →
  halted (exec c g).1.2 ∧ quiet_step (mkStep c (exec c g).1.1 (exec c g).2).
Proof.
  intros Hh Hns.
  assert (Hquiet : ∀ (v : Value),
            (∀ pc id, c = call_move_piece pc id → v = v_bool false) →
            (∀ r, c = call_roll_dice r → v = v_int 0) →
            quiet_step (mkStep c (Returned v) [])).
  { intros v Hm Hr. split_and!; cbn.
    - apply emitted_nil.
    - intros pc id ->. by rewrite (Hm pc id).
    - intros r ->. by rewrite (Hr r). }
  assert (Hnm : game_state g ≠ GameState.MOVING_PIECE) by (destruct Hh as [-> | ->]; done).
  assert (Hnr : game_state g ≠ GameState.ROLLING_DICE) by (destruct Hh as [-> | ->]; done).
  destruct c as [c|c| |r|c|c id| |]; cbn [exec] in *; rewrite ?fmapM_run in *.
  - rewrite add_player_run in *. destruct (dict_mem c (players g)); cbv zeta in *.
    + split; [done|]. by apply Hquiet.
    + case_bool_decide.
      * destruct Hns. apply emitted_singleton. reflexivity.
      * split; [done|]. by apply Hquiet.
  - rewrite remove_player_run. destruct (dict_mem c (players g));
      (split; [done|]); by apply Hquiet.
  - split; [done|]. by apply Hquiet.
  - rewrite roll_dice_run, bool_decide_eq_false_2 by done.
    split; [done|]. apply Hquiet; [done|]. by intros ? _.
  - unfold query. destruct (get_valid_moves g c) as [v|e|]; cbn; (split; [done|]).
    + by apply Hquiet.
    + split_and!; cbn; [apply emitted_nil | done | done].
    + split_and!; cbn; [apply emitted_nil | done | done].
  - rewrite move_piece_wrong_turn by auto.
    split; [done|]. apply Hquiet; [by intros ? ? _ | done].
  - split; [done|]. by apply Hquiet.
  - rewrite reset_game_run in *. case_bool_decide.
    + destruct Hns. apply emitted_singleton. reflexivity.
    + split; [by right|]. by apply Hquiet.
Qed.

Lemma events_cons s steps : events (s :: steps) = step_events s ++ events steps.
Proof. reflexivity. Qed.

Lemma quiet_run cs g :
  halted g → ¬ emitted EventType.GAME_STARTED (events (run cs g).2) →
  Forall quiet_step (run cs g).2.
Proof.
  revert g. induction cs as [|c cs IH]; intros g Hh Hns; [constructor|].
  rewrite run_cons in *. cbn [fst snd] in *. rewrite events_cons in Hns.
  cbn [step_events] in Hns. rewrite emitted_app in Hns.
  destruct (exec_halted c g Hh) as [Hh' Hq]; [tauto|].
  constructor; [done|]. apply IH; [done | tauto].
Qed.

Lemma emitted_count t ev : emitted t ev ↔ count_events t ev ≠ 0%nat.
Proof.
  unfold emitted, count_events. split.
  - intros (e & He & Ht) Hlen.
    assert (Hin : e ∈ filter (λ e, event_type e = t) ev) by by apply list_elem_of_filter.
    destruct (filter _ ev); [by apply elem_of_nil in Hin | done].
  - intros Hlen. destruct (filter _ ev) as [|e l] eqn:E; [done|]. exists e.
    assert (Hin : e ∈ filter (λ e, event_type e = t) ev) by (rewrite E; left).
    apply list_elem_of_filter in Hin as [? ?]. done.
Qed.

Lemma not_emitted_count t ev : ¬ emitted t ev ↔ count_events t ev = 0%nat.
Proof. rewrite emitted_count. lia. Qed.

Lemma count_events_app t ev1 ev2 :
  count_events t (ev1 ++ ev2) = (count_events t ev1 + count_events t ev2)%nat.
Proof. unfold count_events. by rewrite filter_app, length_app. Qed.

Lemma quiet_count steps :
  Forall quiet_step steps → count_events EventType.GAME_OVER (events steps) = 0%nat.
Proof.
  induction 1 as [|s steps Hs _ IH]; [done|].
  rewrite events_cons, count_events_app, IH.
  destruct Hs as [Hs _]. apply not_emitted_count in Hs. lia.
Qed.

(** A call that emits [GAME_OVER] is a successful [move_piece] that has just
    taken the mover's fourth piece home; it emits the event once and leaves
    the game over. *)
Lemma game_over_step c g :
  wf g → emitted EventType.GAME_OVER (exec c g).2 →
  (∃ pc id player player',
     c = call_move_piece pc id
     ∧ (exec c g).1.1 = Returned (v_bool true)
     ∧ count_events EventType.GAME_OVER (exec c g).2 = 1%nat
     ∧ emitted EventType.PIECE_HOME (exec c g).2
     ∧ dict_get pc (players g) = Some player ∧ home_count player = 3
     ∧ dict_get pc (players (exec c g).1.2) = Some player' ∧ home_count player' = 4
     ∧ has_won player' = true)
  ∧ game_state (exec c g).1.2 = GameState.GAME_OVER.
Proof.
  intros Hwf Hover.
  destruct (exec_emits_game_over c g Hover) as (pc & id & ->).
  cbn [exec] in *. rewrite fmapM_run in *.
  destruct (move_piece pc id g) as [[o g1] ev] eqn:Hmove.
  assert (Hev : (match o with
                 | Returned a => (Returned (v_bool a), g1, ev)
                 | Raised e => (Raised e, g1, ev)
                 | Diverged => (Diverged, g1, ev)
                 end).2 = ev) by by destruct o.
  rewrite Hev in Hover.
  destruct (game_over_move g pc id o g1 ev Hwf Hmove Hover)
    as (player & player' & -> & Hcount & Hhome & Hp & Hhc & Hp' & Hhc' & Hwon & Hst).
  cbn [fst snd]. split; [|done].
  exists pc, id, player, player'. split_and!; done.
Qed.

Lemma game_over_count cs g :
  wf g → ¬ emitted EventType.GAME_STARTED (events (run cs g).2) →
  (count_events EventType.GAME_OVER (events (run cs g).2) ≤ 1)%nat.
Proof.
  revert g. induction cs as [|c cs IH]; intros g Hwf Hns; [cbn; lia|].
  rewrite run_cons in *. cbn [fst snd] in *. rewrite events_cons in *.
  cbn [step_events] in *. rewrite emitted_app in Hns. rewrite count_events_app.
  destruct (count_events EventType.GAME_OVER (exec c g).2) as [|k] eqn:Hk.
  - apply IH; [by apply wf_exec | tauto].
  - assert (Hover : emitted EventType.GAME_OVER (exec c g).2)
      by (apply emitted_count; lia).
    destruct (game_over_step c g Hwf Hover) as [(? & ? & ? & ? & _ & _ & Hone & _) Hst].
    rewrite quiet_count; [lia|]. apply quiet_run; [by left | tauto].
Qed.

(** C7: a game runs from one [GAME_STARTED] to the next, [reset_game] and the
    [add_player] that brings the number of players to four starting a fresh
    game.  Let [cs2] be calls made after any calls [cs1], none of which
    starts a game.  Then the calls [cs2] emit at most one [GAME_OVER]; a call
    among them that emits it is a [move_piece] that returns [True] and has
    just taken the mover's fourth piece home, [PIECE_HOME] being emitted with
    it and the mover's count going from 3 to 4; and after that call no
    [GAME_OVER] is emitted, no [move_piece] returns [True] and every
    [roll_dice] returns 0. *)
Theorem game_over_once_per_game (cs1 cs2 : list Call) :
  let g := final cs1 in
  ¬ emitted EventType.GAME_STARTED (events (run cs2 g).2) →
  (count_events EventType.GAME_OVER (events (run cs2 g).2) ≤ 1)%nat
  ∧ ∀ csa c csb,
      cs2 = csa ++ c :: csb →
      let ga := (run csa g).1 in
      let g' := (exec c ga).1.2 in
      emitted EventType.GAME_OVER (exec c ga).2 →
      (∃ pc id player player',
         c = call_move_piece pc id
         ∧ (exec c ga).1.1 = Returned (v_bool true)
         ∧ count_events EventType.GAME_OVER (exec c ga).2 = 1%nat
         ∧ emitted EventType.PIECE_HOME (exec c ga).2
         ∧ dict_get pc (players ga) = Some player ∧ home_count player = 3
         ∧ dict_get pc (players g') = Some player' ∧ home_count player' = 4
         ∧ has_won player' = true)
      ∧ Forall quiet_step (run csb g').2.
Proof.
  intros g Hns. pose proof (wf_final cs1) as Hwf. fold g in Hwf. split.
  - by apply game_over_count.
  - intros csa c csb -> ga g' Hover.
    assert (Hwfa : wf ga) by by apply wf_run.
    destruct (game_over_step c ga Hwfa Hover) as [Hmove Hst]. split; [done|].
    rewrite run_app, run_cons in Hns. cbn [fst snd] in Hns.
    unfold events in Hns. rewrite flat_map_app in Hns. cbn [flat_map] in Hns.
    fold (events (run csa g).2) in Hns. fold ga in Hns. fold g' in Hns.
    fold (events (run csb g').2) in Hns. cbn [step_events] in Hns.
    rewrite !emitted_app in Hns.
    apply quiet_run; [by left | tauto].
Qed.

(** The whole game [full_game] from its start, and a roll and a move tried
    after RED's last move has ended it. *)
Lemma game_over_once_per_game_witness :
  let g := final four_players in
  let cs2 := drop 4 full_game ++ [call_roll_dice F6; call_move_piece RED 0] in
  (count_events EventType.GAME_OVER (events (run cs2 g).2) ≤ 1)%nat
  ∧ ∀ csa c csb,
      cs2 = csa ++ c :: csb →
      let ga := (run csa g).1 in
      let g' := (exec c ga).1.2 in
      emitted EventType.GAME_OVER (exec c ga).2 →
      (∃ pc id player player',
         c = call_move_piece pc id
         ∧ (exec c ga).1.1 = Returned (v_bool true)
         ∧ count_events EventType.GAME_OVER (exec c ga).2 = 1%nat
         ∧ emitted EventType.PIECE_HOME (exec c ga).2
         ∧ dict_get pc (players ga) = Some player ∧ home_count player = 3
         ∧ dict_get pc (players g') = Some player' ∧ home_count player' = 4
         ∧ has_won player' = true)
      ∧ Forall quiet_step (run csb g').2.
Proof.
  apply (game_over_once_per_game four_players
           (drop 4 full_game ++ [call_roll_dice F6; call_move_piece RED 0])).
  apply not_emitted_count. vm_compute. reflexivity.
Defined.

(** [GAME_OVER] ends a game, not the use of the object: a game started
    afterwards is played as any other.  In [full_game] the four colours play
    until RED's fourth piece is home and [GAME_OVER] is emitted; [reset_game]
    then starts a fresh game, in which the first roll returns 6 and RED's
    move succeeds.  In [red_wins_alone] the game is over and the three
    colours that had left join again: the third [add_player] starts a fresh
    game and the next roll returns 6. *)
Lemma play_resumes_after_game_over :
  (count_events EventType.GAME_OVER (events (trace full_game)) = 1%nat
   ∧ game_state (final full_game) = GameState.GAME_OVER
   ∧ outcomes (run [call_reset_game; call_roll_dice F6; call_move_piece RED 0]
                 (final full_game)).2
     = [Returned v_none; Returned (v_int 6); Returned (v_bool true)]
   ∧ count_events EventType.GAME_STARTED
       (events (run [call_reset_game] (final full_game)).2) = 1%nat)
  ∧ (count_events EventType.GAME_OVER (events (trace red_wins_alone)) = 1%nat
     ∧ game_state (final red_wins_alone) = GameState.GAME_OVER
     ∧ outcomes (run [call_add_player GREEN; call_add_player YELLOW;
                      call_add_player BLUE; call_roll_dice F6]
                   (final red_wins_alone)).2
       = [Returned (v_bool true); Returned (v_bool true); Returned (v_bool true);
          Returned (v_int 6)]
     ∧ count_events EventType.GAME_STARTED
         (events (run [call_add_player GREEN; call_add_player YELLOW;
                       call_add_player BLUE] (final red_wins_alone)).2) = 1%nat).
Proof. vm_compute. repeat split. Qed.

(** * Further properties of the engine *)

(** ** What a successful move does to the pieces *)

Lemma all_pieces_lookup g k p j x :
  dict_get k (players g) = Some p → pieces p !! j = Some x → x ∈ all_pieces g.
Proof.
  intros Hp Hj. unfold all_pieces, dict_values.
  apply list_elem_of_In, in_flat_map. exists p. split.
  - apply in_map_iff. exists (k, p). split; [done|]. by apply list_elem_of_In, dict_get_elem.
  - apply list_elem_of_In. by eapply list_elem_of_lookup_2.
Qed.

Lemma find_is_Some {A} (f : A → bool) (l : list A) x :
  x ∈ l → f x = true → is_Some (find f l).
Proof.
  intros Hin Hf. destruct (find f l) eqn:E; [eauto|].
  apply list_elem_of_In in Hin. by rewrite (find_none _ _ E x Hin) in Hf.
Qed.

(** The players after a successful move, colour by colour and piece by
    piece. *)
Lemma move_piece_effect g pc id g' ev :
  wf g → move_piece pc id g = (Returned true, g', ev) →
  ∃ player piece n captured,
    let home := bool_decide (n ∈ home_stretch_positions pc) in
    current_player g = Some pc ∧ game_state g = GameState.MOVING_PIECE
    ∧ dict_get pc (players g) = Some player
    ∧ 0 ≤ id < 4
    ∧ pieces player !! Z.to_nat id = Some piece
    ∧ is_home piece = false
    ∧ _calculate_new_position g piece (dice_value g) = Returned n
    ∧ _is_valid_move g piece n = Returned true
    ∧ captured = _check_capture (set_players (landed pc id n home (players g)) g)
                   (landed_piece n home piece) n
    ∧ (∀ cp, captured = Some cp →
         player_color cp ≠ pc ∧ is_home cp = false ∧ position cp = n
         ∧ (n ∉ safe_positions)
         ∧ ∃ p, dict_get (player_color cp) (players g) = Some p
                ∧ pieces p !! Z.to_nat (piece_id cp) = Some cp)
    ∧ dict_get pc (players g') = Some (moved_player (Z.to_nat id) n home player)
    ∧ (∀ k p' j x',
         dict_get k (players g') = Some p' → pieces p' !! j = Some x' →
         ∃ p x,
           dict_get k (players g) = Some p ∧ pieces p !! j = Some x
           ∧ ((k = pc ∧ j = Z.to_nat id ∧ x = piece ∧ x' = moved_piece n home piece)
              ∨ (captured = Some x ∧ x' = piece_reset x)
              ∨ (x' = x ∧ ¬ (k = pc ∧ j = Z.to_nat id) ∧ captured ≠ Some x))).
Proof.
  intros Hwf Hmove.
  destruct (move_piece_cases g pc id)
    as [(o & ev0 & Hm & Ho & _)
       |(player0 & piece0 & n0 & _ & _ & Hp0 & _ & Hpiece0 & Hn0 & Hv & _)].
  { rewrite Hm in Hmove. by injection Hmove as -> _ _. }
  destruct (move_piece_success _ _ _ _ _ Hwf Hmove)
    as (player & piece & n & evturn & Hcur & Hst & Hid & Hp & Hpiece & Hpok & Hh & Hn
        & Hplayers & Hp' & _ & _ & _).
  rewrite Hp in Hp0. injection Hp0 as <-. rewrite Hpiece in Hpiece0. injection Hpiece0 as <-.
  rewrite Hn in Hn0. injection Hn0 as <-. cbv zeta in *.
  set (home := bool_decide (n ∈ home_stretch_positions pc)) in *.
  set (captured := _check_capture _ _ n) in *.
  exists player, piece, n, captured. cbv zeta. fold home.
  assert (Hcap : ∀ cp, captured = Some cp →
            player_color cp ≠ pc ∧ is_home cp = false ∧ position cp = n
            ∧ (n ∉ safe_positions)
            ∧ ∃ p, dict_get (player_color cp) (players g) = Some p
                   ∧ pieces p !! Z.to_nat (piece_id cp) = Some cp).
  { intros cp Hc.
    assert (Hm : player_color (landed_piece n home piece) = pc).
    { unfold landed_piece. destruct home; cbn; apply Hpok. }
    destruct (captured_location _ _ _ _ _ _ _ _ _ (proj1 Hwf) Hp Hm Hc)
      as (H1 & H2 & H3 & H4).
    apply check_capture_Some in Hc as (_ & _ & H5 & _). done. }
  split_and!; try done; try lia.
  intros k p' j x' Hk Hj. rewrite Hplayers in Hk.
  destruct (decide (k = pc)) as [->|Hne].
  - rewrite (dict_get_settled_mover _ _ _ _ _ _ player) in Hk by (done || apply Hcap).
    injection Hk as <-. unfold moved_player in Hj. cbn [pieces] in Hj.
    exists player. rewrite list_lookup_alter in Hj. case_decide as Hij.
    + subst j. rewrite Hpiece in Hj. injection Hj as <-. exists piece. eauto 10.
    + exists x'. split_and!; try done. right. right. split_and!; [done|by intros [_ ?]|].
      intros Hc. destruct (Hcap _ Hc) as (Hcol & _).
      destruct (proj1 (proj2 (proj2 (proj2 (proj2 (proj2 (proj1 Hwf) _ _ Hp))))) _ _ Hj)
        as (Hx & _). done.
  - rewrite dict_get_settled_other in Hk by done.
    destruct captured as [cp|] eqn:Ecap; cycle 1.
    { exists p', x'. split_and!; try done. right. right. split_and!; [done| |done].
      by intros [? _]. }
    destruct (Hcap cp eq_refl) as (Hcol & Hcph & Hcpn & Hsafe & pcap & Hpcap & Hcpj).
    case_decide as Hck.
    + subst k. rewrite Hpcap in Hk. injection Hk as <-. cbn [pieces set_pieces] in Hj.
      exists pcap. rewrite list_lookup_alter in Hj. case_decide as Hij.
      * subst j. rewrite Hcpj in Hj. injection Hj as <-. exists cp. eauto 10.
      * exists x'. split_and!; try done. right. right. split_and!; [done|by intros [? _]|].
        intros [= ->]. pose proof (proj2 (proj1 Hwf) _ _ Hpcap) as Hokc.
        destruct (proj1 (proj2 (proj2 (proj2 (proj2 Hokc)))) _ _ Hj) as (_ & Hidj & _).
        apply Hij. rewrite Hidj. by rewrite Nat2Z.id.
    + exists p', x'. split_and!; try done. right. right. split_and!; [done|by intros [? _]|].
      intros [= ->]. pose proof (proj2 (proj1 Hwf) _ _ Hk) as Hokc.
      destruct (proj1 (proj2 (proj2 (proj2 (proj2 Hokc)))) _ _ Hj) as (Hcx & _). done.
Qed.

(** ** The game a call leaves behind *)

Lemma exec_game c g :
  (exec c g).1.2
  = match c with
    | call_add_player k => (add_player k g).1.2
    | call_remove_player k => (remove_player k g).1.2
    | call_roll_dice r => (roll_dice r g).1.2
    | call_move_piece k id => (move_piece k id g).1.2
    | call_reset_game => (reset_game g).1.2
    | _ => g
    end.
Proof.
  destruct c as [k|k| |r|k|k id| |]; cbn [exec]; rewrite ?fmapM_run; try done.
  - by destruct (add_player k g) as [[[] ?] ?].
  - by destruct (remove_player k g) as [[[] ?] ?].
  - by destruct (roll_dice r g) as [[[] ?] ?].
  - unfold query. by destruct (get_valid_moves g k).
  - by destruct (move_piece k id g) as [[[] ?] ?].
  - by destruct (reset_game g) as [[[] ?] ?].
Qed.

Lemma exec_events c g :
  (exec c g).2
  = match c with
    | call_add_player k => (add_player k g).2
    | call_remove_player k => (remove_player k g).2
    | call_roll_dice r => (roll_dice r g).2
    | call_move_piece k id => (move_piece k id g).2
    | call_reset_game => (reset_game g).2
    | _ => []
    end.
Proof.
  destruct c as [k|k| |r|k|k id| |]; cbn [exec]; rewrite ?fmapM_run; try done.
  - by destruct (add_player k g) as [[[] ?] ?].
  - by destruct (remove_player k g) as [[[] ?] ?].
  - by destruct (roll_dice r g) as [[[] ?] ?].
  - unfold query. by destruct (get_valid_moves g k).
  - by destruct (move_piece k id g) as [[[] ?] ?].
  - by destruct (reset_game g) as [[[] ?] ?].
Qed.

(** A call other than a successful move leaves every piece where it was or
    puts it at base. *)
Lemma new_player_pieces k j x : pieces (new_player k) !! j = Some x → at_base x.
Proof.
  unfold new_player. cbn [pieces]. intros H.
  destruct j as [|[|[|[|j]]]]; cbn in H; try done; by injection H as <-.
Qed.

Lemma pieces_after_add k0 g k p' j x' :
  dict_get k (players (add_player k0 g).1.2) = Some p' → pieces p' !! j = Some x' →
  (∃ p, dict_get k (players g) = Some p ∧ pieces p !! j = Some x') ∨ at_base x'.
Proof.
  rewrite add_player_run. destruct (dict_mem k0 (players g)) eqn:Hmem; [eauto|].
  cbv zeta. intros Hk Hj.
  assert (Hk' : dict_get k (dict_set k0 (new_player k0) (players g)) = Some p').
  { by case_bool_decide. }
  rewrite dict_get_set in Hk'. case_decide; [|eauto].
  injection Hk' as <-. right. by eapply new_player_pieces.
Qed.

Lemma pieces_after_remove k0 g k p' j x' :
  dict_get k (players (remove_player k0 g).1.2) = Some p' → pieces p' !! j = Some x' →
  ∃ p, dict_get k (players g) = Some p ∧ pieces p !! j = Some x'.
Proof.
  rewrite remove_player_run. destruct (dict_mem k0 (players g)); [|eauto].
  cbn. rewrite dict_get_del. case_decide; [done | eauto].
Qed.

Lemma pieces_after_roll r g : players (roll_dice r g).1.2 = players g.
Proof. rewrite roll_dice_run. by case_bool_decide. Qed.

Lemma pieces_after_reset g k p' j x' :
  dict_get k (players (reset_game g).1.2) = Some p' → pieces p' !! j = Some x' →
  at_base x'.
Proof.
  rewrite reset_game_run. intros Hk Hj.
  assert (Hk' : dict_get k (map (λ kv, (kv.1, reset_player kv.2)) (players g)) = Some p').
  { by case_bool_decide. }
  rewrite dict_get_map in Hk'. destruct (dict_get k (players g)) as [p|]; [|done].
  injection Hk' as <-. unfold reset_player in Hj. cbn [pieces set_home_count set_pieces] in Hj.
  rewrite list_lookup_fmap in Hj. destruct (pieces p !! j); [|done]. by injection Hj as <-.
Qed.

(** ** Phase, current player and dice value *)

Lemma phase_ok_started g : phase_ok (started g).
Proof. unfold phase_ok, started. cbn. split_and!; [split|..]; done. Qed.

Lemma phase_ok_exec c g : wf g → phase_ok g → phase_ok (exec c g).1.2.
Proof.
  intros Hwf Hph. rewrite exec_game.
  destruct c as [k|k| |r|k|k id| |]; try done.
  - rewrite add_player_run. destruct (dict_mem k (players g)); [done|]. cbv zeta.
    case_bool_decide; [apply phase_ok_started | done].
  - rewrite remove_player_run. by destruct (dict_mem k (players g)).
  - rewrite roll_dice_run. case_bool_decide as Hst; [|done].
    destruct Hph as (H1 & _ & _). unfold phase_ok. cbn. split_and!.
    + rewrite H1, Hst. split; done.
    + done.
    + intros _. destruct r; cbn; lia.
  - destruct (move_piece_outcomes g k id Hwf) as [(o & ev & -> & _)|(g' & ev & Hm)]; [done|].
    rewrite Hm. cbn [fst snd].
    destruct (move_piece_success _ _ _ _ _ Hwf Hm)
      as (player & piece & n & evturn & _ & _ & _ & _ & _ & _ & _ & _ & _ & _ & _ & _ & Hturn).
    unfold phase_ok. destruct (has_won _).
    + destruct Hturn as (-> & -> & _). split_and!; [split|..]; done.
    + destruct Hturn as (-> & next & -> & _). split_and!; [split|..]; done.
  - rewrite reset_game_run. case_bool_decide; [apply phase_ok_started|].
    unfold phase_ok, cleared. cbn. split_and!; [split|..]; done.
Qed.

(** ** Where pieces stand *)

Lemma at_base_placed c x : at_base x → piece_placed c x.
Proof.
  intros (Hpos & Hh & Hs). unfold piece_placed. rewrite Hpos, Hs. split; [done | auto].
Qed.

(** The destination of a valid move of a piece that stands where [placed]
    says: the start cell from base, [position + dice] on the track, or a
    cell of the home stretch. *)
Lemma valid_destination g pc player piece i n :
  wf g → dict_get pc (players g) = Some player → pieces player !! i = Some piece →
  piece_placed pc piece →
  _calculate_new_position g piece (dice_value g) = Returned n →
  _is_valid_move g piece n = Returned true →
  (position piece = -1 ∧ dice_value g = 6 ∧ n = _get_start_position pc)
  ∨ (_get_start_position pc ≤ position piece
     ∧ n = position piece + dice_value g ∧ n < board_size)
  ∨ (_get_start_position pc ≤ position piece
     ∧ board_size ≤ position piece + dice_value g
     ∧ n = _get_home_position pc + (position piece + dice_value g - board_size)
     ∧ n ∈ home_stretch_positions pc).
Proof.
  intros Hwf Hp Hi [_ Hpl] Hn Hv.
  pose proof (proj2 (proj1 Hwf) _ _ Hp) as Hok.
  pose proof Hok as (_ & Hstart & Hhome & _ & Hps & _).
  destruct (Hps _ _ Hi) as (Hc & _ & Hrange).
  destruct (is_valid_move_true _ _ _ Hv) as [Hh Hsix].
  rewrite Hh in Hrange. specialize (Hpl Hh).
  pose proof Hp as Hp'. rewrite <- Hc in Hp'.
  destruct (decide (position piece = -1)) as [Hb|Hb].
  - left. specialize (Hsix Hb).
    unfold _calculate_new_position, dict_at in Hn. rewrite Hh, Hb, Hsix, Hp' in Hn.
    cbn in Hn. injection Hn as <-. done.
  - destruct Hpl as [?|Hpl]; [done|].
    rewrite (calculate_new_position_track _ _ player) in Hn by done.
    cbv zeta in Hn. injection Hn as <-. rewrite Hstart, Hhome.
    pose proof (proj2 Hwf) as Hd. unfold board_size in *.
    destruct (position piece + dice_value g <? 52) eqn:E.
    + right. left. lia.
    + right. right. apply Z.ltb_ge in E.
      replace (position piece <? _get_start_position pc) with false by lia.
      cbn [andb]. split_and!; try lia. apply in_home_stretch. lia.
Qed.

Lemma placed_exec c g : wf g → placed g → placed (exec c g).1.2.
Proof.
  intros Hwf Hpl. rewrite exec_game.
  destruct c as [k|k| |r|k|k id| |]; try done; intros c p' j x' Hc Hj.
  - destruct (pieces_after_add _ _ _ _ _ _ Hc Hj) as [(p & Hp & Hx)|Hb].
    + by eapply Hpl. + by apply at_base_placed.
  - destruct (pieces_after_remove _ _ _ _ _ _ Hc Hj) as (p & Hp & Hx). by eapply Hpl.
  - rewrite pieces_after_roll in Hc. by eapply Hpl.
  - destruct (move_piece_outcomes g k id Hwf) as [(o & ev & Hm & _)|(g' & ev & Hm)];
      rewrite Hm in Hc; cbn [fst snd] in Hc; [by eapply Hpl|].
    destruct (move_piece_effect _ _ _ _ _ Hwf Hm)
      as (player & piece & n & captured & _ & _ & Hp & _ & Hpiece & Hh & Hn & Hv & _ & _
          & _ & Hall).
    destruct (Hall _ _ _ _ Hc Hj)
      as (p & x & Hcp & Hx & [(-> & -> & -> & ->)|[(_ & ->)|(-> & _)]]).
    + unfold piece_placed, moved_piece, landed_piece.
      destruct (valid_destination g k player piece _ n Hwf Hp Hpiece (Hpl _ _ _ _ Hp Hpiece)
                  Hn Hv) as [(_ & _ & Hs)|[(Hs & Hs' & Hlt)|(_ & _ & _ & Hs)]].
      * rewrite (bool_decide_eq_false_2 (n ∈ home_stretch_positions k)); cbn; [split; [done|]|].
        -- intros _. right. rewrite Hs. unfold board_size. destruct k; cbn; lia.
        -- rewrite in_home_stretch, Hs. destruct k; cbn; lia.
      * destruct (bool_decide (n ∈ home_stretch_positions k)); cbn; (split; [done|]); [done|].
        intros _. right. pose proof (proj2 Hwf). lia.
      * rewrite (bool_decide_eq_true_2 (n ∈ home_stretch_positions k)) by done. cbn.
        split; [done|]. done.
    + apply at_base_placed. done.
    + by eapply Hpl.
  - apply at_base_placed. by eapply pieces_after_reset.
Qed.

(** ** No two unfinished pieces on a cell that is not safe *)

Lemma start_position_safe c : _get_start_position c ∈ safe_positions.
Proof. destruct c; cbn; unfold safe_positions; repeat constructor. Qed.

Lemma uncrowded_move g pc id g' ev :
  wf g → placed g → uncrowded g →
  move_piece pc id g = (Returned true, g', ev) → uncrowded g'.
Proof.
  intros Hwf Hpl Hun Hm.
  destruct (move_piece_effect _ _ _ _ _ Hwf Hm)
    as (player & piece & n & captured & _ & _ & Hp & Hid & Hpiece & Hh & Hn & Hv & Hcapdef
        & Hcap & _ & Hall).
  cbv zeta in *.
  set (home := bool_decide (n ∈ home_stretch_positions pc)) in *.
  pose proof (proj2 (proj1 Hwf) _ _ Hp) as Hok.
  pose proof Hok as (_ & _ & _ & _ & Hps & _).
  destruct (Hps _ _ Hpiece) as (Hpc & Hpid & _).
  assert (Hlone : ∀ k2 p2 j2 x2,
            dict_get k2 (players g) = Some p2 → pieces p2 !! j2 = Some x2 →
            ¬ (k2 = pc ∧ j2 = Z.to_nat id) → captured ≠ Some x2 →
            is_home x2 = false → position x2 = n → n ∉ safe_positions → False).
  { intros k2 p2 j2 x2 Hk2 Hj2 Hne Hnc Hh2 Hpos Hsafe.
    destruct (decide (k2 = pc)) as [->|Hk].
    - rewrite Hp in Hk2. injection Hk2 as <-.
      destruct (valid_destination g pc player piece _ n Hwf Hp Hpiece
                  (Hpl _ _ _ _ Hp Hpiece) Hn Hv) as [(_ & _ & Hs)|[(Hs & _)|(Hs & _)]].
      { apply Hsafe. rewrite Hs. apply start_position_safe. }
      all: unfold _is_valid_move, dict_at in Hv; rewrite Hh, Hpc, Hp in Hv;
        destruct (position piece =? -1) eqn:E;
        [apply Z.eqb_eq in E; pose proof (start_position_safe pc) as Hst;
         unfold safe_positions in Hst; destruct pc; cbn in Hs; lia|];
        cbn in Hv; injection Hv as Hv; apply negb_true_iff in Hv;
        assert (Hex : existsb (blocks piece n) (pieces player) = true);
        [|by rewrite Hex in Hv];
        apply existsb_exists; exists x2; split;
        [by eapply list_elem_of_In, list_elem_of_lookup_2|];
        destruct (Hps _ _ Hj2) as (Hc2 & Hid2 & _);
        unfold blocks, same_piece; rewrite Hh2, Hpos, Z.eqb_refl;
        replace (piece_id x2 =? piece_id piece) with false;
        [by rewrite andb_false_r|];
        symmetry; apply Z.eqb_neq; rewrite Hid2, Hpid; intros Heq;
        apply Hne; split; [done|]; lia.
    - assert (Hin : x2 ∈ all_pieces (set_players (landed pc id n home (players g)) g)).
      { apply (all_pieces_lookup _ k2 p2 j2); [|done]. cbn [players set_players].
        by rewrite dict_get_landed_other. }
      pose proof (proj2 (proj1 Hwf) _ _ Hk2) as Hok2.
      destruct (proj1 (proj2 (proj2 (proj2 (proj2 Hok2)))) _ _ Hj2) as (Hc2 & Hid2 & _).
      assert (Hcapt : capturable (landed_piece n home piece) n x2 = true).
      { unfold capturable, same_piece.
        assert (Hlc : player_color (landed_piece n home piece) = pc).
        { unfold landed_piece. by destruct home. }
        rewrite Hlc, Hc2, Hh2, Hpos, Z.eqb_refl.
        rewrite (bool_decide_eq_false_2 (k2 = pc)) by done.
        by rewrite (bool_decide_eq_true_2 (k2 ≠ pc)) by done. }
      assert (Hsome : is_Some captured).
      { rewrite Hcapdef. unfold _check_capture.
        rewrite bool_decide_eq_false_2 by done. by eapply find_is_Some. }
      destruct Hsome as [cp Hcp].
      destruct (Hcap _ Hcp) as (_ & Hcph & Hcpn & _ & pcap & Hpcap & Hcpj).
      destruct (valid_destination g pc player piece _ n Hwf Hp Hpiece
                  (Hpl _ _ _ _ Hp Hpiece) Hn Hv) as [(_ & _ & Hs)|[(Hs & Hs' & _)|(_ & _ & _ & Hs)]].
      { apply Hsafe. rewrite Hs. apply start_position_safe. }
      + assert (0 ≤ n).
        { pose proof (proj2 Hwf). destruct pc; cbn in Hs; lia. }
        destruct (Hun _ _ _ _ _ _ _ _ Hk2 Hj2 Hpcap Hcpj Hh2 Hcph) as [Hkk Hjj];
          [congruence | lia | by rewrite Hpos|].
        apply Hnc. rewrite Hcp. f_equal. rewrite <- Hkk in Hpcap.
        rewrite Hk2 in Hpcap. injection Hpcap as <-. rewrite <- Hjj in Hcpj.
        rewrite Hj2 in Hcpj. by injection Hcpj.
      + assert (0 ≤ n).
        { apply in_home_stretch in Hs. destruct pc; cbn in Hs; lia. }
        destruct (Hun _ _ _ _ _ _ _ _ Hk2 Hj2 Hpcap Hcpj Hh2 Hcph) as [Hkk Hjj];
          [congruence | lia | by rewrite Hpos|].
        apply Hnc. rewrite Hcp. f_equal. rewrite <- Hkk in Hpcap.
        rewrite Hk2 in Hpcap. injection Hpcap as <-. rewrite <- Hjj in Hcpj.
        rewrite Hj2 in Hcpj. by injection Hcpj. }
  intros c1 p1 i1 x1 c2 p2 i2 x2 Hc1 Hi1 Hc2 Hi2 Hh1 Hh2 Hpos Hnn Hsafe.
  destruct (Hall _ _ _ _ Hc1 Hi1)
    as (q1 & y1 & Hq1 & Hy1 & [(-> & -> & -> & ->)|[(_ & ->)|(-> & Hne1 & Hnc1)]]);
  destruct (Hall _ _ _ _ Hc2 Hi2)
    as (q2 & y2 & Hq2 & Hy2 & [(-> & -> & -> & ->)|[(_ & ->)|(-> & Hne2 & Hnc2)]]);
  try done; try (cbn in Hnn; lia); try (cbn in Hpos; cbn in Hnn; lia).
  - exfalso. apply (Hlone _ _ _ _ Hq2 Hy2 Hne2 Hnc2 Hh2).
    + rewrite <- Hpos. unfold moved_piece, landed_piece. by destruct home.
    + assert (position (moved_piece n home piece) = n) as <-; [|done].
      unfold moved_piece, landed_piece. by destruct home.
  - exfalso. apply (Hlone _ _ _ _ Hq1 Hy1 Hne1 Hnc1 Hh1).
    + rewrite Hpos. unfold moved_piece, landed_piece. by destruct home.
    + assert (position y1 = n) as <-; [|done].
      rewrite Hpos. unfold moved_piece, landed_piece. by destruct home.
  - by eapply (Hun c1 q1 i1 y1 c2 q2 i2 y2).
Qed.

Lemma uncrowded_exec c g : wf g → placed g → uncrowded g → uncrowded (exec c g).1.2.
Proof.
  intros Hwf Hpl Hun. rewrite exec_game.
  destruct c as [k|k| |r|k|k id| |]; try done.
  - intros c1 p1 i1 x1 c2 p2 i2 x2 Hc1 Hi1 Hc2 Hi2 Hh1 Hh2 Hpos Hnn Hsafe.
    destruct (pieces_after_add _ _ _ _ _ _ Hc1 Hi1) as [(q1 & Hq1 & Hy1)|(Hb & _)]; [|lia].
    destruct (pieces_after_add _ _ _ _ _ _ Hc2 Hi2) as [(q2 & Hq2 & Hy2)|(Hb & _)]; [|lia].
    by eapply (Hun c1 q1 i1 x1 c2 q2 i2 x2).
  - intros c1 p1 i1 x1 c2 p2 i2 x2 Hc1 Hi1 Hc2 Hi2 Hh1 Hh2 Hpos Hnn Hsafe.
    destruct (pieces_after_remove _ _ _ _ _ _ Hc1 Hi1) as (q1 & Hq1 & Hy1).
    destruct (pieces_after_remove _ _ _ _ _ _ Hc2 Hi2) as (q2 & Hq2 & Hy2).
    by eapply (Hun c1 q1 i1 x1 c2 q2 i2 x2).
  - unfold uncrowded. by rewrite pieces_after_roll.
  - destruct (move_piece_outcomes g k id Hwf) as [(o & ev & -> & _)|(g' & ev & Hm)]; [done|].
    rewrite Hm. by eapply uncrowded_move.
  - intros c1 p1 i1 x1 c2 p2 i2 x2 Hc1 Hi1 Hc2 Hi2 Hh1 Hh2 Hpos Hnn Hsafe.
    destruct (pieces_after_reset _ _ _ _ _ Hc1 Hi1) as (Hb & _). lia.
Qed.

(** ** The invariant of all reachable games *)

Lemma inv_new_game : inv new_game.
Proof.
  split_and!.
  - apply wf_new_game.
  - unfold phase_ok. cbn. split_and!; [split|..]; done.
  - intros c p i piece H. done.
  - intros c1 p1 i1 x1 c2 p2 i2 x2 H. done.
Qed.

Lemma inv_exec c g : inv g → inv (exec c g).1.2.
Proof.
  intros (Hwf & Hph & Hpl & Hun). split_and!.
  - by apply wf_exec.
  - by apply phase_ok_exec.
  - by apply placed_exec.
  - by apply uncrowded_exec.
Qed.

Lemma inv_run cs g : inv g → inv (run cs g).1.
Proof.
  revert g. induction cs as [|c cs IH]; intros g Hinv; [done|].
  rewrite run_cons. cbn [fst]. apply IH. by apply inv_exec.
Qed.

Lemma inv_final cs : inv (final cs).
Proof. apply inv_run, inv_new_game. Qed.

(** ** Invariants a user of the engine can rely on *)

(** X1: after any sequence of public operations, there is no current player
    exactly while the game waits for players; while it waits the dice value
    is 0; while a move is awaited the dice value is one of 1..6; and the dice
    value is never outside 0..6. *)
Theorem phase_player_and_dice_agree (cs : list Call) :
  let g := final cs in
  (current_player g = None ↔ game_state g = GameState.WAITING_FOR_PLAYERS)
  ∧ (game_state g = GameState.WAITING_FOR_PLAYERS → dice_value g = 0)
  ∧ (game_state g = GameState.MOVING_PIECE → 1 ≤ dice_value g ≤ 6)
  ∧ 0 ≤ dice_value g ≤ 6.
Proof.
  intros g. destruct (inv_final cs) as ((_ & Hd) & (H1 & H2 & H3) & _). done.
Qed.

(** X2: in every game reached by public operations a piece that is not
    finished is at base or on the track between the start cell of its colour
    and cell 51: no piece is ever found on the cells before its own start
    cell, so no piece ever completes a lap of the board. *)
Theorem unfinished_pieces_stay_on_own_arc (cs : list Call) (c : PlayerColor) (p : Player)
    (piece : Piece) :
  (c, p) ∈ players (final cs) → piece ∈ pieces p → is_home piece = false →
  position piece = -1 ∨ _get_start_position c ≤ position piece ≤ 51.
Proof.
  intros Hcp Hpiece Hh.
  destruct (inv_final cs) as (((Hnd & _) & _) & _ & Hpl & _).
  apply dict_elem_get in Hcp; [|done]. apply list_elem_of_lookup in Hpiece as [i Hi].
  destruct (Hpl _ _ _ _ Hcp Hi) as [_ H]. specialize (H Hh). unfold board_size in H. lia.
Qed.

Lemma unfinished_pieces_stay_on_own_arc_witness :
  position (mkPiece GREEN 0 21 false true) = -1
  ∨ _get_start_position GREEN ≤ position (mkPiece GREEN 0 21 false true) ≤ 51.
Proof.
  apply (unfinished_pieces_stay_on_own_arc red_to_48 GREEN green_at_21).
  - vm_compute. right. left.
  - left.
  - reflexivity.
Defined.

(** X3: in every game reached by public operations the flag [is_safe] of a
    piece is set exactly when the piece stands on one of the safe cells, and
    a piece at the base sentinel -1 is neither finished nor flagged safe. *)
Theorem safe_flag_marks_safe_cells (cs : list Call) (c : PlayerColor) (p : Player)
    (piece : Piece) :
  (c, p) ∈ players (final cs) → piece ∈ pieces p →
  (is_safe piece = true ↔ position piece ∈ safe_positions)
  ∧ (position piece = -1 → is_home piece = false ∧ is_safe piece = false).
Proof.
  intros Hcp Hpiece.
  destruct (inv_final cs) as (((Hnd & Hok) & _) & _ & Hpl & _).
  apply dict_elem_get in Hcp; [|done]. apply list_elem_of_lookup in Hpiece as [i Hi].
  destruct (Hpl _ _ _ _ Hcp Hi) as [Hs _].
  destruct (proj1 (proj2 (proj2 (proj2 (proj2 (Hok _ _ Hcp))))) _ _ Hi) as (_ & _ & Hr).
  split.
  - rewrite Hs. apply bool_decide_eq_true.
  - intros Hb. rewrite Hs, Hb. split; [|done].
    destruct (is_home piece); [|done]. rewrite Hb in Hr.
    apply in_home_stretch in Hr. destruct c; cbn in Hr; lia.
Qed.

Lemma safe_flag_marks_safe_cells_witness :
  (is_safe (mkPiece GREEN 0 21 false true) = true
   ↔ position (mkPiece GREEN 0 21 false true) ∈ safe_positions)
  ∧ (position (mkPiece GREEN 0 21 false true) = -1 →
       is_home (mkPiece GREEN 0 21 false true) = false
       ∧ is_safe (mkPiece GREEN 0 21 false true) = false).
Proof.
  apply (safe_flag_marks_safe_cells red_to_48 GREEN green_at_21).
  - vm_compute. right. left.
  - left.
Defined.

(** X4: in every game reached by public operations two different pieces that
    are not finished never stand on the same track cell unless it is a safe
    cell, so a move onto a cell that is not safe meets at most one piece it
    can capture. *)
Theorem unsafe_cells_hold_one_unfinished_piece (cs : list Call)
    (c1 c2 : PlayerColor) (p1 p2 : Player) (i1 i2 : nat) (x1 x2 : Piece) :
  (c1, p1) ∈ players (final cs) → pieces p1 !! i1 = Some x1 →
  (c2, p2) ∈ players (final cs) → pieces p2 !! i2 = Some x2 →
  is_home x1 = false → is_home x2 = false →
  position x1 = position x2 → 0 ≤ position x1 → position x1 ∉ safe_positions →
  c1 = c2 ∧ i1 = i2.
Proof.
  intros H1 Hi1 H2 Hi2.
  destruct (inv_final cs) as (((Hnd & _) & _) & _ & _ & Hun).
  apply dict_elem_get in H1; [|done]. apply dict_elem_get in H2; [|done].
  by apply (Hun c1 p1 i1 x1 c2 p2 i2 x2).
Qed.

Lemma unsafe_cells_hold_one_unfinished_piece_witness : RED = RED ∧ 0%nat = 0%nat.
Proof.
  apply (unsafe_cells_hold_one_unfinished_piece red_to_48 RED RED red_at_48 red_at_48
           0 0 (piece_on_track RED 0 48) (piece_on_track RED 0 48)).
  - vm_compute. left.
  - reflexivity.
  - vm_compute. left.
  - reflexivity.
  - reflexivity.
  - reflexivity.
  - reflexivity.
  - cbn. lia.
  - cbn. unfold safe_positions. rewrite !not_elem_of_cons. split_and!; try lia.
    apply not_elem_of_nil.
Defined.

(** ** Counting pieces *)

Lemma three_lists_partition ps :
  (∀ x, x ∈ ps → -1 ≤ position x ∧ (is_home x = true → 0 ≤ position x)) →
  (length (filter (λ x, position x = (-1)%Z) ps)
   + length (filter (λ x, (0 ≤ position x)%Z ∧ is_home x = false) ps)
   + length (filter (λ x, is_home x = true) ps) = length ps)%nat.
Proof.
  induction ps as [|x ps IH]; intros H; [done|].
  rewrite !filter_cons. cbn [length].
  assert (IH' := IH (λ y Hy, H y (list_elem_of_further _ _ _ Hy))).
  destruct (H x (list_elem_of_here _ _)) as [Hx1 Hx2].
  destruct (is_home x) eqn:Hh.
  - specialize (Hx2 eq_refl).
    rewrite decide_False by lia. rewrite decide_False by (by intros [_ ?]).
    rewrite decide_True by done. cbn [length]. lia.
  - rewrite (decide_False (P := false = true)) by done.
    destruct (decide (position x = -1)) as [Hb|Hb].
    + rewrite decide_False by lia. cbn [length]. lia.
    + rewrite decide_True by (split; [lia | done]). cbn [length]. lia.
Qed.

(** X5: for every player of a game reached by public operations,
    [home_count] is the number of its finished pieces, [has_won] holds
    exactly when [home_count] is 4, and each of its four pieces is in exactly
    one of the three lists [get_pieces_in_home], [get_pieces_on_board] and
    [get_pieces_in_final_home]. *)
Theorem home_count_counts_finished_pieces (cs : list Call) (c : PlayerColor) (p : Player) :
  (c, p) ∈ players (final cs) →
  home_count p = Z.of_nat (length (get_pieces_in_final_home p))
  ∧ 0 ≤ home_count p ≤ 4
  ∧ (has_won p = true ↔ home_count p = 4)
  ∧ (length (get_pieces_in_home p) + length (get_pieces_on_board p)
     + length (get_pieces_in_final_home p) = 4)%nat
  ∧ ∀ piece, piece ∈ pieces p →
      (piece ∈ get_pieces_in_home p ∧ (piece ∉ get_pieces_on_board p)
       ∧ (piece ∉ get_pieces_in_final_home p))
      ∨ ((piece ∉ get_pieces_in_home p) ∧ piece ∈ get_pieces_on_board p
         ∧ (piece ∉ get_pieces_in_final_home p))
      ∨ ((piece ∉ get_pieces_in_home p) ∧ (piece ∉ get_pieces_on_board p)
         ∧ piece ∈ get_pieces_in_final_home p).
Proof.
  intros Hcp. destruct (wf_final cs) as [[Hnd Hok] _].
  apply dict_elem_get in Hcp; [|done].
  destruct (Hok _ _ Hcp) as (_ & _ & _ & Hlen & Hps & Hcount).
  assert (Hpos : ∀ x, x ∈ pieces p →
            -1 ≤ position x ∧ (is_home x = true → 0 ≤ position x)).
  { intros x [i Hi]%list_elem_of_lookup. destruct (Hps _ _ Hi) as (_ & _ & Hr).
    destruct (is_home x).
    - apply in_home_stretch in Hr. destruct c; cbn in Hr; (split; [lia | intros _; lia]).
    - split; [lia | done]. }
  pose proof (count_home_nonneg (pieces p)) as Hb. rewrite Hlen in Hb.
  split_and!.
  - done.
  - lia.
  - lia.
  - rewrite has_won_count. by rewrite Hcount.
  - unfold get_pieces_in_home, get_pieces_on_board, get_pieces_in_final_home.
    rewrite three_lists_partition by done. done.
  - intros piece Hin. destruct (Hpos _ Hin) as [H1 H2].
    unfold get_pieces_in_home, get_pieces_on_board, get_pieces_in_final_home.
    rewrite !list_elem_of_filter.
    destruct (is_home piece) eqn:Hh.
    + right. right. specialize (H2 eq_refl).
      split; [|split]; [intros [? _]; lia | by intros [[_ ?] _] | done].
    + destruct (decide (position piece = -1)).
      * left. split; [|split]; [done | intros [[? _] _]; lia | by intros [? _]].
      * right. left.
        split; [|split]; [by intros [? _] | split; [split; [lia | done] | done]
                         | by intros [? _]].
Qed.

Lemma home_count_counts_finished_pieces_witness :
  home_count red_at_48 = Z.of_nat (length (get_pieces_in_final_home red_at_48))
  ∧ 0 ≤ home_count red_at_48 ≤ 4
  ∧ (has_won red_at_48 = true ↔ home_count red_at_48 = 4)
  ∧ (length (get_pieces_in_home red_at_48) + length (get_pieces_on_board red_at_48)
     + length (get_pieces_in_final_home red_at_48) = 4)%nat
  ∧ ∀ piece, piece ∈ pieces red_at_48 →
      (piece ∈ get_pieces_in_home red_at_48 ∧ (piece ∉ get_pieces_on_board red_at_48)
       ∧ (piece ∉ get_pieces_in_final_home red_at_48))
      ∨ ((piece ∉ get_pieces_in_home red_at_48) ∧ piece ∈ get_pieces_on_board red_at_48
         ∧ (piece ∉ get_pieces_in_final_home red_at_48))
      ∨ ((piece ∉ get_pieces_in_home red_at_48) ∧ (piece ∉ get_pieces_on_board red_at_48)
         ∧ piece ∈ get_pieces_in_final_home red_at_48).
Proof.
  apply (home_count_counts_finished_pieces red_to_48 RED red_at_48).
  vm_compute. left.
Defined.

(** ** Legal moves and accepted moves *)

Lemma get_valid_moves_run g pc player :
  wf g → current_player g = Some pc → game_state g = GameState.MOVING_PIECE →
  dict_get pc (players g) = Some player →
  ∃ moves,
    get_valid_moves g pc = Returned moves
    ∧ ∀ piece n,
        (piece, n) ∈ moves
        ↔ piece ∈ pieces player
          ∧ _calculate_new_position g piece (dice_value g) = Returned n
          ∧ _is_valid_move g piece n = Returned true.
Proof.
  intros Hwf Hcur Hst Hp.
  pose proof (proj2 (proj1 Hwf) _ _ Hp) as Hok.
  pose proof Hok as (_ & _ & _ & _ & Hps & _).
  destruct (valid_moves_loop_spec g (pieces player)) as (moves & Hloop & _ & Hmem).
  { intros piece [i Hi]%list_elem_of_lookup_1.
    destruct (calculate_new_position_returns g pc player piece i Hp (Hps _ _ Hi)) as [n Hn].
    destruct (is_valid_move_returns g pc player piece i n Hp (Hps _ _ Hi)) as [b Hb].
    eauto. }
  exists moves. split; [|done].
  unfold get_valid_moves, dict_at.
  rewrite bool_decide_eq_false_2, bool_decide_eq_false_2 by (by intros ?).
  by rewrite Hp.
Qed.

Lemma get_valid_moves_off_turn g pc :
  current_player g ≠ Some pc ∨ game_state g ≠ GameState.MOVING_PIECE →
  get_valid_moves g pc = Returned [].
Proof.
  intros H. unfold get_valid_moves. destruct H as [H|H].
  - by rewrite (bool_decide_eq_true_2 _ H).
  - by rewrite (bool_decide_eq_true_2 (game_state g ≠ _) H), orb_true_r.
Qed.

Lemma get_valid_moves_missing g pc :
  mover_missing g pc → get_valid_moves g pc = Raised KeyError.
Proof.
  intros (Hcur & Hst & Hmem%dict_mem_false). unfold get_valid_moves, dict_at.
  rewrite bool_decide_eq_false_2, bool_decide_eq_false_2 by (by intros ?).
  by rewrite Hmem.
Qed.

Lemma move_piece_missing g pc id :
  mover_missing g pc → move_piece pc id g = (Raised KeyError, g, []).
Proof.
  intros (Hcur & Hst & Hmem%dict_mem_false). rewrite move_piece_guarded by done.
  rewrite (bind_query_raised _ _ _ KeyError); [done|]. unfold dict_at. by rewrite Hmem.
Qed.

(** With its player present, [move_piece] returns, and its answer says
    whether the chosen piece has a valid destination. *)
Lemma move_piece_answer g pc id player :
  wf g → current_player g = Some pc → game_state g = GameState.MOVING_PIECE →
  dict_get pc (players g) = Some player →
  (∃ ev, move_piece pc id g = (Returned false, g, ev)
         ∧ ∀ piece n, pieces player !! Z.to_nat id = Some piece → 0 ≤ id < 4 →
             _calculate_new_position g piece (dice_value g) = Returned n →
             _is_valid_move g piece n = Returned false)
  ∨ (∃ g' ev piece n,
       move_piece pc id g = (Returned true, g', ev)
       ∧ 0 ≤ id < 4 ∧ pieces player !! Z.to_nat id = Some piece
       ∧ _calculate_new_position g piece (dice_value g) = Returned n
       ∧ _is_valid_move g piece n = Returned true).
Proof.
  intros Hwf Hcur Hst Hp.
  pose proof (proj2 (proj1 Hwf) _ _ Hp) as Hok.
  pose proof Hok as (_ & _ & _ & Hlen & Hps & _).
  destruct (decide (0 ≤ id < 4)) as [Hid|Hid]; cycle 1.
  { left. exists []. split; [|intros; lia].
    apply (move_piece_out_of_range _ _ _ player); (done || lia). }
  destruct (lookup_lt_is_Some_2 (pieces player) (Z.to_nat id)) as [piece Hpiece]; [lia|].
  destruct (calculate_new_position_returns g pc player piece _ Hp (Hps _ _ Hpiece)) as [n Hn].
  destruct (is_valid_move_returns g pc player piece _ n Hp (Hps _ _ Hpiece)) as [b Hb].
  pose proof (move_piece_valid_cases g pc id player piece n b Hcur Hst Hp Hid Hpiece Hn Hb)
    as Hm.
  destruct b.
  - right.
    destruct (execute_move_run pc id piece n g player Hcur Hp (proj1 (Hps _ _ Hpiece)))
      as (? & gfinal & ? & _ & Hrun & _).
    rewrite Hrun in Hm. eauto 10.
  - left. eexists. split; [exact Hm|]. intros piece' n' Hpiece' _ Hn'.
    rewrite Hpiece in Hpiece'. injection Hpiece' as <-. rewrite Hn in Hn'.
    by injection Hn' as <-.
Qed.

(** X6: in every game reached by public operations, [move_piece] of a colour
    and a piece index returns [True] exactly when [get_valid_moves] of that
    colour lists the piece with that index: a listed move is never refused,
    and a move that is not listed is never made. *)
Theorem move_succeeds_iff_listed (cs : list Call) (pc : PlayerColor) (id : Z) :
  let g := final cs in
  (move_piece pc id g).1.1 = Returned true
  ↔ ∃ moves piece n,
      get_valid_moves g pc = Returned moves ∧ (piece, n) ∈ moves ∧ piece_id piece = id.
Proof.
  intros g. pose proof (wf_final cs) as Hwf. fold g in Hwf.
  destruct (decide (current_player g = Some pc ∧ game_state g = GameState.MOVING_PIECE))
    as [[Hcur Hst]|Hoff]; cycle 1.
  { assert (Hoff' : current_player g ≠ Some pc ∨ game_state g ≠ GameState.MOVING_PIECE).
    { destruct (decide (current_player g = Some pc)); [right|left]; tauto. }
    rewrite move_piece_wrong_turn, get_valid_moves_off_turn by done. cbn. split; [done|].
    intros (moves & piece & n & [= <-] & Hin & _). by apply elem_of_nil in Hin. }
  destruct (dict_get pc (players g)) as [player|] eqn:Hp; cycle 1.
  { assert (Hmiss : mover_missing g pc) by (split_and!; [done..|by apply dict_mem_false]).
    rewrite move_piece_missing, get_valid_moves_missing by done. cbn. split; [done|].
    by intros (moves & piece & n & [=] & _). }
  pose proof (proj2 (proj1 Hwf) _ _ Hp) as Hok.
  pose proof Hok as (_ & _ & _ & Hlen & Hps & _).
  destruct (get_valid_moves_run g pc player Hwf Hcur Hst Hp) as (moves & Hmoves & Hmem).
  rewrite Hmoves.
  destruct (move_piece_answer g pc id player Hwf Hcur Hst Hp)
    as [(ev & Hm & Hno)|(g' & ev & piece & n & Hm & Hid & Hpiece & Hn & Hv)];
    rewrite Hm; cbn [fst snd].
  - split; [done|]. intros (moves' & piece & n & [= <-] & Hin & Hpid).
    apply Hmem in Hin as ([i Hi]%list_elem_of_lookup_1 & Hn & Hv).
    destruct (Hps _ _ Hi) as (_ & Hidi & _).
    assert (i < 4)%nat by (rewrite <- Hlen; by eapply lookup_lt_Some).
    assert (Hi' : pieces player !! Z.to_nat id = Some piece).
    { rewrite <- Hpid, Hidi. by rewrite Nat2Z.id. }
    rewrite (Hno piece n Hi') in Hv by (done || lia). done.
  - split; [|done]. intros _. exists moves, piece, n. split_and!; try done.
    + apply Hmem. split_and!; try done. by eapply list_elem_of_lookup_2.
    + destruct (Hps _ _ Hpiece) as (_ & -> & _). lia.
Qed.

(** ** A turn without a valid move *)

Lemma stalled_exec g pc c :
  wf g → current_player g = Some pc → game_state g = GameState.MOVING_PIECE →
  get_valid_moves g pc = Returned [] → plays c = true →
  (exec c g).1.2 = g ∧ quiet_step (mkStep c (exec c g).1.1 (exec c g).2).
Proof.
  intros Hwf Hcur Hst Hnone Hplays.
  assert (Hquiet : ∀ (o : outcome Value),
            (∀ k id, c = call_move_piece k id → o = Returned (v_bool false)) →
            (∀ r, c = call_roll_dice r → o = Returned (v_int 0)) →
            quiet_step (mkStep c o [])).
  { intros o Hm Hr. split_and!; cbn; [apply emitted_nil | done | done]. }
  destruct c as [k|k| |r|k|k id| |]; try discriminate Hplays; cbn [exec];
    rewrite ?fmapM_run.
  - split; [done|]. by apply Hquiet.
  - rewrite roll_dice_run, bool_decide_eq_false_2 by (rewrite Hst; done).
    split; [done|]. apply Hquiet; [done|]. by intros ? _.
  - unfold query. destruct (get_valid_moves g k); (split; [done|]); by apply Hquiet.
  - destruct (decide (k = pc)) as [->|Hk]; cycle 1.
    { rewrite move_piece_wrong_turn by (left; congruence).
      split; [done|]. apply Hquiet; [by intros ? ? _ | done]. }
    destruct (dict_get pc (players g)) as [player|] eqn:Hp; cycle 1.
    { rewrite get_valid_moves_missing in Hnone; [done|].
      split_and!; [done..|by apply dict_mem_false]. }
    destruct (get_valid_moves_run g pc player Hwf Hcur Hst Hp) as (moves & Hmoves & Hmem).
    rewrite Hnone in Hmoves. injection Hmoves as <-.
    destruct (move_piece_answer g pc id player Hwf Hcur Hst Hp)
      as [(ev & Hm & _)|(g' & ev & piece & n & _ & _ & Hpiece & Hn & Hv)].
    + rewrite Hm. split; [done|]. cbn [fst snd].
      destruct (move_piece_false_inv _ _ _ _ _ Hm) as [_ [->|[-> _]]].
      * apply Hquiet; [by intros ? ? _ | done].
      * split_and!; cbn; [|by intros ? ? _ | done].
        rewrite emitted_singleton. done.
    + exfalso. eapply elem_of_nil. apply (Hmem piece n). split_and!; try done.
      by eapply list_elem_of_lookup_2.
  - split; [done|]. by apply Hquiet.
Qed.

(** X7: the engine has no operation to pass.  When, in a game reached by
    public operations, the current player has rolled and [get_valid_moves]
    is empty, then whatever calls of [roll_dice], [move_piece],
    [get_valid_moves], [get_game_state] and [add_event_listener] follow, the
    game stays exactly as it is: every roll returns 0 and every move returns
    [False].  Only [_next_turn], which the callers of the engine invoke
    themselves, hands the dice on. *)
Theorem turn_without_valid_move_stalls (cs cs' : list Call) (pc : PlayerColor) :
  let g := final cs in
  current_player g = Some pc → game_state g = GameState.MOVING_PIECE →
  get_valid_moves g pc = Returned [] →
  Forall (λ c, plays c = true) cs' →
  (run cs' g).1 = g
  ∧ Forall quiet_step (run cs' g).2
  ∧ game_state (_next_turn g).1.2 = GameState.ROLLING_DICE.
Proof.
  intros g Hcur Hst Hnone Hplays. pose proof (wf_final cs) as Hwf. fold g in Hwf.
  split_and!.
  - induction Hplays as [|c cs' Hc _ IH]; [done|].
    rewrite run_cons. cbn [fst].
    destruct (stalled_exec g pc c Hwf Hcur Hst Hnone Hc) as [-> _]. exact IH.
  - induction Hplays as [|c cs' Hc _ IH]; [constructor|].
    rewrite run_cons. cbn [snd].
    destruct (stalled_exec g pc c Hwf Hcur Hst Hnone Hc) as [Hg Hq].
    constructor; [done|]. by rewrite Hg.
  - destruct (next_turn_run g pc Hcur) as [next ->]. reflexivity.
Qed.

(** After the start RED rolls a 1: all its pieces are at base. *)
Lemma turn_without_valid_move_stalls_witness :
  let g := final (four_players ++ [call_roll_dice F1]) in
  let cs' := [call_roll_dice F6; call_move_piece RED 0; call_get_valid_moves RED;
              call_move_piece GREEN 0; call_get_game_state; call_roll_dice F6] in
  (run cs' g).1 = g
  ∧ Forall quiet_step (run cs' g).2
  ∧ game_state (_next_turn g).1.2 = GameState.ROLLING_DICE.
Proof.
  apply (turn_without_valid_move_stalls (four_players ++ [call_roll_dice F1]) _ RED).
  - reflexivity.
  - reflexivity.
  - reflexivity.
  - repeat constructor.
Defined.

(** ** Exceptions *)

(** X8: on a game reached by public operations a public operation raises in
    one situation only: [get_valid_moves] and [move_piece] for the current
    player raise [KeyError] when that player was removed after its roll,
    whatever the piece index, and leave the game untouched and emit nothing.
    Every other call returns. *)
Theorem only_a_removed_mover_raises (cs : list Call) (c : Call) :
  let g := final cs in
  let orphaned :=
    ∃ pc, mover_missing g pc
          ∧ (c = call_get_valid_moves pc ∨ ∃ id, c = call_move_piece pc id) in
  (orphaned → exec c g = (Raised KeyError, g, []))
  ∧ (¬ orphaned → ∃ v, (exec c g).1.1 = Returned v).
Proof.
  intros g orphaned. pose proof (wf_final cs) as Hwf. fold g in Hwf. split.
  - intros (pc & Hmiss & [->|[id ->]]); cbn [exec]; rewrite fmapM_run.
    + unfold query. by rewrite get_valid_moves_missing.
    + by rewrite move_piece_missing.
  - intros Hno.
    assert (Hpresent : ∀ pc,
              (c = call_get_valid_moves pc ∨ ∃ id, c = call_move_piece pc id) →
              current_player g = Some pc → game_state g = GameState.MOVING_PIECE →
              ∃ player, dict_get pc (players g) = Some player).
    { intros pc Hc Hcur Hst. destruct (dict_get pc (players g)) eqn:Hp; [eauto|].
      destruct Hno. exists pc. split; [|done]. split_and!; [done..|by apply dict_mem_false]. }
    destruct c as [k|k| |r|k|k id| |]; cbn [exec]; rewrite ?fmapM_run.
    + rewrite add_player_run. destruct (dict_mem k (players g)); [eauto|].
      cbv zeta. case_bool_decide; eauto.
    + rewrite remove_player_run. destruct (dict_mem k (players g)); eauto.
    + eauto.
    + rewrite roll_dice_run. case_bool_decide; eauto.
    + unfold query.
      destruct (decide (current_player g = Some k ∧ game_state g = GameState.MOVING_PIECE))
        as [[Hcur Hst]|Hoff].
      * destruct (Hpresent k (or_introl eq_refl) Hcur Hst) as [player Hp].
        destruct (get_valid_moves_run g k player Hwf Hcur Hst Hp) as (moves & -> & _). eauto.
      * rewrite get_valid_moves_off_turn; [eauto|].
        destruct (decide (current_player g = Some k)); [right|left]; tauto.
    + destruct (decide (current_player g = Some k ∧ game_state g = GameState.MOVING_PIECE))
        as [[Hcur Hst]|Hoff].
      * destruct (Hpresent k (or_intror (ex_intro _ id eq_refl)) Hcur Hst) as [player Hp].
        destruct (move_piece_answer g k id player Hwf Hcur Hst Hp)
          as [(ev & -> & _)|(g' & ev & piece & n & -> & _)]; eauto.
      * rewrite move_piece_wrong_turn; [eauto|].
        destruct (decide (current_player g = Some k)); [right|left]; tauto.
    + eauto.
    + rewrite reset_game_run. case_bool_decide; eauto.
Qed.

(** RED rolls and is removed: its move raises. *)
Lemma only_a_removed_mover_raises_witness :
  let g := final (four_players ++ [call_roll_dice F6; call_remove_player RED]) in
  exec (call_move_piece RED 0) g = (Raised KeyError, g, []).
Proof.
  intros g.
  apply (proj1 (only_a_removed_mover_raises
                  (four_players ++ [call_roll_dice F6; call_remove_player RED])
                  (call_move_piece RED 0))).
  exists RED. split; [|right; by exists 0]. split_and!; reflexivity.
Defined.

(** ** The order of turns *)

Lemma skip_winners_exact g cur :
  obind (skip_winners 4 g (player_order_index cur)
           ((player_order_index cur + 1) `mod` 4))
    (list_at player_order) = Returned (next_player g cur).
Proof.
  unfold next_player, in_play.
  destruct cur; cbn [player_order_index followers];
    rewrite !filter_cons, filter_nil;
    repeat (cbn [skip_winners obind]; eval_closed; cbn [skip_winners obind];
            try match goal with
              | |- context [dict_get ?c (players g)] =>
                  destruct (dict_get c (players g)) as [?p|]
              end;
            try match goal with
              | |- context [has_won ?p] => destruct (has_won p); cbn [negb]
              end);
    reflexivity.
Qed.

Lemma next_turn_exact g cur :
  current_player g = Some cur →
  _next_turn g
  = (Returned tt,
     set_game_state GameState.ROLLING_DICE
       (set_current_player (Some (next_player g cur)) g),
     [turn_event (next_player g cur)]).
Proof.
  intros Hcur. unfold _next_turn. rewrite bind_get, Hcur.
  pose proof (skip_winners_exact g cur) as Hnext.
  destruct (skip_winners 4 g _ _) as [k| |] eqn:E; try discriminate Hnext.
  cbn [obind] in Hnext.
  rewrite (bind_query _ _ _ k) by done.
  rewrite (bind_query _ _ _ (next_player g cur)) by done.
  reflexivity.
Qed.

Lemma next_player_players g1 g2 c :
  players g1 = players g2 → next_player g1 c = next_player g2 c.
Proof. intros H. unfold next_player, in_play. by rewrite H. Qed.

Lemma next_player_in_play g c : in_play g c = true → in_play g (next_player g c) = true.
Proof.
  intros Hc. unfold next_player.
  destruct (head (filter (λ k, in_play g k = true) (followers c))) as [k|] eqn:E; [|done].
  apply head_Some_elem_of in E. by apply list_elem_of_filter in E as [? _].
Qed.

Lemma next_player_self g c :
  next_player g c = c ↔ ∀ k, k ≠ c → in_play g k = false.
Proof.
  unfold next_player. split.
  - intros H k Hk. destruct (in_play g k) eqn:Ek; [|done]. exfalso.
    assert (Hin : k ∈ filter (λ k, in_play g k = true) (followers c)).
    { apply list_elem_of_filter. split; [done|]. destruct c, k; try done; repeat constructor. }
    destruct (filter _ (followers c)) as [|k' l] eqn:E; [by apply elem_of_nil in Hin|].
    cbn in H. subst k'.
    assert (Hc : c ∈ followers c).
    { apply (list_elem_of_filter (λ k, in_play g k = true)). rewrite E. left. }
    destruct c; repeat (apply elem_of_cons in Hc as [Hc|Hc]; [done|]);
      by apply elem_of_nil in Hc.
  - intros H.
    destruct (filter (λ k, in_play g k = true) (followers c)) as [|k l] eqn:E; [done|].
    exfalso.
    assert (Hk : k ∈ filter (λ k, in_play g k = true) (followers c)) by (rewrite E; left).
    apply list_elem_of_filter in Hk as [Hplay Hk].
    rewrite H in Hplay; [done|]. intros ->.
    destruct c; repeat (apply elem_of_cons in Hk as [Hk|Hk]; [done|]);
      by apply elem_of_nil in Hk.
Qed.

(** The game a move leaves when its player has not won: the turn goes to
    [next_player]. *)
Lemma execute_move_next pc id piece n g player :
  current_player g = Some pc →
  dict_get pc (players g) = Some player →
  player_color piece = pc →
  let home := negb (n <? home_position player)
              && bool_decide (n ∈ home_stretch_positions pc) in
  let d2 := landed pc id n home (players g) in
  let piece2 := landed_piece n home piece in
  let captured := _check_capture (set_players d2 g) piece2 n in
  let d4 := settled pc id n (captured_players captured d2) in
  ∀ player4,
    dict_get pc d4 = Some player4 → has_won player4 = false →
    (execute_move pc id piece n g).1.2
    = set_game_state GameState.ROLLING_DICE
        (set_current_player (Some (next_player (set_players d4 g) pc)) (set_players d4 g)).
Proof.
  intros Hcur Hp Hpc. cbv zeta.
  remember (negb (n <? home_position player)
            && bool_decide (n ∈ home_stretch_positions pc)) as home eqn:Hhome.
  remember (_check_capture (set_players (landed pc id n home (players g)) g)
              (landed_piece n home piece) n) as captured eqn:Hcap.
  set (d4 := settled pc id n (captured_players captured (landed pc id n home (players g)))).
  intros player4 Hp4 Hwon.
  assert (Hfinal : _is_in_final_home
            (set_players (alter_piece (set_position n) (pc, id) (players g)) g)
            (set_position n piece) = Returned home).
  { erewrite is_in_final_home_eq; cycle 1.
    - cbn [players set_players player_color set_position]. rewrite Hpc.
      rewrite dict_get_alter_piece. cbn [fst]. rewrite decide_True by done.
      rewrite Hp. reflexivity.
    - cbn [position set_position home_position set_pieces player_color]. by rewrite Hpc, Hhome. }
  eassert (Hrun : execute_move pc id piece n g = (Returned true, _, _)).
  { run_execute_move_prefix Hfinal Hcap Hp4. rewrite Hwon.
    eapply bind_run; [|reflexivity].
    match goal with
    | |- _next_turn ?G = _ => change G with (set_players d4 g)
    end.
    by apply next_turn_exact. }
  rewrite Hrun. reflexivity.
Qed.

(** How a successful move ends: with the game over and the mover the
    winner, or with the turn handed to [next_player]. *)
Lemma move_piece_turn g pc id g' ev :
  wf g → move_piece pc id g = (Returned true, g', ev) →
  dict_keys (players g') = dict_keys (players g)
  ∧ ∃ player',
      dict_get pc (players g') = Some player'
      ∧ if has_won player'
        then game_state g' = GameState.GAME_OVER ∧ current_player g' = Some pc
        else game_state g' = GameState.ROLLING_DICE
             ∧ current_player g' = Some (next_player g' pc)
             ∧ last ev = Some (turn_event (next_player g' pc)).
Proof.
  intros Hwf Hmove.
  destruct (move_piece_cases g pc id)
    as [(o & ev0 & Hm & Ho & _)
       |(player0 & piece0 & n0 & Hcur & _ & Hp0 & _ & Hpiece0 & Hn0 & Hv & Hexec)].
  { rewrite Hm in Hmove. by injection Hmove as -> _ _. }
  destruct (move_piece_success _ _ _ _ _ Hwf Hmove)
    as (player & piece & n & evturn & _ & _ & _ & Hp & Hpiece & Hpok & _ & Hn
        & Hplayers & Hp' & _ & Hev & Hturn).
  rewrite Hp in Hp0. injection Hp0 as <-. rewrite Hpiece in Hpiece0. injection Hpiece0 as <-.
  rewrite Hn in Hn0. injection Hn0 as <-. cbv zeta in *.
  pose proof (proj2 (proj1 Hwf) _ _ Hp) as Hok.
  split; [by rewrite Hplayers, dict_keys_settled|].
  eexists. split; [exact Hp'|].
  destruct (has_won (moved_player _ n _ player)) eqn:Hwon.
  { destruct Hturn as (Hst & Hc & _). done. }
  destruct Hturn as (Hst & next & Hnext & ->).
  pose proof (execute_move_next pc id piece n g player Hcur Hp (proj1 Hpok)) as Hexact.
  cbv zeta in Hexact. rewrite (home_test_eq _ _ _ Hok) in Hexact.
  rewrite <- Hplayers in Hexact. specialize (Hexact _ Hp' Hwon).
  rewrite <- Hexec, Hmove in Hexact. cbn [fst snd] in Hexact.
  assert (Hsame : next_player (set_players (players g') g) pc = next_player g' pc)
    by by apply next_player_players.
  rewrite Hsame in Hexact.
  assert (Hnext' : next = next_player g' pc).
  { rewrite Hexact in Hnext. cbn in Hnext. by injection Hnext. }
  subst next. split_and!; try done.
  rewrite Hev, !app_assoc. apply last_snoc.
Qed.

(** X9: when a move succeeds and does not end the game, the turn goes to the
    first colour after the mover, in the fixed order RED, GREEN, YELLOW, BLUE
    taken round, that is a player and has not won; the mover keeps the turn
    only when there is no such colour.  A roll of 6 earns no second turn.
    The phase is [ROLLING_DICE] and the last event of the move announces the
    new current player. *)
Theorem turn_passes_in_fixed_order (cs : list Call) (pc : PlayerColor) (id : Z)
    (g' : LudoGame) (ev : list GameEvent) :
  move_piece pc id (final cs) = (Returned true, g', ev) →
  game_state g' ≠ GameState.GAME_OVER →
  current_player g' = Some (next_player g' pc)
  ∧ game_state g' = GameState.ROLLING_DICE
  ∧ last ev = Some (turn_event (next_player g' pc))
  ∧ in_play g' (next_player g' pc) = true
  ∧ (next_player g' pc = pc ↔ ∀ k, k ≠ pc → in_play g' k = false).
Proof.
  intros Hmove Hnot.
  destruct (move_piece_turn _ _ _ _ _ (wf_final cs) Hmove) as (_ & player' & Hp' & Hturn).
  destruct (has_won player') eqn:Hwon; [by destruct Hturn|].
  destruct Hturn as (Hst & Hcur & Hlast).
  assert (Hplay : in_play g' pc = true).
  { unfold in_play. by rewrite Hp', Hwon. }
  split_and!; try done.
  - by apply next_player_in_play.
  - apply next_player_self.
Qed.

(** RED's first move after the four colours have joined and RED rolled a 6:
    GREEN is next. *)
Lemma turn_passes_in_fixed_order_witness :
  let g := final (four_players ++ [call_roll_dice F6]) in
  let g' := (move_piece RED 0 g).1.2 in
  let ev := (move_piece RED 0 g).2 in
  current_player g' = Some (next_player g' RED)
  ∧ game_state g' = GameState.ROLLING_DICE
  ∧ last ev = Some (turn_event (next_player g' RED))
  ∧ in_play g' (next_player g' RED) = true
  ∧ (next_player g' RED = RED ↔ ∀ k, k ≠ RED → in_play g' k = false).
Proof.
  apply (turn_passes_in_fixed_order (four_players ++ [call_roll_dice F6]) RED 0).
  - vm_compute. reflexivity.
  - vm_compute. discriminate.
Defined.

(** ** Captures *)

Lemma check_capture_landed g pc id n home moving k p j x :
  wf g → player_color moving = pc → k ≠ pc →
  dict_get k (players g) = Some p → pieces p !! j = Some x →
  is_home x = false → position x = n → n ∉ safe_positions →
  is_Some (_check_capture (set_players (landed pc id n home (players g)) g) moving n).
Proof.
  intros Hwf Hm Hk Hp Hj Hh Hpos Hsafe.
  assert (Hin : x ∈ all_pieces (set_players (landed pc id n home (players g)) g)).
  { apply (all_pieces_lookup _ k p j); [|done]. cbn [players set_players].
    by rewrite dict_get_landed_other. }
  pose proof (proj2 (proj1 Hwf) _ _ Hp) as Hok.
  destruct (proj1 (proj2 (proj2 (proj2 (proj2 Hok)))) _ _ Hj) as (Hc & _).
  unfold _check_capture. rewrite bool_decide_eq_false_2 by done.
  eapply find_is_Some; [done|]. unfold capturable, same_piece.
  rewrite Hm, Hc, Hh, Hpos, Z.eqb_refl.
  rewrite (bool_decide_eq_false_2 (k = pc)) by done.
  by rewrite (bool_decide_eq_true_2 (k ≠ pc)) by done.
Qed.

(** X10: a successful move captures exactly when its destination is not a
    safe cell and a piece of another colour that is not finished stands on
    it.  The capture emits one [PIECE_CAPTURED] event naming the captured and
    the capturing piece, puts the captured piece back at base with both flags
    cleared, and changes nothing else of any other colour; without a capture
    no other colour's player changes at all. *)
Theorem capture_resets_the_piece_met (cs : list Call) (pc : PlayerColor) (id : Z)
    (g' : LudoGame) (ev : list GameEvent) :
  let g := final cs in
  move_piece pc id g = (Returned true, g', ev) →
  ∃ player piece n,
    dict_get pc (players g) = Some player
    ∧ pieces player !! Z.to_nat id = Some piece
    ∧ _calculate_new_position g piece (dice_value g) = Returned n
    ∧ (emitted EventType.PIECE_CAPTURED ev
       ↔ (n ∉ safe_positions)
         ∧ ∃ x, x ∈ all_pieces g ∧ player_color x ≠ pc
                ∧ is_home x = false ∧ position x = n)
    ∧ (emitted EventType.PIECE_CAPTURED ev →
       ∃ victim p p',
         count_events EventType.PIECE_CAPTURED ev = 1%nat
         ∧ mkEvent EventType.PIECE_CAPTURED
             (data_captured (str_piece victim) (pc, id)) (Some pc) ∈ ev
         ∧ player_color victim ≠ pc ∧ is_home victim = false ∧ position victim = n
         ∧ dict_get (player_color victim) (players g) = Some p
         ∧ pieces p !! Z.to_nat (piece_id victim) = Some victim
         ∧ dict_get (player_color victim) (players g') = Some p'
         ∧ pieces p' = alter piece_reset (Z.to_nat (piece_id victim)) (pieces p)
         ∧ home_count p' = home_count p
         ∧ ∀ k, k ≠ pc → k ≠ player_color victim →
             dict_get k (players g') = dict_get k (players g))
    ∧ (¬ emitted EventType.PIECE_CAPTURED ev →
       ∀ k, k ≠ pc → dict_get k (players g') = dict_get k (players g)).
Proof.
  intros g Hmove. pose proof (wf_final cs) as Hwf. fold g in Hwf.
  destruct (move_piece_effect _ _ _ _ _ Hwf Hmove)
    as (player0 & piece0 & n0 & captured & _ & _ & Hp0 & Hid & Hpiece0 & _ & Hn0 & _
        & Hcapdef & Hcap & _ & _).
  destruct (move_piece_success _ _ _ _ _ Hwf Hmove)
    as (player & piece & n & evturn & _ & _ & _ & Hp & Hpiece & Hpok & Hh & Hn
        & Hplayers & Hp' & _ & Hev & Hturn).
  rewrite Hp in Hp0. injection Hp0 as <-. rewrite Hpiece in Hpiece0. injection Hpiece0 as <-.
  rewrite Hn in Hn0. injection Hn0 as <-. cbv zeta in *.
  set (home := bool_decide (n ∈ home_stretch_positions pc)) in *.
  rewrite <- Hcapdef in Hplayers, Hev.
  assert (Hm : player_color (landed_piece n home piece) = pc).
  { unfold landed_piece. destruct home; cbn; apply Hpok. }
  assert (Hstr : str_piece (landed_piece n home piece) = (pc, id)).
  { unfold str_piece, landed_piece. destruct Hpok as (Hc & Hi & _).
    destruct home; cbn; rewrite Hc, Hi; f_equal; lia. }
  assert (Hem : emitted EventType.PIECE_CAPTURED ev ↔ is_Some captured).
  { rewrite Hev, emitted_move_events.
    - split; [|by auto].
      intros [[_ [=]]|[[? _]|[[=]|[[_ [=]]|[_ [=]]]]]]. done.
    - destruct (has_won _); [left | right]; [apply Hturn|].
      destruct Hturn as (_ & next & _ & ->). eauto. }
  exists player, piece, n. split_and!; try done.
  - rewrite Hem. split.
    + intros [cp Hcp]. destruct (Hcap _ Hcp) as (Hne & Hcph & Hcpn & Hsafe & p & Hpc & Hj).
      split; [done|]. exists cp. split_and!; try done. by eapply all_pieces_lookup.
    + intros (Hsafe & x & Hin & Hne & Hxh & Hxn). rewrite Hcapdef.
      apply all_pieces_elem in Hin as (k & p & j & Hkp & Hj).
      apply dict_elem_get in Hkp; [|apply Hwf].
      pose proof (proj2 (proj1 Hwf) _ _ Hkp) as Hok.
      destruct (proj1 (proj2 (proj2 (proj2 (proj2 Hok)))) _ _ Hj) as (Hc & _).
      eapply (check_capture_landed g pc id n home _ k p j x); try done. congruence.
  - intros [cp Hcp]%Hem.
    destruct (Hcap _ Hcp) as (Hne & Hcph & Hcpn & Hsafe & p & Hpc & Hj).
    exists cp, p, (set_pieces (alter piece_reset (Z.to_nat (piece_id cp)) (pieces p)) p).
    rewrite Hcp in Hev, Hplayers. split_and!; try done.
    + rewrite Hev. destruct home, (has_won _).
      * destruct Hturn as (_ & _ & ->). reflexivity.
      * destruct Hturn as (_ & next & _ & ->). reflexivity.
      * destruct Hturn as (_ & _ & ->). reflexivity.
      * destruct Hturn as (_ & next & _ & ->). reflexivity.
    + rewrite Hev. cbn [capture_events]. rewrite Hstr.
      apply elem_of_app. right. left.
    + rewrite Hplayers, dict_get_settled_other by done.
      rewrite decide_True by done. by rewrite Hpc.
    + intros k Hk Hkc. rewrite Hplayers, dict_get_settled_other by done.
      by rewrite decide_False.
  - intros Hnone k Hk. rewrite Hplayers, dict_get_settled_other by done.
    destruct captured as [cp|]; [|done]. destruct Hnone. apply Hem. eauto.
Qed.

(** RED's piece 0 goes from 12 to 14, where GREEN's piece 0 stands. *)
Lemma capture_resets_the_piece_met_witness :
  let g := final red_meets_green in
  let g' := (move_piece RED 0 g).1.2 in
  let ev := (move_piece RED 0 g).2 in
  ∃ player piece n,
    dict_get RED (players g) = Some player
    ∧ pieces player !! Z.to_nat 0 = Some piece
    ∧ _calculate_new_position g piece (dice_value g) = Returned n
    ∧ (emitted EventType.PIECE_CAPTURED ev
       ↔ (n ∉ safe_positions)
         ∧ ∃ x, x ∈ all_pieces g ∧ player_color x ≠ RED
                ∧ is_home x = false ∧ position x = n)
    ∧ (emitted EventType.PIECE_CAPTURED ev →
       ∃ victim p p',
         count_events EventType.PIECE_CAPTURED ev = 1%nat
         ∧ mkEvent EventType.PIECE_CAPTURED
             (data_captured (str_piece victim) (RED, 0)) (Some RED) ∈ ev
         ∧ player_color victim ≠ RED ∧ is_home victim = false ∧ position victim = n
         ∧ dict_get (player_color victim) (players g) = Some p
         ∧ pieces p !! Z.to_nat (piece_id victim) = Some victim
         ∧ dict_get (player_color victim) (players g') = Some p'
         ∧ pieces p' = alter piece_reset (Z.to_nat (piece_id victim)) (pieces p)
         ∧ home_count p' = home_count p
         ∧ ∀ k, k ≠ RED → k ≠ player_color victim →
             dict_get k (players g') = dict_get k (players g))
    ∧ (¬ emitted EventType.PIECE_CAPTURED ev →
       ∀ k, k ≠ RED → dict_get k (players g') = dict_get k (players g)).
Proof.
  apply (capture_resets_the_piece_met red_meets_green RED 0).
  vm_compute. reflexivity.
Defined.

(** ** Rolling *)

(** X11: [roll_dice] is accepted once per turn.  In the phase
    [ROLLING_DICE] it returns the value that came up, one of 1..6, stores it,
    announces it with one [DICE_ROLLED] event for the current player and
    moves to [MOVING_PIECE], touching no player; a second roll right after it
    returns 0, emits nothing and leaves the first value in place.  In any
    other phase a roll returns 0 and changes nothing. *)
Theorem dice_cannot_be_rolled_twice (g : LudoGame) (r1 r2 : Face) :
  (game_state g = GameState.ROLLING_DICE →
   ∃ g1,
     roll_dice r1 g
     = (Returned (randint_1_6 r1), g1,
        [mkEvent EventType.DICE_ROLLED (data_dice (randint_1_6 r1)) (current_player g)])
     ∧ 1 ≤ randint_1_6 r1 ≤ 6
     ∧ dice_value g1 = randint_1_6 r1
     ∧ game_state g1 = GameState.MOVING_PIECE
     ∧ players g1 = players g ∧ current_player g1 = current_player g
     ∧ roll_dice r2 g1 = (Returned 0, g1, []))
  ∧ (game_state g ≠ GameState.ROLLING_DICE → roll_dice r1 g = (Returned 0, g, [])).
Proof.
  split; intros Hst; rewrite roll_dice_run.
  - rewrite bool_decide_eq_true_2 by done. eexists. split; [reflexivity|].
    split_and!; try done; destruct r1; cbn; lia.
  - by rewrite bool_decide_eq_false_2.
Qed.

(** ** Joining and leaving *)

Lemma dict_del_set_new {V} (d : dict V) c v :
  dict_get c d = None → dict_del c (dict_set c v d) = d.
Proof.
  intros H. rewrite dict_set_new by done. unfold dict_del.
  rewrite filter_app, filter_cons, filter_nil. cbn [fst].
  rewrite decide_False by (by intros ?). rewrite app_nil_r.
  by apply dict_del_absent.
Qed.

(** X12: joining and leaving are inverse to each other as long as the game
    does not start.  For a colour that is not a player and a game that does
    not hold three players, [add_player] returns [True] and a following
    [remove_player] returns [True] and gives back the very game there was;
    [add_player] of a colour that is a player already returns [False] and
    changes nothing. *)
Theorem join_then_leave_restores_the_game (g : LudoGame) (c : PlayerColor) :
  (dict_mem c (players g) = false → length (players g) ≠ 3%nat →
   ∃ g1,
     add_player c g = (Returned true, g1, [])
     ∧ dict_get c (players g1) = Some (new_player c)
     ∧ remove_player c g1 = (Returned true, g, []))
  ∧ (dict_mem c (players g) = true → add_player c g = (Returned false, g, [])).
Proof.
  split; intros Hmem; rewrite add_player_run, Hmem; [|done].
  intros Hlen. cbv zeta. apply dict_mem_false in Hmem.
  rewrite bool_decide_eq_false_2; cycle 1.
  { cbn [players set_players]. rewrite dict_set_new, length_app by done. cbn. lia. }
  eexists. split; [reflexivity|]. cbn [players set_players]. split.
  - rewrite dict_get_set. by rewrite decide_True.
  - rewrite remove_player_run. cbn [players set_players].
    assert (dict_mem c (dict_set c (new_player c) (players g)) = true) as ->.
    { apply dict_mem_true. rewrite dict_get_set, decide_True by done. eauto. }
    unfold set_players. cbn. rewrite dict_del_set_new by done. by destruct g.
Qed.

Lemma join_then_leave_restores_the_game_witness :
  ∃ g1,
    add_player GREEN (final [call_add_player RED]) = (Returned true, g1, [])
    ∧ dict_get GREEN (players g1) = Some (new_player GREEN)
    ∧ remove_player GREEN g1 = (Returned true, final [call_add_player RED], []).
Proof.
  apply (proj1 (join_then_leave_restores_the_game (final [call_add_player RED]) GREEN)).
  - reflexivity.
  - vm_compute. lia.
Defined.

(** ** Finished pieces *)

Lemma finished_survives_move g pc id g' ev k p j x :
  wf g → move_piece pc id g = (Returned true, g', ev) →
  dict_get k (players g) = Some p → pieces p !! j = Some x → is_home x = true →
  ∃ p', dict_get k (players g') = Some p' ∧ pieces p' !! j = Some x
        ∧ home_count p ≤ home_count p'.
Proof.
  intros Hwf Hmove Hk Hj Hx.
  destruct (move_piece_effect _ _ _ _ _ Hwf Hmove)
    as (player0 & piece0 & n0 & captured & _ & _ & Hp0 & Hid & Hpiece0 & _ & Hn0 & _
        & Hcapdef & Hcap & _ & _).
  destruct (move_piece_success _ _ _ _ _ Hwf Hmove)
    as (player & piece & n & evturn & _ & _ & _ & Hp & Hpiece & Hpok & Hh & Hn
        & Hplayers & Hp' & _ & _ & _).
  rewrite Hp in Hp0. injection Hp0 as <-. rewrite Hpiece in Hpiece0. injection Hpiece0 as <-.
  rewrite Hn in Hn0. injection Hn0 as <-. cbv zeta in *.
  set (home := bool_decide (n ∈ home_stretch_positions pc)) in *.
  rewrite <- Hcapdef in Hplayers.
  destruct (decide (k = pc)) as [->|Hne].
  - rewrite Hp in Hk. injection Hk as <-. eexists. split; [exact Hp'|].
    unfold moved_player. cbn [pieces home_count]. split.
    + rewrite list_lookup_alter_ne; [done|]. intros <-. congruence.
    + destruct home; lia.
  - rewrite Hplayers, dict_get_settled_other by done.
    destruct captured as [cp|]; [|eauto with lia].
    destruct (Hcap cp eq_refl) as (_ & Hcph & _ & _ & pc' & Hpc' & Hcpj).
    case_decide as Hck; [|eauto with lia]. subst k. rewrite Hk. cbn.
    eexists. split; [reflexivity|]. cbn [pieces set_pieces home_count]. split; [|lia].
    rewrite list_lookup_alter_ne; [done|]. intros <-.
    rewrite Hk in Hpc'. injection Hpc' as <-. congruence.
Qed.

(** X13: a finished piece is out of the game for good.  In a game reached by
    public operations no call other than [reset_game] and the removal of its
    player changes a finished piece in any way, and no such call lowers a
    player's [home_count]; [move_piece] on a finished piece is refused with
    [INVALID_MOVE]. *)
Theorem finished_pieces_stay_finished (cs : list Call) (c : Call) (k : PlayerColor)
    (p : Player) (j : nat) (x : Piece) :
  let g := final cs in
  dict_get k (players g) = Some p → pieces p !! j = Some x → is_home x = true →
  c ≠ call_reset_game → c ≠ call_remove_player k →
  (∃ p', dict_get k (players (exec c g).1.2) = Some p' ∧ pieces p' !! j = Some x
         ∧ home_count p ≤ home_count p')
  ∧ (current_player g = Some k → game_state g = GameState.MOVING_PIECE →
     move_piece k (Z.of_nat j) g
     = (Returned false, g, [invalid_move_event g k (Z.of_nat j)])).
Proof.
  intros g Hk Hj Hx Hreset Hremove. pose proof (wf_final cs) as Hwf. fold g in Hwf.
  pose proof (proj2 (proj1 Hwf) _ _ Hk) as Hok.
  pose proof Hok as (_ & _ & _ & Hlen & Hps & _).
  split.
  - rewrite exec_game.
    destruct c as [k0|k0| |r|k0|k0 id| |]; try done; try eauto with lia.
    + rewrite add_player_run. destruct (dict_mem k0 (players g)) eqn:Hmem; [eauto with lia|].
      cbv zeta. apply dict_mem_false in Hmem.
      assert (Hk' : dict_get k (dict_set k0 (new_player k0) (players g)) = Some p).
      { rewrite dict_get_set. rewrite decide_False; [done|]. intros ->. congruence. }
      case_bool_decide; cbn; eauto with lia.
    + rewrite remove_player_run. destruct (dict_mem k0 (players g)); [|eauto with lia].
      cbn. rewrite dict_get_del. rewrite decide_False by congruence. eauto with lia.
    + rewrite pieces_after_roll. eauto with lia.
    + destruct (move_piece_outcomes g k0 id Hwf) as [(o & ev & -> & _)|(g' & ev & Hm)];
        [eauto with lia|].
      rewrite Hm. by eapply finished_survives_move.
  - intros Hcur Hst.
    assert (Hid : 0 ≤ Z.of_nat j < 4).
    { apply lookup_lt_Some in Hj. lia. }
    assert (Hj' : pieces p !! Z.to_nat (Z.of_nat j) = Some x) by by rewrite Nat2Z.id.
    apply (move_piece_valid_cases g k _ p x (position x) false); try done.
    + unfold _calculate_new_position. by rewrite Hx.
    + unfold _is_valid_move. by rewrite Hx.
Qed.

(** RED's piece 0, finished on cell 50, while GREEN rolls and moves. *)
Lemma finished_pieces_stay_finished_witness :
  let g := final (red_to_48 ++ [call_roll_dice F2; call_move_piece RED 0;
                                call_roll_dice F6]) in
  let p := mkPlayer RED [mkPiece RED 0 50 true false; new_piece RED 1; new_piece RED 2;
                         new_piece RED 3] 1 0 50 in
  (∃ p', dict_get RED (players (exec (call_move_piece GREEN 0) g).1.2) = Some p'
         ∧ pieces p' !! 0%nat = Some (mkPiece RED 0 50 true false)
         ∧ home_count p ≤ home_count p')
  ∧ (current_player g = Some RED → game_state g = GameState.MOVING_PIECE →
     move_piece RED (Z.of_nat 0) g
     = (Returned false, g, [invalid_move_event g RED (Z.of_nat 0)])).
Proof.
  intros g p.
  apply (finished_pieces_stay_finished
           (red_to_48 ++ [call_roll_dice F2; call_move_piece RED 0; call_roll_dice F6])
           (call_move_piece GREEN 0) RED p 0 (mkPiece RED 0 50 true false)).
  - vm_compute. reflexivity.
  - reflexivity.
  - reflexivity.
  - discriminate.
  - discriminate.
Defined.

(** ** Destinations *)

(** X14: the destination of every move [get_valid_moves] lists, in a game
    reached by public operations, is the start cell of the colour for a piece
    at base (the dice value is then 6), the cell [position + dice] for a
    piece on the track when that is below 52, and otherwise the cell
    [home_position + (position + dice - 52)] of the colour's home stretch.
    The wrap of [position + dice] around cell 51 back to cell 0, for which
    [_calculate_new_position] has a branch, never takes place. *)
Theorem listed_destinations_never_wrap (cs : list Call) (pc : PlayerColor)
    (moves : list (Piece * Z)) (piece : Piece) (n : Z) :
  let g := final cs in
  get_valid_moves g pc = Returned moves → (piece, n) ∈ moves →
  (position piece = -1 ∧ dice_value g = 6 ∧ n = _get_start_position pc)
  ∨ (_get_start_position pc ≤ position piece
     ∧ n = position piece + dice_value g ∧ n < board_size)
  ∨ (_get_start_position pc ≤ position piece
     ∧ board_size ≤ position piece + dice_value g
     ∧ n = _get_home_position pc + (position piece + dice_value g - board_size)
     ∧ n ∈ home_stretch_positions pc).
Proof.
  intros g Hmoves Hin. destruct (inv_final cs) as (Hwf & _ & Hpl & _). fold g in Hwf, Hpl.
  destruct (decide (current_player g = Some pc ∧ game_state g = GameState.MOVING_PIECE))
    as [[Hcur Hst]|Hoff]; cycle 1.
  { rewrite get_valid_moves_off_turn in Hmoves.
    - injection Hmoves as <-. by apply elem_of_nil in Hin.
    - destruct (decide (current_player g = Some pc)); [right|left]; tauto. }
  destruct (dict_get pc (players g)) as [player|] eqn:Hp; cycle 1.
  { rewrite get_valid_moves_missing in Hmoves; [done|].
    split_and!; [done..|by apply dict_mem_false]. }
  destruct (get_valid_moves_run g pc player Hwf Hcur Hst Hp) as (moves' & Hmoves' & Hmem).
  rewrite Hmoves in Hmoves'. injection Hmoves' as <-.
  apply Hmem in Hin as ([i Hi]%list_elem_of_lookup_1 & Hn & Hv).
  by apply (valid_destination g pc player piece i n Hwf Hp Hi (Hpl _ _ _ _ Hp Hi)).
Qed.

(** BLUE's piece 0 on cell 47, six short of BLUE's home stretch, after a
    roll of 6: the move is listed with destination 89 + 1. *)
Lemma listed_destinations_never_wrap_witness :
  let g := final (red_to_48 ++ turn F1 RED 0 ++ turn F1 GREEN 0 ++ turn F1 YELLOW 0
                  ++ [call_roll_dice F6]) in
  let piece := mkPiece BLUE 0 47 false true in
  (position piece = -1 ∧ dice_value g = 6 ∧ 90 = _get_start_position BLUE)
  ∨ (_get_start_position BLUE ≤ position piece
     ∧ 90 = position piece + dice_value g ∧ 90 < board_size)
  ∨ (_get_start_position BLUE ≤ position piece
     ∧ board_size ≤ position piece + dice_value g
     ∧ 90 = _get_home_position BLUE + (position piece + dice_value g - board_size)
     ∧ 90 ∈ home_stretch_positions BLUE).
Proof.
  intros g piece.
  apply (listed_destinations_never_wrap
           (red_to_48 ++ turn F1 RED 0 ++ turn F1 GREEN 0 ++ turn F1 YELLOW 0
            ++ [call_roll_dice F6]) BLUE
           [(piece, 90); (new_piece BLUE 1, 39); (new_piece BLUE 2, 39);
            (new_piece BLUE 3, 39)]).
  - vm_compute. reflexivity.
  - left.
Defined.

(** ** Steps of a run *)

Lemma run_step_inv cs g s :
  inv g → s ∈ (run cs g).2 →
  ∃ g0, inv g0
        ∧ step_outcome s = (exec (step_call s) g0).1.1
        ∧ step_events s = (exec (step_call s) g0).2.
Proof.
  revert g. induction cs as [|c cs IH]; intros g Hinv Hs.
  - by apply elem_of_nil in Hs.
  - rewrite run_cons in Hs. cbn [snd] in Hs. apply elem_of_cons in Hs as [->|Hs].
    + exists g. done.
    + apply (IH (exec c g).1.2); [by apply inv_exec | done].
Qed.

Lemma move_piece_never_starts g pc id :
  wf g → ¬ emitted EventType.GAME_STARTED (move_piece pc id g).2.
Proof.
  intros Hwf.
  destruct (move_piece_outcomes g pc id Hwf) as [(o & ev & -> & _ & Hev)|(g' & ev & Hm)].
  - cbn. destruct Hev as [->| ->]; [apply emitted_nil|].
    rewrite emitted_singleton. done.
  - rewrite Hm. cbn.
    destruct (move_piece_success _ _ _ _ _ Hwf Hm)
      as (player & piece & n & evturn & _ & _ & _ & _ & _ & _ & _ & _ & _ & _ & _ & -> & Hturn).
    rewrite emitted_move_events.
    + intros [[_ [=]]|[[_ [=]]|[[=]|[[_ [=]]|[_ [=]]]]]].
    + cbv zeta in Hturn. destruct (has_won _); [left | right]; [apply Hturn|].
      destruct Hturn as (_ & next & _ & ->). eauto.
Qed.

(** X15: a game starts with four players and with RED.  In every run of
    public operations a [GAME_STARTED] event is emitted only by the
    [add_player] that brings the players to four, which then returns [True]
    and whose colour comes last in the event's list, or by [reset_game]; the
    event lists four different colours, hence all of them, and names RED as
    the current player. *)
Theorem game_starts_with_four_players (cs : list Call) (s : Step) (e : GameEvent) :
  s ∈ trace cs → e ∈ step_events s → event_type e = EventType.GAME_STARTED →
  ∃ ks,
    data e = data_players ks ∧ event_color e = Some RED
    ∧ NoDup ks ∧ length ks = 4%nat ∧ (∀ k, k ∈ ks)
    ∧ ((∃ k, step_call s = call_add_player k ∧ last ks = Some k
             ∧ step_outcome s = Returned (v_bool true))
       ∨ step_call s = call_reset_game).
Proof.
  intros Hs He Ht.
  destruct (run_step_inv cs new_game s inv_new_game Hs) as (g & Hinv & Ho & Hev).
  pose proof (proj1 Hinv) as Hwf.
  assert (Hall : ∀ ks : list PlayerColor, NoDup ks → length ks = 4%nat → ∀ k, k ∈ ks).
  { intros ks Hnd Hlen k. destruct (decide (k ∈ ks)) as [|Hk]; [done|]. exfalso.
    assert (Hnd' : NoDup (k :: ks)) by (by constructor).
    apply NoDup_colors_length in Hnd'. cbn in Hnd'. lia. }
  rewrite Hev, exec_events in He. rewrite Ho. clear Ho Hev.
  destruct (step_call s) as [k|k| |r|k|k id| |].
  - cbn [exec]. rewrite fmapM_run. rewrite add_player_run in He |- *.
    destruct (dict_mem k (players g)) eqn:Hmem; [by apply elem_of_nil in He|].
    cbv zeta in *. case_bool_decide as Hlen; [|by apply elem_of_nil in He].
    apply list_elem_of_singleton in He as ->. cbn [fst snd].
    pose proof (wf_add_player k g Hwf) as Hwf'. rewrite add_player_run, Hmem in Hwf'.
    cbv zeta in Hwf'. rewrite bool_decide_eq_true_2 in Hwf' by done. cbn [fst snd] in Hwf'.
    eexists. split; [reflexivity|]. split; [reflexivity|].
    assert (Hnd : NoDup (dict_keys (dict_set k (new_player k) (players g))))
      by apply Hwf'.
    assert (Hl : length (dict_keys (dict_set k (new_player k) (players g))) = 4%nat).
    { by rewrite dict_keys_length. }
    split_and!; try done; [by apply Hall|]. left. exists k. split_and!; try done.
    cbn [players set_players]. apply dict_mem_false in Hmem.
    rewrite dict_set_new by done. unfold dict_keys. rewrite map_app. cbn.
    by rewrite last_snoc.
  - rewrite remove_player_run in He.
    destruct (dict_mem k (players g)); by apply elem_of_nil in He.
  - by apply elem_of_nil in He.
  - rewrite roll_dice_run in He. case_bool_decide; [|by apply elem_of_nil in He].
    apply list_elem_of_singleton in He as ->. done.
  - by apply elem_of_nil in He.
  - exfalso. apply (move_piece_never_starts g k id Hwf). by exists e.
  - by apply elem_of_nil in He.
  - rewrite reset_game_run in He. case_bool_decide as Hlen; [|by apply elem_of_nil in He].
    apply list_elem_of_singleton in He as ->.
    pose proof (wf_cleared g Hwf) as [[Hnd _] _].
    assert (Hl : length (dict_keys (players (cleared g))) = 4%nat).
    { rewrite dict_keys_length. unfold cleared. cbn. by rewrite length_map. }
    eexists. split; [reflexivity|]. split; [reflexivity|].
    split_and!; try done; [by apply Hall | by right].
Qed.

(** The fourth join of the repository's tests. *)
Lemma game_starts_with_four_players_witness :
  ∃ ks,
    data_players [RED; GREEN; YELLOW; BLUE] = data_players ks
    ∧ Some RED = Some RED
    ∧ NoDup ks ∧ length ks = 4%nat ∧ (∀ k, k ∈ ks)
    ∧ ((∃ k, call_add_player BLUE = call_add_player k ∧ last ks = Some k
             ∧ Returned (v_bool true) = Returned (v_bool true))
       ∨ call_add_player BLUE = call_reset_game).
Proof.
  apply (game_starts_with_four_players four_players
           (mkStep (call_add_player BLUE) (Returned (v_bool true))
              [mkEvent EventType.GAME_STARTED
                 (data_players [RED; GREEN; YELLOW; BLUE]) (Some RED)])
           (mkEvent EventType.GAME_STARTED
              (data_players [RED; GREEN; YELLOW; BLUE]) (Some RED))).
  - vm_compute. do 3 right. left.
  - left.
  - reflexivity.
Defined.

(** * Callers of the engine *)

(** ** Games reached with [_next_turn] *)

Lemma inv_next_turn g : inv g → inv (_next_turn g).1.2.
Proof.
  intros Hinv. destruct (current_player g) as [cur|] eqn:Hcur.
  - rewrite (next_turn_exact g cur Hcur). cbn [fst snd].
    destruct Hinv as (Hwf & Hph & Hpl & Hun). split_and!; done.
  - by rewrite next_turn_none.
Qed.

Lemma inv_step_op g o : inv g → inv (step_op g o).
Proof. destruct o; cbn [step_op]; [apply inv_exec | apply inv_next_turn]. Qed.

Lemma inv_foldl ops g : inv g → inv (foldl step_op g ops).
Proof.
  revert g. induction ops as [|o ops IH]; intros g Hinv; [done|].
  cbn [foldl]. apply IH. by apply inv_step_op.
Qed.

Lemma inv_reached ops : inv (reached ops).
Proof. apply inv_foldl, inv_new_game. Qed.

Lemma reached_app ops ops' : reached (ops ++ ops') = foldl step_op (reached ops) ops'.
Proof. unfold reached. apply foldl_app. Qed.

Lemma reached_calls cs : reached (map op_call cs) = final cs.
Proof.
  unfold reached, final. generalize new_game.
  induction cs as [|c cs IH]; intros g; [done|].
  cbn [map foldl step_op]. rewrite run_cons. cbn [fst]. apply IH.
Qed.

(** ** [_auto_play_turn] *)

Lemma random_choice_elem {A} k (seq : list A) x :
  random_choice k seq = Returned x → x ∈ seq.
Proof.
  unfold random_choice, list_at. destruct seq as [|y seq]; [done|].
  destruct (_ !! _) eqn:E; [|done]. intros [= <-]. by eapply list_elem_of_lookup_2.
Qed.

Lemma random_choice_returns {A} k (seq : list A) :
  seq ≠ [] → ∃ x, random_choice k seq = Returned x.
Proof.
  intros Hne. unfold random_choice, list_at. destruct seq as [|y seq]; [done|].
  rewrite Nat2Z.id.
  destruct (lookup_lt_is_Some_2 (y :: seq) (k mod length (y :: seq))) as [x ->]; [|eauto].
  apply Nat.mod_upper_bound. done.
Qed.

(** A piece [get_valid_moves] lists is moved when asked for by its id. *)
Lemma listed_move_succeeds g pc player moves piece n :
  wf g → current_player g = Some pc → game_state g = GameState.MOVING_PIECE →
  dict_get pc (players g) = Some player →
  get_valid_moves g pc = Returned moves → (piece, n) ∈ moves →
  ∃ g' ev, move_piece pc (piece_id piece) g = (Returned true, g', ev).
Proof.
  intros Hwf Hcur Hst Hp Hmoves Hin.
  pose proof (proj2 (proj1 Hwf) _ _ Hp) as Hok.
  pose proof Hok as (_ & _ & _ & Hlen & Hps & _).
  destruct (get_valid_moves_run g pc player Hwf Hcur Hst Hp) as (moves' & Hmoves' & Hmem).
  rewrite Hmoves in Hmoves'. injection Hmoves' as <-.
  apply Hmem in Hin as ([i Hi]%list_elem_of_lookup_1 & Hn & Hv).
  destruct (Hps _ _ Hi) as (_ & Hidi & _).
  assert (i < 4)%nat by (rewrite <- Hlen; by eapply lookup_lt_Some).
  assert (Hi' : pieces player !! Z.to_nat (piece_id piece) = Some piece).
  { rewrite Hidi. by rewrite Nat2Z.id. }
  destruct (move_piece_answer g pc (piece_id piece) player Hwf Hcur Hst Hp)
    as [(ev & Hm & Hno)|(g' & ev & piece' & n' & Hm & _)]; [|eauto].
  rewrite (Hno piece n Hi') in Hv by (done || lia). done.
Qed.

(** The first half of [_auto_play_turn]: the roll, when one is due. *)
Lemma auto_play_roll r pc g :
  inv g → game_state g = GameState.ROLLING_DICE ∨ game_state g = GameState.MOVING_PIECE →
  ∃ out1 g1 ev1 ops1,
    (if bool_decide (game_state g = GameState.ROLLING_DICE) then
       bind (roll_dice r) (λ dice, ret [line_rolled pc dice])
     else ret []) g = (Returned out1, g1, ev1)
    ∧ g1 = foldl step_op g ops1
    ∧ game_state g1 = GameState.MOVING_PIECE
    ∧ players g1 = players g ∧ current_player g1 = current_player g
    ∧ (∀ c id, line_failed c id ∉ out1).
Proof.
  intros Hinv [Hst|Hst].
  - rewrite bool_decide_eq_true_2 by done.
    exists [line_rolled pc (randint_1_6 r)],
      (set_game_state GameState.MOVING_PIECE (set_dice_value (randint_1_6 r) g)),
      ([mkEvent EventType.DICE_ROLLED (data_dice (randint_1_6 r)) (current_player g)] ++ []),
      [op_call (call_roll_dice r)].
    split_and!; try done.
    + eapply bind_run; [|reflexivity]. rewrite roll_dice_run.
      by rewrite bool_decide_eq_true_2.
    + cbn [foldl step_op]. rewrite exec_game, roll_dice_run.
      by rewrite bool_decide_eq_true_2.
    + intros c id Hin. apply list_elem_of_singleton in Hin. done.
  - rewrite bool_decide_eq_false_2 by (rewrite Hst; done).
    exists [], g, [], []. split_and!; try done. intros c id Hin. by apply elem_of_nil in Hin.
Qed.

Lemma auto_play_turn_run r k pc g :
  inv g → current_player g = Some pc → dict_mem pc (players g) = true →
  game_state g = GameState.ROLLING_DICE ∨ game_state g = GameState.MOVING_PIECE →
  ∃ lines ev ops',
    _auto_play_turn r k pc g = (Returned lines, foldl step_op g ops', ev)
    ∧ dict_keys (players (foldl step_op g ops')) = dict_keys (players g)
    ∧ (∀ c id, line_failed c id ∉ lines)
    ∧ ((game_state (foldl step_op g ops') = GameState.GAME_OVER
        ∧ current_player (foldl step_op g ops') = Some pc
        ∧ in_play (foldl step_op g ops') pc = false)
       ∨ (game_state (foldl step_op g ops') = GameState.ROLLING_DICE
          ∧ current_player (foldl step_op g ops')
            = Some (next_player (foldl step_op g ops') pc))).
Proof.
  intros Hinv Hcur Hmem Hst.
  destruct (auto_play_roll r pc g Hinv Hst)
    as (out1 & g1 & ev1 & ops1 & Hroll & Hg1 & Hst1 & Hpl1 & Hcur1 & Hout1).
  assert (Hinv1 : inv g1) by (rewrite Hg1; by apply inv_foldl).
  pose proof (proj1 Hinv1) as Hwf1.
  rewrite Hcur in Hcur1. apply dict_mem_true in Hmem as [player Hp].
  rewrite <- Hpl1 in Hp.
  destruct (get_valid_moves_run g1 pc player Hwf1 Hcur1 Hst1 Hp) as (moves & Hmoves & Hmem).
  unfold _auto_play_turn. rewrite bind_get.
  destruct moves as [|m moves].
  - exists (out1 ++ [line_skipping pc]), (ev1 ++ [turn_event (next_player g1 pc)] ++ []),
      (ops1 ++ [op_next_turn]).
    rewrite foldl_app, <- Hg1. cbn [foldl step_op].
    rewrite (next_turn_exact g1 pc Hcur1). cbn [fst snd]. split_and!.
    + eapply bind_run; [exact Hroll|]. cbv beta. rewrite bind_get.
      rewrite bool_decide_eq_true_2 by done.
      rewrite (bind_query _ _ _ []) by done.
      eapply bind_run; [by apply next_turn_exact | reflexivity].
    + by rewrite <- Hpl1.
    + intros c id [Hin|Hin]%elem_of_app; [by eapply Hout1|].
      apply list_elem_of_singleton in Hin. done.
    + right. split; [done|]. reflexivity.
  - destruct (random_choice_returns k (m :: moves)) as [chosen Hchosen]; [done|].
    pose proof (random_choice_elem _ _ _ Hchosen) as Hin.
    destruct chosen as [piece n].
    destruct (listed_move_succeeds g1 pc player _ piece n Hwf1 Hcur1 Hst1 Hp Hmoves Hin)
      as (g' & ev & Hm).
    exists (out1 ++ [line_moved pc (piece_id piece)]), (ev1 ++ ev ++ []),
      (ops1 ++ [op_call (call_move_piece pc (piece_id piece))]).
    rewrite foldl_app, <- Hg1. cbn [foldl step_op]. rewrite exec_game, Hm. cbn [fst snd].
    destruct (move_piece_turn _ _ _ _ _ Hwf1 Hm) as (Hkeys & player' & Hp' & Hturn).
    split_and!.
    + eapply bind_run; [exact Hroll|]. cbv beta. rewrite bind_get.
      rewrite bool_decide_eq_true_2 by done.
      rewrite (bind_query _ _ _ (m :: moves)) by done.
      rewrite (bind_query _ _ _ (piece, n)) by done. cbn [fst].
      eapply bind_run; [exact Hm | reflexivity].
    + by rewrite Hkeys, Hpl1.
    + intros c id [Hin'|Hin']%elem_of_app; [by eapply Hout1|].
      apply list_elem_of_singleton in Hin'. done.
    + destruct (has_won player') eqn:Hwon.
      * left. destruct Hturn as [? ?]. split_and!; try done.
        unfold in_play. by rewrite Hp', Hwon.
      * right. destruct Hturn as (? & ? & _). done.
Qed.

(** X16: [CLIGame._auto_play_turn] for the current player always completes
    the turn.  On a game reached by public operations and [_next_turn] calls,
    in the phase [ROLLING_DICE] or [MOVING_PIECE] and with the current player
    still in the game, it returns without raising; it has rolled if a roll
    was due and then either moved a piece, which never fails (the line
    "failed to move" is never printed), or passed with [_next_turn] because
    no move was valid.  Afterwards the game is over, or the phase is
    [ROLLING_DICE] and the turn is with the next colour in play; the game it
    leaves is again reached by public operations and [_next_turn] calls.
    When the game is over or waits for players it does nothing. *)
Theorem auto_play_turn_completes_the_turn (ops : list Op) (r : Face) (k : nat)
    (pc : PlayerColor) :
  let g := reached ops in
  (current_player g = Some pc → dict_mem pc (players g) = true →
   game_state g = GameState.ROLLING_DICE ∨ game_state g = GameState.MOVING_PIECE →
   ∃ lines ev ops',
     let g' := reached (ops ++ ops') in
     _auto_play_turn r k pc g = (Returned lines, g', ev)
     ∧ dict_keys (players g') = dict_keys (players g)
     ∧ (∀ c id, line_failed c id ∉ lines)
     ∧ ((game_state g' = GameState.GAME_OVER ∧ current_player g' = Some pc
         ∧ in_play g' pc = false)
        ∨ (game_state g' = GameState.ROLLING_DICE
           ∧ current_player g' = Some (next_player g' pc))))
  ∧ (game_state g = GameState.GAME_OVER
     ∨ game_state g = GameState.WAITING_FOR_PLAYERS →
     _auto_play_turn r k pc g = (Returned [], g, [])).
Proof.
  intros g. split.
  - intros Hcur Hmem Hst.
    destruct (auto_play_turn_run r k pc g (inv_reached ops) Hcur Hmem Hst)
      as (lines & ev & ops' & Hrun & Hkeys & Hlines & Hend).
    exists lines, ev, ops'. cbv zeta. rewrite reached_app. done.
  - intros Hst. unfold _auto_play_turn. rewrite bind_get.
    rewrite bool_decide_eq_false_2 by (destruct Hst as [-> | ->]; done).
    eapply (bind_run _ _ _ [] g []); [done|]. rewrite bind_get.
    by rewrite bool_decide_eq_false_2 by (destruct Hst as [-> | ->]; done).
Qed.

(** RED's first turn in the game [CLIGame.__init__] sets up. *)
Lemma auto_play_turn_completes_the_turn_witness :
  let ops := map op_call cli_init in
  let g := reached ops in
  ∃ lines ev ops',
    let g' := reached (ops ++ ops') in
    _auto_play_turn F6 2 RED g = (Returned lines, g', ev)
    ∧ dict_keys (players g') = dict_keys (players g)
    ∧ (∀ c id, line_failed c id ∉ lines)
    ∧ ((game_state g' = GameState.GAME_OVER ∧ current_player g' = Some RED
        ∧ in_play g' RED = false)
       ∨ (game_state g' = GameState.ROLLING_DICE
          ∧ current_player g' = Some (next_player g' RED))).
Proof.
  intros ops g.
  apply (proj1 (auto_play_turn_completes_the_turn (map op_call cli_init) F6 2 RED)).
  - reflexivity.
  - reflexivity.
  - left. reflexivity.
Defined.

(** ** [play_game] *)

Lemma four_keys_present (d : dict Player) c :
  dict_keys d = [RED; GREEN; YELLOW; BLUE] → dict_mem c d = true.
Proof.
  intros Hkeys. destruct (dict_mem c d) eqn:E; [done|].
  apply dict_mem_false, dict_get_None in E. rewrite Hkeys in E.
  destruct E. apply color_cases.
Qed.

Lemma play_loop_run fuel draws max_turns turn_count g :
  inv g → dict_keys (players g) = [RED; GREEN; YELLOW; BLUE] →
  game_state g = GameState.ROLLING_DICE ∨ game_state g = GameState.GAME_OVER →
  (Z.to_nat (max_turns - turn_count) < fuel)%nat →
  ∃ turns lines ev ops',
    play_loop fuel draws max_turns turn_count g
    = (Returned (turns, lines), foldl step_op g ops', ev)
    ∧ (∀ c id, line_failed c id ∉ lines)
    ∧ ((game_state (foldl step_op g ops') = GameState.GAME_OVER
        ∧ turn_count ≤ turns ≤ Z.max turn_count max_turns)
       ∨ (game_state (foldl step_op g ops') = GameState.ROLLING_DICE
          ∧ turns = Z.max turn_count max_turns)).
Proof.
  revert turn_count g. induction fuel as [|fuel IH]; intros turn_count g Hinv Hkeys Hst Hfuel;
    [lia|].
  cbn [play_loop]. rewrite bind_get.
  destruct (bool_decide (game_state g ≠ GameState.GAME_OVER) && (turn_count <? max_turns))
    eqn:Hcond; cycle 1.
  { exists turn_count, [], [], []. cbn [foldl]. split_and!; [done| |].
    - intros c id Hin. by apply elem_of_nil in Hin.
    - apply andb_false_iff in Hcond as [Hc|Hc].
      + apply bool_decide_eq_false in Hc. apply dec_stable in Hc. left. split; [done|lia].
      + apply Z.ltb_ge in Hc. destruct Hst as [Hst|Hst]; [right|left]; split; (done || lia). }
  apply andb_true_iff in Hcond as [Hgo%bool_decide_eq_true Hlt%Z.ltb_lt].
  destruct Hst as [Hst|Hst]; [|done].
  destruct (current_player g) as [c|] eqn:Hcur; cycle 1.
  { destruct Hinv as (_ & (Hnone & _) & _). rewrite (proj1 Hnone Hcur) in Hst. done. }
  destruct (auto_play_turn_run (draws turn_count).1 (draws turn_count).2 c g Hinv Hcur
              (four_keys_present _ c Hkeys) (or_introl Hst))
    as (out & ev1 & ops1 & Hrun & Hkeys1 & Hout & Hend).
  destruct (IH (turn_count + 1) (foldl step_op g ops1)) as (turns & rest & ev2 & ops2 & Hloop
    & Hrest & Hfin).
  { by apply inv_foldl. }
  { by rewrite Hkeys1. }
  { destruct Hend as [(? & _)|(? & _)]; auto. }
  { lia. }
  exists turns, (out ++ rest), (ev1 ++ ev2 ++ []), (ops1 ++ ops2).
  rewrite foldl_app. split_and!.
  - eapply bind_run; [exact Hrun|]. cbv beta.
    eapply bind_run; [exact Hloop | reflexivity].
  - intros c' id [Hin|Hin]%elem_of_app; [by eapply Hout | by eapply Hrest].
  - destruct Hfin as [(? & ?)|(? & ?)]; [left | right]; split; (done || lia).
Qed.

(** X17: [CLIGame.play_game] in its automatic mode terminates.  From the
    game [CLIGame.__init__] sets up, whatever the dice and the random
    choices, the loop ends after at most [max_turns] turns, each of them a
    complete turn of the current player in which no move fails: either the
    game is over and "Game finished" is printed last, or [max_turns] turns
    were played, the phase is [ROLLING_DICE], and "Game stopped after
    [max_turns] turns" is printed last.  The loop never raises and never
    spins on a missing current player. *)
Theorem play_game_terminates (fuel : nat) (draws : Z → Face * nat) (max_turns : Z) :
  (Z.to_nat max_turns < fuel)%nat →
  ∃ lines ev ops',
    let g' := reached (map op_call cli_init ++ ops') in
    play_game fuel draws max_turns (final cli_init) = (Returned lines, g', ev)
    ∧ (∀ c id, line_failed c id ∉ lines)
    ∧ ((game_state g' = GameState.GAME_OVER ∧ last lines = Some line_finished)
       ∨ (game_state g' = GameState.ROLLING_DICE
          ∧ last lines = Some (line_stopped (Z.max 0 max_turns)))).
Proof.
  intros Hfuel.
  destruct (play_loop_run fuel draws max_turns 0 (final cli_init))
    as (turns & lines & ev & ops' & Hloop & Hlines & Hend).
  { apply inv_final. }
  { reflexivity. }
  { left. reflexivity. }
  { by rewrite Z.sub_0_r. }
  set (g' := foldl step_op (final cli_init) ops') in *.
  exists ([line_starting; line_press_enter] ++ lines
          ++ [if bool_decide (game_state g' = GameState.GAME_OVER) then line_finished
              else line_stopped turns]), (ev ++ []), ops'.
  cbv zeta. rewrite reached_app, reached_calls. fold g'. split_and!.
  - unfold play_game. eapply bind_run; [exact Hloop|]. cbv beta. by rewrite bind_get.
  - intros c id [Hin|[Hin|Hin]%elem_of_app]%elem_of_app.
    + repeat (apply elem_of_cons in Hin as [Hin|Hin]; [done|]). by apply elem_of_nil in Hin.
    + by eapply Hlines.
    + apply list_elem_of_singleton in Hin. by case_bool_decide.
  - rewrite !app_assoc, last_snoc.
    destruct Hend as [(Hst & _)|(Hst & ->)]; [left | right]; rewrite Hst; done.
Qed.

(** Two turns of sixes. *)
Lemma play_game_terminates_witness :
  ∃ lines ev ops',
    let g' := reached (map op_call cli_init ++ ops') in
    play_game 3 (λ _, (F6, 0%nat)) 2 (final cli_init) = (Returned lines, g', ev)
    ∧ (∀ c id, line_failed c id ∉ lines)
    ∧ ((game_state g' = GameState.GAME_OVER ∧ last lines = Some line_finished)
       ∨ (game_state g' = GameState.ROLLING_DICE
          ∧ last lines = Some (line_stopped (Z.max 0 2)))).
Proof.
  apply (play_game_terminates 3 (λ _, (F6, 0%nat)) 2). cbn. lia.
Defined.

(** * The AI player *)

(** ** Loops *)

Lemma for_each_returns {A B} (P : B → Prop) (l : list A) (body : B → A → outcome B) acc :
  P acc →
  (∀ acc x, x ∈ l → P acc → ∃ acc', body acc x = Returned acc' ∧ P acc') →
  ∃ r, for_each l body acc = Returned r ∧ P r.
Proof.
  revert acc. induction l as [|x l IH]; intros acc Hacc Hbody; [by exists acc|].
  cbn [for_each]. destruct (Hbody acc x) as (acc' & -> & Hacc'); [left | done|].
  cbn [obind]. apply IH; [done|]. intros acc0 y Hy. apply Hbody. by right.
Qed.

Lemma for_each_total {A B} (l : list A) (body : B → A → outcome B) acc :
  (∀ acc x, x ∈ l → ∃ acc', body acc x = Returned acc') →
  ∃ r, for_each l body acc = Returned r.
Proof.
  intros Hbody. destruct (for_each_returns (λ _, True) l body acc I) as (r & Hr & _); [|eauto].
  intros acc0 x Hx _. destruct (Hbody acc0 x Hx) as [acc' ->]. eauto.
Qed.

Lemma obind_returns {A B} (m : outcome A) (f : A → outcome B) :
  (∃ a, m = Returned a) → (∀ a, ∃ b, f a = Returned b) → ∃ b, obind m f = Returned b.
Proof. intros [a ->] Hf. cbn. apply Hf. Qed.

Lemma for_each_unchanged {A B} (l : list A) (body : B → A → outcome B) acc :
  (∀ x, x ∈ l → body acc x = Returned acc) → for_each l body acc = Returned acc.
Proof.
  induction l as [|x l IH]; intros Hbody; [done|].
  cbn [for_each]. rewrite Hbody by left. cbn [obind]. apply IH.
  intros y Hy. apply Hbody. by right.
Qed.

Lemma for_each_ext {A B} (l : list A) (body1 body2 : B → A → outcome B) acc :
  (∀ acc x, x ∈ l → body1 acc x = body2 acc x) →
  for_each l body1 acc = for_each l body2 acc.
Proof.
  revert acc. induction l as [|x l IH]; intros acc Hbody; [done|].
  cbn [for_each]. rewrite Hbody by left. destruct (body2 acc x); [|done..].
  cbn [obind]. apply IH. intros acc0 y Hy. apply Hbody. by right.
Qed.

Lemma for_any_returns {A} (l : list A) (body : A → outcome bool) :
  (∀ x, x ∈ l → ∃ b, body x = Returned b) → ∃ b, for_any l body = Returned b.
Proof.
  induction l as [|x l IH]; intros Hbody; [by exists false|].
  cbn [for_any]. destruct (Hbody x) as [b ->]; [left|]. cbn [obind].
  destruct b; [eauto|]. apply IH. intros y Hy. apply Hbody. by right.
Qed.

Lemma for_any_ext {A} (l : list A) (body1 body2 : A → outcome bool) :
  (∀ x, x ∈ l → body1 x = body2 x) → for_any l body1 = for_any l body2.
Proof.
  induction l as [|x l IH]; intros Hbody; [done|].
  cbn [for_any]. rewrite Hbody by left. destruct (body2 x) as [[]| |]; try done.
  cbn [obind]. apply IH. intros y Hy. apply Hbody. by right.
Qed.

(** ** What the pieces of a well-formed game are *)

(** An entry of the players dictionary is the player under its colour, and
    each of its pieces carries that colour. *)
Lemma players_entry g kv :
  wf g → kv ∈ players g → dict_get kv.1 (players g) = Some kv.2 ∧ player_ok kv.1 kv.2.
Proof.
  intros [[Hnd Hok] _] Hin. destruct kv as [k p]. cbn [fst snd].
  apply dict_elem_get in Hin; [|done]. split; [done|]. by apply Hok.
Qed.

Lemma players_entry_piece g kv piece :
  wf g → kv ∈ players g → piece ∈ pieces kv.2 → player_color piece = kv.1.
Proof.
  intros Hwf Hin [i Hi]%list_elem_of_lookup.
  destruct (players_entry g kv Hwf Hin) as [_ (_ & _ & _ & _ & Hps & _)].
  by destruct (Hps _ _ Hi) as (? & _).
Qed.

(** [_calculate_new_position] returns for a piece whose colour is a player,
    whatever the dice. *)
Lemma calculate_new_position_total g piece dice p :
  dict_get (player_color piece) (players g) = Some p →
  ∃ n, _calculate_new_position g piece dice = Returned n.
Proof.
  intros Hp. unfold _calculate_new_position, _should_enter_home_stretch, dict_at.
  rewrite Hp. destruct (is_home piece); [eauto|].
  destruct (position piece =? -1); [destruct (dice =? 6); eauto|].
  cbn. destruct (position piece + dice <? board_size); cbn; [eauto|].
  destruct ((position piece <? start_position p)
            && (position piece + dice >=? start_position p)); cbn; eauto.
Qed.

Lemma reaches_returns g piece target p :
  dict_get (player_color piece) (players g) = Some p →
  ∃ b, reaches g piece target = Returned b.
Proof.
  intros Hp. unfold reaches. apply for_any_returns. intros dice _.
  destruct (calculate_new_position_total g piece dice p Hp) as [n ->]. cbn. eauto.
Qed.

(** ** The helpers of the scores return *)

Section Returns.
Variable ai : AIPlayer.
Variable g : LudoGame.
Hypothesis Hwf : wf g.
Variable me : Player.
Hypothesis Hme : dict_get (ai_color ai) (players g) = Some me.

Lemma distance_returns piece pos :
  ∃ n, _calculate_distance_to_home_stretch ai g piece pos = Returned n.
Proof.
  unfold _calculate_distance_to_home_stretch, dict_at. rewrite Hme.
  destruct (negb (ai_game ai) || is_home piece || (pos =? -1)); [eauto|].
  cbn. destruct (pos >=? start_position me); eauto.
Qed.

Lemma is_vulnerable_returns pos : ∃ b, _is_vulnerable_position ai g pos = Returned b.
Proof.
  unfold _is_vulnerable_position.
  destruct (negb (ai_game ai) || bool_decide (pos ∈ safe_positions) || (pos =? -1)); [eauto|].
  apply for_any_returns. intros kv Hkv. case_bool_decide; [eauto|].
  apply for_any_returns. intros piece Hpiece.
  destruct ((position piece =? -1) || is_home piece); [eauto|].
  destruct (players_entry g kv Hwf Hkv) as [Hp _].
  rewrite <- (players_entry_piece g kv piece Hwf Hkv Hpiece) in Hp.
  by eapply reaches_returns.
Qed.

Lemma is_entering_returns piece n :
  ∃ b, _is_entering_home_stretch ai g piece n = Returned b.
Proof.
  unfold _is_entering_home_stretch, dict_at. rewrite Hme.
  destruct (negb (ai_game ai)); cbn; eauto.
Qed.

Lemma piece_progress_returns piece p :
  dict_get (player_color piece) (players g) = Some p →
  ∃ x, _get_piece_progress ai g piece = Returned x.
Proof.
  intros Hp. unfold _get_piece_progress, dict_at. rewrite Hp.
  destruct (negb (ai_game ai)); [eauto|]. destruct (position piece =? -1); [eauto|].
  destruct (is_home piece); cbn; eauto.
Qed.

Lemma blocking_value_returns pos : ∃ x, _calculate_blocking_value ai g pos = Returned x.
Proof.
  unfold _calculate_blocking_value. destruct (negb (ai_game ai)); [eauto|].
  apply for_each_total. intros acc kv Hkv. case_bool_decide; [eauto|].
  apply for_each_total. intros acc' piece Hpiece.
  destruct ((position piece =? -1) || is_home piece); [eauto|]. cbv zeta.
  destruct (_ <=? 6); [|eauto].
  destruct (players_entry g kv Hwf Hkv) as [Hp _].
  rewrite <- (players_entry_piece g kv piece Hwf Hkv Hpiece) in Hp.
  apply obind_returns; [by eapply piece_progress_returns | eauto].
Qed.

Lemma group_bonus_returns pos : ∃ x, _calculate_group_bonus ai g pos = Returned x.
Proof.
  unfold _calculate_group_bonus, dict_at. rewrite Hme.
  destruct (negb (ai_game ai)); [eauto|]. cbn [obind].
  apply obind_returns; [|eauto]. apply for_each_total.
  intros acc piece _. destruct ((position piece =? -1) || is_home piece); eauto.
Qed.

Lemma home_stretch_timing_returns piece :
  ∃ x, _calculate_home_stretch_timing ai g piece = Returned x.
Proof.
  unfold _calculate_home_stretch_timing, dict_at. rewrite Hme.
  destruct (negb (ai_game ai)); [eauto|]. cbn [obind].
  apply obind_returns; [|eauto]. apply for_each_total. intros acc other_piece _. eauto.
Qed.
End Returns.

(** ** The capture the AI expects and the capture the engine makes *)

Lemma find_app_l {A} (f : A → bool) (l1 l2 : list A) :
  find f (l1 ++ l2) = match find f l1 with Some x => Some x | None => find f l2 end.
Proof. induction l1 as [|x l1 IH]; [done|]. cbn. by destruct (f x). Qed.

Lemma find_all_false {A} (f : A → bool) (l : list A) :
  (∀ x, x ∈ l → f x = false) → find f l = None.
Proof.
  induction l as [|x l IH]; intros H; [done|]. cbn. rewrite H by left.
  apply IH. intros y Hy. apply H. by right.
Qed.

Lemma find_ext_in {A} (f f' : A → bool) (l : list A) :
  (∀ x, x ∈ l → f x = f' x) → find f l = find f' l.
Proof.
  induction l as [|x l IH]; intros H; [done|]. cbn. rewrite H by left.
  destruct (f' x); [done|]. apply IH. intros y Hy. apply H. by right.
Qed.

Lemma all_pieces_entries g : all_pieces g = flat_map (λ kv, pieces kv.2) (players g).
Proof.
  unfold all_pieces, dict_values. induction (players g) as [|kv d IH]; [done|].
  cbn. by rewrite IH.
Qed.

(** A search through all pieces that can only stop at a piece of a colour
    other than [c] is a search through the players of the other colours. *)
Lemma find_skipping c (f f' : Piece → bool) (d : dict Player) :
  (∀ kv x, kv ∈ d → kv.1 = c → x ∈ pieces kv.2 → f x = false) →
  (∀ kv x, kv ∈ d → kv.1 ≠ c → x ∈ pieces kv.2 → f x = f' x) →
  find f (flat_map (λ kv, pieces kv.2) d)
  = find f' (flat_map (λ kv, pieces kv.2) (filter (λ kv, kv.1 ≠ c) d)).
Proof.
  induction d as [|kv d IH]; intros Hown Hother; [done|].
  cbn [flat_map]. rewrite filter_cons, find_app_l.
  assert (IH' : find f (flat_map (λ kv, pieces kv.2) d)
                = find f' (flat_map (λ kv, pieces kv.2) (filter (λ kv, kv.1 ≠ c) d))).
  { apply IH; intros kv' x Hkv'; [apply Hown | apply Hother]; by right. }
  destruct (decide (kv.1 ≠ c)) as [Hne|Heq].
  - cbn [flat_map]. rewrite find_app_l, IH'.
    by rewrite (find_ext_in f f' (pieces kv.2)) by (intros x Hx; apply (Hother kv); [left|..]; done).
  - apply dec_stable in Heq.
    by rewrite (find_all_false f (pieces kv.2)) by (intros x Hx; apply (Hown kv); [left|..]; done).
Qed.

Lemma filter_dict_set {V} c (v : V) (d : dict V) :
  filter (λ kv, kv.1 ≠ c) (dict_set c v d) = filter (λ kv, kv.1 ≠ c) d.
Proof.
  induction d as [|[k w] d IH]; cbn [dict_set].
  - rewrite filter_cons. cbn. by rewrite decide_False by (by intros ?).
  - destruct (decide (k = c)) as [->|Hne].
    + rewrite !filter_cons. cbn. by rewrite !decide_False by (by intros ?).
    + rewrite !filter_cons. cbn. by rewrite IH.
Qed.

Lemma filter_alter_player f c (d : dict Player) :
  filter (λ kv, kv.1 ≠ c) (alter_player f c d) = filter (λ kv, kv.1 ≠ c) d.
Proof.
  unfold alter_player. destruct (dict_get c d); [apply filter_dict_set | done].
Qed.

Lemma filter_landed pc id n home (d : dict Player) :
  filter (λ kv, kv.1 ≠ pc) (landed pc id n home d) = filter (λ kv, kv.1 ≠ pc) d.
Proof.
  unfold landed, alter_piece. cbn [fst]. destruct home; by rewrite !filter_alter_player.
Qed.

(** The engine's search, before or after the mover's own position is
    written, is the search through the other colours' pieces. *)
Lemma check_capture_others g c moving pos (d : dict Player) :
  player_color moving = c →
  (∀ kv x, kv ∈ d → x ∈ pieces kv.2 → player_color x = kv.1) →
  _check_capture (set_players d g) moving pos
  = if bool_decide (pos ∈ safe_positions) then None
    else find (λ piece, (position piece =? pos) && negb (is_home piece))
           (flat_map (λ kv, pieces kv.2) (filter (λ kv, kv.1 ≠ c) d)).
Proof.
  intros Hm Hown. unfold _check_capture. case_bool_decide; [done|].
  rewrite all_pieces_entries. cbn [players set_players].
  apply find_skipping; intros kv x Hkv Hc Hx; unfold capturable, same_piece;
    rewrite Hm, (Hown kv x Hkv Hx).
  - rewrite (bool_decide_eq_false_2 (kv.1 ≠ c)) by (by intros ?). by rewrite andb_false_r.
  - rewrite (bool_decide_eq_false_2 (kv.1 = c)) by done.
    rewrite (bool_decide_eq_true_2 (kv.1 ≠ c)) by done. cbn. by rewrite andb_true_r.
Qed.

Lemma owned_wf g kv x : wf g → kv ∈ players g → x ∈ pieces kv.2 → player_color x = kv.1.
Proof. intros. by eapply players_entry_piece. Qed.

Lemma owned_landed g pc id n home player kv x :
  wf g → dict_get pc (players g) = Some player →
  kv ∈ landed pc id n home (players g) → x ∈ pieces kv.2 → player_color x = kv.1.
Proof.
  intros Hwf Hp Hkv Hx. destruct kv as [k p]. cbn [fst snd] in *.
  assert (Hnd : NoDup (dict_keys (landed pc id n home (players g)))).
  { unfold landed. destruct home;
      rewrite ?dict_keys_alter_player, ?dict_keys_alter_piece; apply Hwf. }
  apply dict_elem_get in Hkv; [|done].
  destruct (decide (k = pc)) as [->|Hne].
  - rewrite (dict_get_landed_mover _ _ _ _ _ player Hp) in Hkv. injection Hkv as <-.
    cbn [pieces] in Hx. apply list_elem_of_lookup in Hx as [i Hi].
    pose proof (proj2 (proj1 Hwf) _ _ Hp) as (_ & _ & _ & _ & Hps & _).
    rewrite list_lookup_alter in Hi. case_decide.
    + destruct (pieces player !! _) as [y|] eqn:Hy; cbn in Hi; [|done]. injection Hi as <-.
      destruct (Hps _ _ Hy) as (Hc & _). unfold landed_piece. by destruct home.
    + by destruct (Hps _ _ Hi) as (Hc & _).
  - rewrite dict_get_landed_other in Hkv by done.
    pose proof (proj2 (proj1 Hwf) _ _ Hkv) as (_ & _ & _ & _ & Hps & _).
    apply list_elem_of_lookup in Hx as [i Hi]. by destruct (Hps _ _ Hi) as (Hc & _).
Qed.

(** The AI's test on the game before the move is the engine's test during
    the move. *)
Lemma check_capture_at_position_landed ai g id n home moving player :
  wf g → ai_game ai = true → player_color moving = ai_color ai →
  dict_get (ai_color ai) (players g) = Some player →
  _check_capture (set_players (landed (ai_color ai) id n home (players g)) g) moving n
  = _check_capture_at_position ai g n.
Proof.
  intros Hwf Hgame Hm Hp.
  rewrite (check_capture_others g (ai_color ai)) by
    (done || intros kv x; by apply (owned_landed g _ id n home player)).
  unfold _check_capture_at_position, opposing_pieces. rewrite Hgame. cbn [negb orb].
  by rewrite filter_landed.
Qed.

(** X18: the capture test of the AI predicts the engine.  For an AI attached
    to a game reached by public operations, whatever its phase,
    [_check_capture_at_position] is the engine's [_check_capture] for any
    moving piece of the AI's colour and any cell; and whenever a move of the
    AI's colour succeeds in that game, it emits [PIECE_CAPTURED] exactly when
    the AI's test at the destination finds a piece, and it is that piece the
    event names and the engine puts back at base. *)
Theorem ai_capture_test_predicts_the_engine (cs : list Call) (ai : AIPlayer) :
  let g := final cs in
  let pc := ai_color ai in
  ai_game ai = true →
  (∀ moving pos, player_color moving = pc →
     _check_capture_at_position ai g pos = _check_capture g moving pos)
  ∧ ∀ id g' ev,
      move_piece pc id g = (Returned true, g', ev) →
      ∃ player piece n,
        dict_get pc (players g) = Some player
        ∧ pieces player !! Z.to_nat id = Some piece
        ∧ _calculate_new_position g piece (dice_value g) = Returned n
        ∧ (emitted EventType.PIECE_CAPTURED ev
           ↔ is_Some (_check_capture_at_position ai g n))
        ∧ ∀ victim,
            _check_capture_at_position ai g n = Some victim →
            mkEvent EventType.PIECE_CAPTURED
              (data_captured (str_piece victim) (pc, id)) (Some pc) ∈ ev
            ∧ ∃ p', dict_get (player_color victim) (players g') = Some p'
                    ∧ pieces p' !! Z.to_nat (piece_id victim) = Some (piece_reset victim).
Proof.
  intros g pc Hgame. pose proof (wf_final cs) as Hwf. fold g in Hwf. split.
  { intros moving pos Hm.
    assert (Hg : g = set_players (players g) g) by by destruct g.
    rewrite Hg at 2.
    rewrite (check_capture_others g pc) by (done || intros kv x; by apply owned_wf).
    unfold _check_capture_at_position, opposing_pieces. by rewrite Hgame. }
  intros id g' ev Hmove.
  destruct (move_piece_effect _ _ _ _ _ Hwf Hmove)
    as (player0 & piece0 & n0 & captured & _ & _ & Hp0 & Hid & Hpiece0 & _ & Hn0 & _
        & Hcapdef & Hcap & _ & _).
  destruct (move_piece_success _ _ _ _ _ Hwf Hmove)
    as (player & piece & n & evturn & _ & _ & _ & Hp & Hpiece & Hpok & Hh & Hn
        & Hplayers & Hp' & _ & Hev & Hturn).
  rewrite Hp in Hp0. injection Hp0 as <-. rewrite Hpiece in Hpiece0. injection Hpiece0 as <-.
  rewrite Hn in Hn0. injection Hn0 as <-. cbv zeta in *.
  set (home := bool_decide (n ∈ home_stretch_positions pc)) in *.
  rewrite <- Hcapdef in Hplayers, Hev.
  assert (Hm : player_color (landed_piece n home piece) = pc).
  { unfold landed_piece. destruct home; cbn; apply Hpok. }
  assert (Hstr : str_piece (landed_piece n home piece) = (pc, id)).
  { unfold str_piece, landed_piece. destruct Hpok as (Hc & Hi & _).
    destruct home; cbn; rewrite Hc, Hi; f_equal; lia. }
  assert (Hsame : captured = _check_capture_at_position ai g n).
  { rewrite Hcapdef. by apply (check_capture_at_position_landed ai g id n home _ player). }
  exists player, piece, n. split_and!; try done.
  - rewrite <- Hsame, Hev, emitted_move_events.
    + split; [|by auto].
      intros [[_ [=]]|[[? _]|[[=]|[[_ [=]]|[_ [=]]]]]]. done.
    + destruct (has_won _); [left | right]; [apply Hturn|].
      destruct Hturn as (_ & next & _ & ->). eauto.
  - intros victim Hvictim. rewrite <- Hsame in Hvictim.
    destruct (Hcap _ Hvictim) as (Hne & _ & _ & _ & p & Hpv & Hj).
    rewrite Hvictim in Hev, Hplayers. split.
    + rewrite Hev. cbn [capture_events]. rewrite Hstr. apply elem_of_app. right. left.
    + eexists. split.
      * rewrite Hplayers, dict_get_settled_other by done.
        rewrite decide_True by done. by rewrite Hpv.
      * cbn [pieces set_pieces]. by rewrite list_lookup_alter_eq, Hj.
Qed.

(** The AI plays RED in [red_meets_green]: its test at 14 finds GREEN's
    piece 0, which RED's move then captures. *)
Lemma ai_capture_test_predicts_the_engine_witness :
  let ai := mkAI RED HARD true in
  let g := final red_meets_green in
  let g' := (move_piece RED 0 g).1.2 in
  let ev := (move_piece RED 0 g).2 in
  (∀ moving pos, player_color moving = RED →
     _check_capture_at_position ai g pos = _check_capture g moving pos)
  ∧ _check_capture_at_position ai g 14 = _check_capture g (mkPiece RED 0 12 false false) 14
  ∧ is_Some (_check_capture_at_position ai g 14)
  ∧ ∃ player piece n,
      dict_get RED (players g) = Some player
      ∧ pieces player !! Z.to_nat 0 = Some piece
      ∧ _calculate_new_position g piece (dice_value g) = Returned n
      ∧ (emitted EventType.PIECE_CAPTURED ev
         ↔ is_Some (_check_capture_at_position ai g n))
      ∧ ∀ victim,
          _check_capture_at_position ai g n = Some victim →
          mkEvent EventType.PIECE_CAPTURED
            (data_captured (str_piece victim) (RED, 0)) (Some RED) ∈ ev
          ∧ ∃ p', dict_get (player_color victim) (players g') = Some p'
                  ∧ pieces p' !! Z.to_nat (piece_id victim) = Some (piece_reset victim).
Proof.
  intros ai g g' ev.
  destruct (ai_capture_test_predicts_the_engine red_meets_green (mkAI RED HARD true) eq_refl)
    as [Hsame Hmove].
  split_and!.
  - exact Hsame.
  - by apply Hsame.
  - vm_compute. eauto.
  - apply (Hmove 0). vm_compute. reflexivity.
Defined.

(** ** Threats and the bonus for preventing captures *)

Lemma calculate_new_position_same_player g1 g2 piece dice :
  dict_get (player_color piece) (players g1) = dict_get (player_color piece) (players g2) →
  _calculate_new_position g1 piece dice = _calculate_new_position g2 piece dice.
Proof.
  intros H. unfold _calculate_new_position, _should_enter_home_stretch, dict_at.
  by rewrite H.
Qed.

Lemma reaches_same_player g1 g2 piece target :
  dict_get (player_color piece) (players g1) = dict_get (player_color piece) (players g2) →
  reaches g1 piece target = reaches g2 piece target.
Proof.
  intros H. unfold reaches. apply for_any_ext. intros dice _.
  by rewrite (calculate_new_position_same_player g1 g2).
Qed.

(** A loop over the players that passes over colour [c] does not see what
    is stored under [c]. *)
Lemma for_each_dict_set {B} c (v : Player) (d : dict Player)
    (body1 body2 : B → PlayerColor * Player → outcome B) acc :
  (∀ acc kv, kv.1 = c → body1 acc kv = Returned acc) →
  (∀ acc kv, kv.1 = c → body2 acc kv = Returned acc) →
  (∀ acc kv, kv ∈ d → kv.1 ≠ c → body1 acc kv = body2 acc kv) →
  for_each (dict_set c v d) body1 acc = for_each d body2 acc.
Proof.
  intros H1 H2 Hsame. revert acc. induction d as [|[k w] d IH]; intros acc; cbn [dict_set].
  - cbn [for_each]. by rewrite H1.
  - destruct (decide (k = c)) as [->|Hne].
    + cbn [for_each]. rewrite H1, H2 by done. cbn [obind].
      apply for_each_ext. intros acc0 kv Hkv.
      destruct (decide (kv.1 = c)) as [Hc|Hc]; [by rewrite H1, H2|].
      apply Hsame; [by right | done].
    + cbn [for_each]. rewrite (Hsame acc (k, w)) by (left || done).
      destruct (body2 acc (k, w)); [|done..]. cbn [obind]. apply IH.
      intros acc0 kv Hkv. apply Hsame. by right.
Qed.

Section Threats.
Variable ai : AIPlayer.
Variable g : LudoGame.
Hypothesis Hwf : wf g.

Lemma count_threats_returns piece : ∃ n, _count_threats_to_piece ai g piece = Returned n.
Proof.
  unfold _count_threats_to_piece.
  destruct (negb (ai_game ai) || bool_decide (position piece ∈ safe_positions)
            || (position piece =? -1) || is_home piece); [eauto|].
  apply for_each_total. intros acc kv Hkv. case_bool_decide; [eauto|].
  apply for_each_total. intros acc' opp Hopp.
  destruct ((position opp =? -1) || is_home opp); [eauto|].
  destruct (players_entry g kv Hwf Hkv) as [Hp _].
  rewrite <- (players_entry_piece g kv opp Hwf Hkv Hopp) in Hp.
  apply obind_returns; [by eapply reaches_returns | eauto].
Qed.

(** The threats to a piece do not depend on where the AI's own pieces
    stand. *)
Lemma count_threats_simulated piece new_position x :
  player_color piece = ai_color ai →
  _count_threats_to_piece ai (simulated g piece new_position) x
  = _count_threats_to_piece ai g x.
Proof.
  intros Hc. unfold _count_threats_to_piece.
  destruct (negb (ai_game ai) || bool_decide (position x ∈ safe_positions)
            || (position x =? -1) || is_home x); [done|].
  unfold simulated at 1. cbn [players set_players].
  unfold alter_piece, alter_player, str_piece. cbn [fst snd]. rewrite Hc.
  destruct (dict_get (ai_color ai) (players g)) as [me|] eqn:Hme; cycle 1.
  { apply for_each_ext. intros acc kv Hkv. case_bool_decide; [done|].
    apply for_each_ext. intros acc' opp Hopp.
    destruct ((position opp =? -1) || is_home opp); [done|].
    rewrite (reaches_same_player (simulated g piece new_position) g); [done|].
    unfold simulated. cbn [players set_players]. rewrite dict_get_alter_piece.
    cbn [fst str_piece]. rewrite Hc. case_decide as Heq; [|done]. by rewrite <- Heq, Hme. }
  apply for_each_dict_set.
  - intros acc kv Hkv. by rewrite bool_decide_eq_true_2.
  - intros acc kv Hkv. by rewrite bool_decide_eq_true_2.
  - intros acc kv Hkv Hne. rewrite !bool_decide_eq_false_2 by done.
    apply for_each_ext. intros acc' opp Hopp.
    destruct ((position opp =? -1) || is_home opp); [done|].
    rewrite (reaches_same_player (simulated g piece new_position) g); [done|].
    unfold simulated. cbn [players set_players]. rewrite dict_get_alter_piece.
    cbn [fst str_piece]. rewrite Hc, decide_False; [done|].
    rewrite (players_entry_piece g kv opp Hwf Hkv Hopp). intros Heq. by apply Hne.
Qed.

(** Both counts of [_calculate_capture_prevention] agree, so that it
    returns the [0.0] it starts with. *)
Lemma capture_prevention_returns piece new_position me :
  dict_get (ai_color ai) (players g) = Some me →
  player_color piece = ai_color ai →
  _calculate_capture_prevention ai g piece new_position = Returned float_zero.
Proof.
  intros Hme Hc. unfold _calculate_capture_prevention, dict_at. rewrite Hme.
  destruct (negb (ai_game ai)); [done|]. cbn [obind].
  apply for_each_unchanged. intros my_piece _.
  destruct (same_piece my_piece piece || (position my_piece =? -1) || is_home my_piece);
    [done|].
  rewrite count_threats_simulated by done.
  destruct (count_threats_returns my_piece) as [n ->]. cbn [obind].
  by rewrite Z.ltb_irrefl.
Qed.
End Threats.

(** X19: the bonus of the hard AI for preventing captures is always zero.
    [_calculate_capture_prevention] counts the threats to each of its other
    pieces before and after it has written the candidate position into the
    moving piece; [_count_threats_to_piece] looks only at the pieces of the
    other colours, so both counts agree and the method returns [0.0], for
    every piece of the AI's colour and every candidate position, in every
    game reached by public operations and [_next_turn] calls in which the
    AI's colour is a player.  Neither method raises there. *)
Theorem capture_prevention_bonus_is_zero (ops : list Op) (ai : AIPlayer) (piece : Piece)
    (new_position : Z) :
  let g := reached ops in
  dict_mem (ai_color ai) (players g) = true → player_color piece = ai_color ai →
  _calculate_capture_prevention ai g piece new_position = Returned float_zero
  ∧ (∀ x, ∃ n, _count_threats_to_piece ai g x = Returned n
               ∧ _count_threats_to_piece ai (simulated g piece new_position) x = Returned n).
Proof.
  intros g [me Hme]%dict_mem_true Hc. pose proof (proj1 (inv_reached ops)) as Hwf. fold g in Hwf.
  split.
  - by apply (capture_prevention_returns ai g Hwf piece new_position me).
  - intros x. destruct (count_threats_returns ai g Hwf x) as [n Hn]. exists n. split; [done|].
    by rewrite (count_threats_simulated ai g Hwf).
Qed.

(** The hard AI plays RED in [red_meets_green] and weighs the move of its
    piece 0 to cell 14. *)
Lemma capture_prevention_bonus_is_zero_witness :
  let ai := mkAI RED HARD true in
  let g := reached (map op_call red_meets_green) in
  let piece := piece_on_track RED 0 12 in
  _calculate_capture_prevention ai g piece 14 = Returned float_zero
  ∧ (∀ x, ∃ n, _count_threats_to_piece ai g x = Returned n
               ∧ _count_threats_to_piece ai (simulated g piece 14) x = Returned n).
Proof.
  apply (capture_prevention_bonus_is_zero (map op_call red_meets_green)
           (mkAI RED HARD true) (piece_on_track RED 0 12) 14).
  - reflexivity.
  - reflexivity.
Defined.

(** ** The scores and the choice of a move *)

Section Scores.
Variable ai : AIPlayer.
Variable g : LudoGame.
Hypothesis Hwf : wf g.
Variable me : Player.
Hypothesis Hme : dict_get (ai_color ai) (players g) = Some me.

Lemma score_medium_returns piece n :
  ∃ s, _calculate_move_score_medium ai g piece n = Returned s.
Proof.
  unfold _calculate_move_score_medium. destruct (negb (ai_game ai)); [eauto|]. cbv zeta.
  apply obind_returns.
  { destruct (position piece >=? 0); [|eauto]. unfold dict_at. rewrite Hme. cbn [obind].
    apply obind_returns; [by eapply distance_returns | eauto]. }
  intros s. apply obind_returns; [by eapply is_vulnerable_returns|]. intros vulnerable.
  apply obind_returns; [by eapply is_entering_returns|]. intros entering. eauto.
Qed.

Lemma score_hard_returns piece n :
  player_color piece = ai_color ai →
  ∃ s, _calculate_move_score_hard ai g piece n = Returned s.
Proof.
  intros Hc. unfold _calculate_move_score_hard. destruct (negb (ai_game ai)); [eauto|].
  apply obind_returns; [apply score_medium_returns|]. intros s.
  apply obind_returns; [by apply blocking_value_returns|]. intros blocking_value. cbv zeta.
  apply obind_returns; [by eapply group_bonus_returns|]. intros group_bonus.
  apply obind_returns.
  { exists float_zero. by apply (capture_prevention_returns ai g Hwf piece n me). }
  intros prevention_bonus.
  apply obind_returns; [by eapply is_entering_returns|]. intros entering.
  apply obind_returns; [|eauto].
  destruct entering; [|eauto].
  apply obind_returns; [by eapply home_stretch_timing_returns | eauto].
Qed.
End Scores.

Lemma score_moves_run (score : Piece → Z → outcome float) (valid_moves : list (Piece * Z)) :
  (∀ m, m ∈ valid_moves → ∃ s, score m.1 m.2 = Returned s) →
  ∃ move_scores,
    score_moves score valid_moves = Returned move_scores
    ∧ map fst move_scores = map fst valid_moves.
Proof.
  unfold score_moves. intros Hscore.
  assert (H : ∀ acc, ∃ l,
            for_each valid_moves
              (λ move_scores m, read s := score m.1 m.2;
                                Returned (move_scores ++ [(m.1, s)])) acc
            = Returned (acc ++ l) ∧ map fst l = map fst valid_moves).
  { induction valid_moves as [|m ms IH]; intros acc.
    - exists []. by rewrite app_nil_r.
    - cbn [for_each]. destruct (Hscore m) as [s ->]; [left|]. cbn [obind].
      destruct (IH (λ m' Hm', Hscore m' (list_elem_of_further _ _ _ Hm')) (acc ++ [(m.1, s)]))
        as (l & -> & Hl).
      exists ((m.1, s) :: l). rewrite <- app_assoc. cbn. by rewrite Hl. }
  destruct (H []) as (l & Hl & Hfst). by exists l.
Qed.

Lemma insert_by_score_elem x y l : y ∈ insert_by_score x l ↔ y = x ∨ y ∈ l.
Proof.
  induction l as [|z l IH]; cbn [insert_by_score].
  - rewrite list_elem_of_singleton. split; [auto | intros [?|?%elem_of_nil]; done].
  - destruct (float_lt x.2 z.2).
    + rewrite !elem_of_cons, IH. tauto.
    + rewrite !elem_of_cons. tauto.
Qed.

Lemma sort_by_score_elem y l : y ∈ sort_by_score l ↔ y ∈ l.
Proof.
  unfold sort_by_score. induction l as [|x l IH]; [done|].
  cbn [foldr]. rewrite insert_by_score_elem, IH, elem_of_cons. done.
Qed.

Lemma insert_by_score_length x l : length (insert_by_score x l) = S (length l).
Proof.
  induction l as [|z l IH]; [done|]. cbn [insert_by_score].
  destruct (float_lt x.2 z.2); cbn [length]; [by rewrite IH | done].
Qed.

Lemma sort_by_score_length l : length (sort_by_score l) = length l.
Proof.
  unfold sort_by_score. induction l as [|x l IH]; [done|].
  cbn [foldr]. by rewrite insert_by_score_length, IH.
Qed.

Lemma taken_elem {A} n (l : list A) x : x ∈ take n l → x ∈ l.
Proof. intros H. rewrite <- (take_drop n l). apply elem_of_app. by left. Qed.

Lemma scored_piece_listed (move_scores : list (Piece * float)) (valid_moves : list (Piece * Z))
    (x : Piece * float) :
  map fst move_scores = map fst valid_moves → x ∈ move_scores →
  ∃ n, (x.1, n) ∈ valid_moves.
Proof.
  intros Hfst Hx.
  assert (Hin : x.1 ∈ map fst valid_moves).
  { rewrite <- Hfst. by apply list_elem_of_fmap_2. }
  apply list_elem_of_fmap in Hin as ([piece n] & Heq & Hin). cbn in Heq. subst. eauto.
Qed.

Lemma easy_move_run dr (valid_moves : list (Piece * Z)) :
  valid_moves ≠ [] →
  ∃ piece n, _easy_move dr valid_moves = Returned piece ∧ (piece, n) ∈ valid_moves.
Proof.
  intros Hne. unfold _easy_move. cbv zeta.
  destruct (negb (bool_decide (filter _ valid_moves = [])) && draw_coin dr) eqn:E.
  - apply andb_true_iff in E as [E _]. apply negb_true_iff, bool_decide_eq_false in E.
    destruct (random_choice_returns (draw_index dr) _ E) as [[piece n] Hm].
    rewrite Hm. cbn. exists piece, n. split; [done|].
    apply random_choice_elem in Hm. by apply list_elem_of_filter in Hm as [_ ?].
  - destruct (random_choice_returns (draw_index dr) _ Hne) as [[piece n] Hm].
    rewrite Hm. cbn. exists piece, n. split; [done|]. by apply random_choice_elem in Hm.
Qed.

Lemma medium_move_run ai dr g (valid_moves : list (Piece * Z)) :
  valid_moves ≠ [] →
  (∀ m, m ∈ valid_moves → ∃ s, _calculate_move_score_medium ai g m.1 m.2 = Returned s) →
  ∃ piece n, _medium_move ai dr g valid_moves = Returned piece ∧ (piece, n) ∈ valid_moves.
Proof.
  intros Hne Hscore. unfold _medium_move.
  destruct (score_moves_run _ valid_moves Hscore) as (move_scores & -> & Hfst).
  cbn [obind]. cbv zeta. unfold random_choices_first.
  set (sorted := sort_by_score move_scores).
  assert (Hlen : length sorted = length valid_moves).
  { unfold sorted. rewrite sort_by_score_length.
    by rewrite <- (length_map fst move_scores), Hfst, length_map. }
  assert (Htop : map fst (take (Nat.min 3 (length sorted)) sorted) ≠ []).
  { destruct valid_moves as [|m ms]; [done|]. destruct sorted as [|x xs]; [done|].
    cbn. done. }
  destruct (random_choice_returns (draw_index dr) _ Htop) as [piece Hpiece].
  rewrite Hpiece. apply random_choice_elem in Hpiece.
  apply list_elem_of_fmap in Hpiece as (x & -> & Hx).
  apply taken_elem in Hx. unfold sorted in Hx.
  apply (proj1 (sort_by_score_elem _ _)) in Hx.
  destruct (scored_piece_listed _ _ _ Hfst Hx) as [n Hn]. eauto.
Qed.

Lemma hard_move_run ai g (valid_moves : list (Piece * Z)) :
  valid_moves ≠ [] →
  (∀ m, m ∈ valid_moves → ∃ s, _calculate_move_score_hard ai g m.1 m.2 = Returned s) →
  ∃ piece n, _hard_move ai g valid_moves = Returned piece ∧ (piece, n) ∈ valid_moves.
Proof.
  intros Hne Hscore. unfold _hard_move.
  destruct (score_moves_run _ valid_moves Hscore) as (move_scores & -> & Hfst).
  cbn [obind]. cbv zeta.
  set (sorted := sort_by_score move_scores).
  assert (Hlen : length sorted = length valid_moves).
  { unfold sorted. rewrite sort_by_score_length.
    by rewrite <- (length_map fst move_scores), Hfst, length_map. }
  destruct sorted as [|x xs] eqn:E.
  { destruct valid_moves; done. }
  unfold list_at. cbn.
  assert (Hx : x ∈ sort_by_score move_scores) by (fold sorted; rewrite E; left).
  apply (proj1 (sort_by_score_elem _ _)) in Hx.
  destruct (scored_piece_listed _ _ _ Hfst Hx) as [n Hn]. eauto.
Qed.

Lemma choose_move_run ai dr g me (valid_moves : list (Piece * Z)) :
  wf g → dict_get (ai_color ai) (players g) = Some me →
  valid_moves ≠ [] →
  (∀ m, m ∈ valid_moves → player_color m.1 = ai_color ai) →
  ∃ piece n,
    _choose_move ai dr g valid_moves = Returned (Some piece) ∧ (piece, n) ∈ valid_moves.
Proof.
  intros Hwf Hme Hne Hcol. unfold _choose_move.
  destruct valid_moves as [|m ms] eqn:E; [done|]. rewrite <- E in *.
  destruct (ai_difficulty ai).
  - destruct (easy_move_run dr valid_moves Hne) as (piece & n & -> & Hin). cbn. eauto.
  - destruct (medium_move_run ai dr g valid_moves Hne) as (piece & n & -> & Hin);
      [|cbn; eauto].
    intros m' _. by eapply score_medium_returns.
  - destruct (hard_move_run ai g valid_moves Hne) as (piece & n & -> & Hin);
      [|cbn; eauto].
    intros m' Hm'. eapply score_hard_returns; eauto.
Qed.

(** ** [make_move] *)

Lemma make_move_roll r g :
  inv g → game_state g = GameState.ROLLING_DICE ∨ game_state g = GameState.MOVING_PIECE →
  ∃ g1 ev1 ops1,
    (if bool_decide (game_state g = GameState.ROLLING_DICE)
     then bind (roll_dice r) (λ _, ret tt) else ret tt) g = (Returned tt, g1, ev1)
    ∧ g1 = foldl step_op g ops1
    ∧ game_state g1 = GameState.MOVING_PIECE
    ∧ players g1 = players g ∧ current_player g1 = current_player g.
Proof.
  intros Hinv [Hst|Hst].
  - rewrite bool_decide_eq_true_2 by done.
    exists (set_game_state GameState.MOVING_PIECE (set_dice_value (randint_1_6 r) g)),
      ([mkEvent EventType.DICE_ROLLED (data_dice (randint_1_6 r)) (current_player g)] ++ []),
      [op_call (call_roll_dice r)].
    split_and!; try done.
    + eapply bind_run; [|reflexivity]. rewrite roll_dice_run.
      by rewrite bool_decide_eq_true_2.
    + cbn [foldl step_op]. rewrite exec_game, roll_dice_run.
      by rewrite bool_decide_eq_true_2.
  - rewrite bool_decide_eq_false_2 by (rewrite Hst; done).
    exists g, [], []. split_and!; done.
Qed.

Lemma make_move_run ai dr g :
  inv g → ai_game ai = true → current_player g = Some (ai_color ai) →
  dict_mem (ai_color ai) (players g) = true →
  game_state g = GameState.ROLLING_DICE ∨ game_state g = GameState.MOVING_PIECE →
  ∃ ev ops',
    make_move ai dr g = (Returned true, foldl step_op g ops', ev)
    ∧ dict_keys (players (foldl step_op g ops')) = dict_keys (players g)
    ∧ ((game_state (foldl step_op g ops') = GameState.GAME_OVER
        ∧ current_player (foldl step_op g ops') = Some (ai_color ai)
        ∧ in_play (foldl step_op g ops') (ai_color ai) = false)
       ∨ (game_state (foldl step_op g ops') = GameState.ROLLING_DICE
          ∧ current_player (foldl step_op g ops')
            = Some (next_player (foldl step_op g ops') (ai_color ai)))).
Proof.
  intros Hinv Hgame Hcur Hmem Hst. set (pc := ai_color ai) in *.
  destruct (make_move_roll (draw_face dr) g Hinv Hst)
    as (g1 & ev1 & ops1 & Hroll & Hg1 & Hst1 & Hpl1 & Hcur1).
  assert (Hinv1 : inv g1) by (rewrite Hg1; by apply inv_foldl).
  pose proof (proj1 Hinv1) as Hwf1.
  rewrite Hcur in Hcur1. apply dict_mem_true in Hmem as [player Hp].
  rewrite <- Hpl1 in Hp.
  destruct (get_valid_moves_run g1 pc player Hwf1 Hcur1 Hst1 Hp) as (moves & Hmoves & Hmem).
  unfold make_move. rewrite bind_get, Hgame. fold pc.
  rewrite bool_decide_eq_false_2 by (by intros ?). cbn [negb orb].
  destruct moves as [|m moves].
  - exists (ev1 ++ [turn_event (next_player g1 pc)] ++ []), (ops1 ++ [op_next_turn]).
    rewrite foldl_app, <- Hg1. cbn [foldl step_op].
    rewrite (next_turn_exact g1 pc Hcur1). cbn [fst snd]. split_and!.
    + eapply bind_run; [exact Hroll|]. cbv beta. rewrite bind_get.
      rewrite bool_decide_eq_true_2 by done.
      rewrite (bind_query _ _ _ []) by done.
      eapply bind_run; [by apply next_turn_exact | reflexivity].
    + by rewrite <- Hpl1.
    + right. split; [done|]. reflexivity.
  - destruct (choose_move_run ai dr g1 player (m :: moves) Hwf1 Hp) as (piece & n & Hch & Hin).
    { done. }
    { intros m' Hm'. destruct m' as [piece' n'].
      apply Hmem in Hm' as ([i Hi]%list_elem_of_lookup_1 & _).
      pose proof (proj2 (proj1 Hwf1) _ _ Hp) as (_ & _ & _ & _ & Hps & _).
      by destruct (Hps _ _ Hi) as (? & _). }
    destruct (listed_move_succeeds g1 pc player _ piece n Hwf1 Hcur1 Hst1 Hp Hmoves Hin)
      as (g' & ev & Hm).
    exists (ev1 ++ ev), (ops1 ++ [op_call (call_move_piece pc (piece_id piece))]).
    rewrite foldl_app, <- Hg1. cbn [foldl step_op]. rewrite exec_game, Hm. cbn [fst snd].
    destruct (move_piece_turn _ _ _ _ _ Hwf1 Hm) as (Hkeys & player' & Hp' & Hturn).
    split_and!.
    + eapply bind_run; [exact Hroll|]. cbv beta. rewrite bind_get.
      rewrite bool_decide_eq_true_2 by done.
      rewrite (bind_query _ _ _ (m :: moves)) by done.
      rewrite (bind_query _ _ _ (Some piece)) by done. exact Hm.
    + by rewrite Hkeys, Hpl1.
    + destruct (has_won player') eqn:Hwon.
      * left. destruct Hturn as [? ?]. split_and!; try done.
        unfold in_play. by rewrite Hp', Hwon.
      * right. destruct Hturn as (? & ? & _). done.
Qed.

(** X20: [AIPlayer.make_move] always completes the AI's turn.  For an AI of
    any difficulty attached to a game reached by public operations and
    [_next_turn] calls, when it is the AI's turn, its colour is still a
    player and the phase is [ROLLING_DICE] or [MOVING_PIECE], [make_move]
    returns [True] whatever the random generator yields: no score raises, the
    piece it chooses is one [get_valid_moves] lists and its move succeeds, or
    it passes with [_next_turn] when nothing is listed.  Afterwards the game
    is over or the next colour in play is to roll.  When the AI is not
    attached, when it is not its turn, and when the game is over, [make_move]
    returns [False] and changes nothing. *)
Theorem make_move_completes_the_turn (ops : list Op) (ai : AIPlayer) (dr : Draw) :
  let g := reached ops in
  (ai_game ai = true → current_player g = Some (ai_color ai) →
   dict_mem (ai_color ai) (players g) = true →
   game_state g = GameState.ROLLING_DICE ∨ game_state g = GameState.MOVING_PIECE →
   ∃ ev ops',
     let g' := reached (ops ++ ops') in
     make_move ai dr g = (Returned true, g', ev)
     ∧ dict_keys (players g') = dict_keys (players g)
     ∧ ((game_state g' = GameState.GAME_OVER ∧ current_player g' = Some (ai_color ai)
         ∧ in_play g' (ai_color ai) = false)
        ∨ (game_state g' = GameState.ROLLING_DICE
           ∧ current_player g' = Some (next_player g' (ai_color ai)))))
  ∧ (ai_game ai = false ∨ current_player g ≠ Some (ai_color ai)
     ∨ game_state g = GameState.GAME_OVER →
     make_move ai dr g = (Returned false, g, [])).
Proof.
  intros g. split.
  - intros Hgame Hcur Hmem Hst.
    destruct (make_move_run ai dr g (inv_reached ops) Hgame Hcur Hmem Hst)
      as (ev & ops' & Hrun & Hkeys & Hend).
    exists ev, ops'. cbv zeta. rewrite reached_app. done.
  - intros Hoff. unfold make_move. rewrite bind_get.
    destruct (negb (ai_game ai) || bool_decide (current_player g ≠ Some (ai_color ai)))
      eqn:E; [done|].
    apply orb_false_iff in E as [E1%negb_false_iff E2%bool_decide_eq_false].
    destruct Hoff as [Hoff|[Hoff|Hoff]]; [congruence | done |].
    rewrite bool_decide_eq_false_2 by (rewrite Hoff; done).
    eapply (bind_run _ _ _ tt g []); [done|]. rewrite bind_get.
    by rewrite bool_decide_eq_false_2 by (rewrite Hoff; done).
Qed.

(** A hard AI plays RED in the game of [red_meets_green], where RED has
    rolled a 2. *)
Lemma make_move_completes_the_turn_witness :
  let ai := mkAI RED HARD true in
  let ops := map op_call red_meets_green in
  let g := reached ops in
  ∃ ev ops',
    let g' := reached (ops ++ ops') in
    make_move ai (mkDraw F3 true 5) g = (Returned true, g', ev)
    ∧ dict_keys (players g') = dict_keys (players g)
    ∧ ((game_state g' = GameState.GAME_OVER ∧ current_player g' = Some (ai_color ai)
        ∧ in_play g' (ai_color ai) = false)
       ∨ (game_state g' = GameState.ROLLING_DICE
          ∧ current_player g' = Some (next_player g' (ai_color ai)))).
Proof.
  intros ai ops g.
  apply (proj1 (make_move_completes_the_turn (map op_call red_meets_green)
                  (mkAI RED HARD true) (mkDraw F3 true 5))).
  - reflexivity.
  - reflexivity.
  - reflexivity.
  - right. reflexivity.
Defined.

(** ** [AIGameManager] *)

Lemma registered_snoc regs r :
  registered (regs ++ [r]) = add_ai_player r.1 r.2 (registered regs).
Proof. unfold registered. by rewrite foldl_app. Qed.

Lemma registered_get regs c :
  dict_get c (registered regs)
  = (λ r, mkAI c r.2 true) <$> last (filter (λ r, r.1 = c) regs).
Proof.
  induction regs as [|r regs IH] using rev_ind; [done|].
  rewrite registered_snoc. unfold add_ai_player. rewrite dict_get_set, filter_app.
  case_decide as Hc.
  - rewrite filter_cons_True, filter_nil by done. rewrite last_snoc. cbn. by rewrite Hc.
  - rewrite filter_cons_False, filter_nil, app_nil_r by done. exact IH.
Qed.

Lemma last_filter_is_Some {A} (P : A → Prop) `{!∀ x, Decision (P x)} (l : list A) :
  is_Some (last (filter P l)) ↔ ∃ x, x ∈ l ∧ P x.
Proof.
  split.
  - intros [x Hx]. exists x. apply last_Some in Hx as [l' Hl'].
    assert (x ∈ filter P l) as Hin by (rewrite Hl'; apply elem_of_app; right; left).
    apply list_elem_of_filter in Hin as [? ?]. done.
  - intros (x & Hx & HP). destruct (last (filter P l)) eqn:E; [done|].
    apply last_None in E. assert (x ∈ filter P l) as Hin by by apply list_elem_of_filter.
    rewrite E in Hin. by apply elem_of_nil in Hin.
Qed.

Lemma registered_mem regs c : dict_mem c (registered regs) = true ↔ c ∈ regs.*1.
Proof.
  rewrite dict_mem_true, registered_get. split.
  - intros [ai Hai]. destruct (last _) as [r|] eqn:E; [|done].
    destruct (proj1 (last_filter_is_Some (λ r, r.1 = c) regs)) as (x & Hx & <-); [by eexists|].
    by apply list_elem_of_fmap_2.
  - intros (r & -> & Hr)%list_elem_of_fmap.
    destruct (proj2 (last_filter_is_Some (λ r', r'.1 = r.1) regs)) as [x ->]; [by exists r|].
    by eexists.
Qed.

(** X21: an [AIGameManager] moves for the colours registered with
    [add_ai_player] and for no other.  [is_ai_player] holds of the registered
    colours exactly, and [get_ai_difficulty] gives the difficulty of the last
    registration of a colour.  On a game reached by public operations and
    [_next_turn] calls, [make_ai_move] completes the turn and returns [True]
    when the current player is registered, still in the game, and the phase
    is [ROLLING_DICE] or [MOVING_PIECE]; it returns [False] and changes
    nothing when the current player is not registered or there is none. *)
Theorem manager_moves_for_registered_colours
    (ops : list Op) (regs : list (PlayerColor * AIDifficulty)) (dr : Draw) :
  let g := reached ops in
  let ai_players := registered regs in
  (∀ c, is_ai_player c ai_players = true ↔ c ∈ regs.*1)
  ∧ (∀ c, get_ai_difficulty c ai_players = snd <$> last (filter (λ r, r.1 = c) regs))
  ∧ (∀ c, current_player g = Some c → c ∈ regs.*1 →
       dict_mem c (players g) = true →
       game_state g = GameState.ROLLING_DICE ∨ game_state g = GameState.MOVING_PIECE →
       ∃ ev ops',
         let g' := reached (ops ++ ops') in
         make_ai_move ai_players dr g = (Returned true, g', ev)
         ∧ dict_keys (players g') = dict_keys (players g)
         ∧ ((game_state g' = GameState.GAME_OVER ∧ current_player g' = Some c
             ∧ in_play g' c = false)
            ∨ (game_state g' = GameState.ROLLING_DICE
               ∧ current_player g' = Some (next_player g' c))))
  ∧ ((∀ c, current_player g = Some c → c ∉ regs.*1) →
     make_ai_move ai_players dr g = (Returned false, g, [])).
Proof.
  intros g ai_players. split_and!.
  - intros c. apply registered_mem.
  - intros c. unfold get_ai_difficulty, ai_players. rewrite registered_get.
    by destruct (last _).
  - intros c Hcur Hreg Hmem Hst.
    apply registered_mem, dict_mem_true in Hreg as [ai Hai].
    pose proof Hai as Hai'. rewrite registered_get in Hai'.
    destruct (last _) as [r|]; [|done]. injection Hai' as Hai'.
    destruct (make_move_run ai dr g (inv_reached ops)) as (ev & ops' & Hrun & Hkeys & Hend).
    { by rewrite <- Hai'. } { by rewrite <- Hai'. } { by rewrite <- Hai'. } { done. }
    exists ev, ops'. cbv zeta. rewrite reached_app. fold g.
    assert (ai_color ai = c) as Hc by by rewrite <- Hai'.
    rewrite Hc in Hend. split_and!; [|done..].
    unfold make_ai_move. rewrite bind_get, Hcur. unfold ai_players. by rewrite Hai.
  - intros Hnone. unfold make_ai_move. rewrite bind_get.
    destruct (current_player g) as [c|] eqn:Hcur; [|done].
    unfold ai_players. destruct (dict_get c (registered regs)) as [ai|] eqn:Hai; [|done].
    destruct (Hnone c eq_refl). apply registered_mem, dict_mem_true. by eexists.
Qed.
